(** * The enclave server of the fog-of-war game: model and properties

    The enclave (the socket server of [enclave/server.ts]) keeps the full
    board, binds connections to player addresses, co-signs spawn and move
    proposals, reconciles them with the events of the contract and backs
    tiles up to a data-availability (DA) node.

    The handlers below follow the server's functions one by one.  Its
    module-level variables are the fields of [State]; what a handler sends,
    disconnects or logs is the list of [Effect]s it returns.  A handler is
    taken to run to completion: the points where the server awaits the
    signer or the chain are not interleaved with other events, and the
    answers of the chain are passed to the handler as a [Chain] view.
    Where a handler closes a socket with [socket.disconnect()], socket.io
    calls the listener of [disconnecting] before the call returns, so
    that [disconnect] runs inside the handler. *)

From stdpp Require Import gmap strings list fin_maps.
From Stdlib Require Import ZArith Ascii DecimalString.

Open Scope Z_scope.

(** ** The game library

    [Location] and [Player] are the plain objects of the game library
    ([{r, c}] and [new Player(symbol, address)]). *)

Record Location := mkLocation { r : Z; c : Z }.
Record Player := mkPlayer { symbol : string; address : string }.

Global Instance Location_eq_dec : EqDecision Location.
Proof. solve_decision. Defined.
Global Instance Player_eq_dec : EqDecision Player.
Proof. solve_decision. Defined.

(** The classes [Tile] and [Board] of the game library are used by the
    server through the fields and methods listed here; the server never
    looks inside them.  [TileJSON] is the wire form of a tile (what
    [toJSON] produces and what a client sends as [uFrom] and [uTo]);
    [JSON_stringify] and [JSON_parse] are used on locations only, and
    [JSON_parse] answers [None] where the parsed value is falsy. *)
Class GameLib := {
  Tile : Type;
  Board : Type;
  TileJSON : Type;
  (* fields and methods of a tile *)
  owner : Tile → Player;
  loc : Tile → Location;
  Tile_cityId : Tile → Z;
  hash : Tile → string;
  isCapital : Tile → bool;
  isCityCenter : Tile → bool;
  toJSON : Tile → TileJSON;
  Tile_fromJSON : TileJSON → Tile;
  Tile_mystery : Location → Tile;
  Tile_spawn : Player → Location → Z → Z → Tile;
  (* the field [address] of a tile in wire form *)
  json_address : TileJSON → string;
  (* fields and methods of the board *)
  t_length : Board → Z;
  getTile : Board → Location → Tile;
  setTile : Board → Tile → Board;
  Board_spawn : Board → Location → Player → Z → Z → Board;
  getNearbyLocations : Board → Location → list Location;
  noFog : Board → Location → Player → bool;
  isSpawned : Board → Player → bool;
  playerCities : Board → string → option (list Z);
  cityTiles : Board → Z → option (list string);
  (* JSON on locations *)
  JSON_stringify : Location → string;
  JSON_parse : string → option Location;
}.

(** What the server takes from its environment: the two settings read from
    the process environment, signature recovery, BigInt parsing (which
    throws, hence the option), the Poseidon permutation, the digest and the
    signature of the enclave's wallet, and tile encryption under the
    enclave's key.  Encryption draws a fresh initialisation vector on every
    call, so it is indexed by the number of earlier calls. *)
Class Externals `{GameLib} := {
  START_RESOURCES : Z;
  CLAIMED_MOVE_LIFE_SPAN : Z;
  verifyMessage : string → string → option string;
  BigInt : string → option Z;
  poseidonPerm : list Z → list Z;
  solidityKeccak256 : Z → string → string → string;
  signMessage : string → string;
  encryptTile : nat → Tile → string * string * string;
  decryptTile : string → string → string → option Tile;
}.

(** The chain as a handler reads it. *)
Record Chain := mkChain {
  getSpawnCommitment : string → Z;
  getSpawnChallengeHash : string → Z;
  getBlockHash : Z → Z;
  NewTile_hashes : list string;
}.

(** A JavaScript string is falsy exactly when it is empty. *)
Definition truthy (s : string) : bool := negb (String.eqb s EmptyString).

Section Enclave.
Context `{EX : Externals}.

(** ** State of the server *)

Record EncryptedTile := mkEncryptedTile {
  enc_symbol : string;
  enc_address : string;
  ciphertext : string;
  iv : string;
  tag : string;
}.

Record ClaimedSpawn := mkClaimedSpawn {
  prevTile : Tile;
  spawnTile : Tile;
}.

Record ClaimedMove := mkClaimedMove {
  uFrom : Tile;
  uTo : Tile;
  blockSubmitted : Z;
  uFromEnc : EncryptedTile;
  uToEnc : EncryptedTile;
}.

(** [currentBlockHeight] is undefined until the first block event.
    [encryptions] counts the calls of the cipher (see [encryptTile]). *)
Record State := mkState {
  inRecoveryMode : bool;
  b : Board;
  cityId : Z;
  idToAddress : gmap string string;
  addressToId : gmap string string;
  claimedMoves : gmap string ClaimedMove;
  claimedSpawns : gmap string ClaimedSpawn;
  currentBlockHeight : option Z;
  playerLatestBlock : gmap string Z;
  socketIdDA : option string;
  queuedTilesDA : list EncryptedTile;
  recoveryModeIndex : Z;
  encryptions : nat;
}.

Definition set_inRecoveryMode (v : bool) (s : State) : State :=
  mkState v (b s) (cityId s) (idToAddress s) (addressToId s) (claimedMoves s)
    (claimedSpawns s) (currentBlockHeight s) (playerLatestBlock s)
    (socketIdDA s) (queuedTilesDA s) (recoveryModeIndex s) (encryptions s).
Definition set_b (v : Board) (s : State) : State :=
  mkState (inRecoveryMode s) v (cityId s) (idToAddress s) (addressToId s)
    (claimedMoves s) (claimedSpawns s) (currentBlockHeight s)
    (playerLatestBlock s) (socketIdDA s) (queuedTilesDA s)
    (recoveryModeIndex s) (encryptions s).
Definition set_cityId (v : Z) (s : State) : State :=
  mkState (inRecoveryMode s) (b s) v (idToAddress s) (addressToId s)
    (claimedMoves s) (claimedSpawns s) (currentBlockHeight s)
    (playerLatestBlock s) (socketIdDA s) (queuedTilesDA s)
    (recoveryModeIndex s) (encryptions s).
Definition set_idToAddress (v : gmap string string) (s : State) : State :=
  mkState (inRecoveryMode s) (b s) (cityId s) v (addressToId s)
    (claimedMoves s) (claimedSpawns s) (currentBlockHeight s)
    (playerLatestBlock s) (socketIdDA s) (queuedTilesDA s)
    (recoveryModeIndex s) (encryptions s).
Definition set_addressToId (v : gmap string string) (s : State) : State :=
  mkState (inRecoveryMode s) (b s) (cityId s) (idToAddress s) v
    (claimedMoves s) (claimedSpawns s) (currentBlockHeight s)
    (playerLatestBlock s) (socketIdDA s) (queuedTilesDA s)
    (recoveryModeIndex s) (encryptions s).
Definition set_claimedMoves (v : gmap string ClaimedMove) (s : State) : State :=
  mkState (inRecoveryMode s) (b s) (cityId s) (idToAddress s) (addressToId s)
    v (claimedSpawns s) (currentBlockHeight s) (playerLatestBlock s)
    (socketIdDA s) (queuedTilesDA s) (recoveryModeIndex s) (encryptions s).
Definition set_claimedSpawns (v : gmap string ClaimedSpawn) (s : State) : State :=
  mkState (inRecoveryMode s) (b s) (cityId s) (idToAddress s) (addressToId s)
    (claimedMoves s) v (currentBlockHeight s) (playerLatestBlock s)
    (socketIdDA s) (queuedTilesDA s) (recoveryModeIndex s) (encryptions s).
Definition set_currentBlockHeight (v : option Z) (s : State) : State :=
  mkState (inRecoveryMode s) (b s) (cityId s) (idToAddress s) (addressToId s)
    (claimedMoves s) (claimedSpawns s) v (playerLatestBlock s)
    (socketIdDA s) (queuedTilesDA s) (recoveryModeIndex s) (encryptions s).
Definition set_playerLatestBlock (v : gmap string Z) (s : State) : State :=
  mkState (inRecoveryMode s) (b s) (cityId s) (idToAddress s) (addressToId s)
    (claimedMoves s) (claimedSpawns s) (currentBlockHeight s) v
    (socketIdDA s) (queuedTilesDA s) (recoveryModeIndex s) (encryptions s).
Definition set_socketIdDA (v : option string) (s : State) : State :=
  mkState (inRecoveryMode s) (b s) (cityId s) (idToAddress s) (addressToId s)
    (claimedMoves s) (claimedSpawns s) (currentBlockHeight s)
    (playerLatestBlock s) v (queuedTilesDA s) (recoveryModeIndex s)
    (encryptions s).
Definition set_queuedTilesDA (v : list EncryptedTile) (s : State) : State :=
  mkState (inRecoveryMode s) (b s) (cityId s) (idToAddress s) (addressToId s)
    (claimedMoves s) (claimedSpawns s) (currentBlockHeight s)
    (playerLatestBlock s) (socketIdDA s) v (recoveryModeIndex s)
    (encryptions s).
Definition set_recoveryModeIndex (v : Z) (s : State) : State :=
  mkState (inRecoveryMode s) (b s) (cityId s) (idToAddress s) (addressToId s)
    (claimedMoves s) (claimedSpawns s) (currentBlockHeight s)
    (playerLatestBlock s) (socketIdDA s) (queuedTilesDA s) v (encryptions s).
Definition set_encryptions (v : nat) (s : State) : State :=
  mkState (inRecoveryMode s) (b s) (cityId s) (idToAddress s) (addressToId s)
    (claimedMoves s) (claimedSpawns s) (currentBlockHeight s)
    (playerLatestBlock s) (socketIdDA s) (queuedTilesDA s)
    (recoveryModeIndex s) v.

(** ** Effects of a handler *)

Inductive Msg :=
| trySpawn
| loginResponse (locs : list string)
| spawnSignatureResponse (sig : string) (prev spawn : TileJSON)
| moveSignatureResponse (sig : string) (height : Z)
| decryptResponse (t : TileJSON)
| updateDisplay (locs : list string)
| handshakeDAResponse (recovery : bool)
| sendRecoveredTile (index : Z)
| saveToDatabase (enc : EncryptedTile).

Inductive LogLine :=
| AddressAlreadyLoggedOn
| MalignantSignature (sigStr : string)
| IncorrectAddressOrBadSignature
| AlreadyCommittedToSpawn
| MalignantSecret (sigStr : string)
| EnclaveSigOrSecretInconsistent
| Disconnected (sid : string)
| SpawnedWithoutSignature (player : string)
| MoveFinalizedWithoutSignature (hUFrom hUTo : string)
| RecoveredTile (index : Z) (success : bool)
| RecoveryFinished.

(** [Emit (Some id) m] is [socket.emit] on the socket [id] or
    [io.to(id).emit]; [Emit None m] is [io.to(undefined).emit], which
    reaches no socket.  [ConsoleLog] and [ConsoleError] are the two
    streams of the console. *)
Inductive Effect :=
| SocketDisconnect (sid : string)
| Emit (to : option string) (m : Msg)
| ConsoleLog (l : LogLine)
| ConsoleError (l : LogLine).

(** ** A state and output monad for the handlers *)

Definition M (A : Type) : Type := State → A * State * list Effect.

Definition ret {A} (a : A) : M A := λ s, (a, s, []).
Definition bind {A B} (m : M A) (k : A → M B) : M B :=
  λ s, match m s with
       | (a, s1, out1) =>
           match k a s1 with
           | (b, s2, out2) => (b, s2, out1 ++ out2)
           end
       end.
Definition get : M State := λ s, (s, s, []).
Definition modify (f : State → State) : M unit := λ s, (tt, f s, []).
Definition effect (e : Effect) : M unit := λ s, (tt, s, [e]).

Definition exec {A} (m : M A) (s : State) : State := (m s).1.2.
Definition effects {A} (m : M A) (s : State) : list Effect := (m s).2.

Notation "'let*' x := m 'in' k" := (bind m (λ x, k))
  (at level 10, x name, m at level 100, k at level 200).

Definition emit (to : option string) (m : Msg) : M unit := effect (Emit to m).
Definition console_log (l : LogLine) : M unit := effect (ConsoleLog l).
Definition console_error (l : LogLine) : M unit := effect (ConsoleError l).

(** A [Set<string>] keeps its elements in the order they were first
    added; [Array.from] lists them in that order. *)
Definition set_add (x : string) (xs : list string) : list string :=
  if decide (x ∈ xs) then xs else xs ++ [x].

(** ** The closing of a socket *)

(** [disconnect], the listener of [disconnecting]: release the binding
    of a closing socket, and the place of the DA node if the socket held
    it. *)
Definition disconnect (sid : string) : M unit :=
  let* s := get in
  let* _ :=
    match idToAddress s !! sid with
    | Some address =>
        if truthy address then
          let* _ := modify (λ s, set_addressToId (delete address (addressToId s)) s) in
          modify (λ s, set_idToAddress (delete sid (idToAddress s)) s)
        else ret tt
    | None => ret tt
    end in
  let* s := get in
  let* _ :=
    if bool_decide (socketIdDA s = Some sid)
    then modify (set_socketIdDA None) else ret tt in
  console_log (Disconnected sid).

(** [socket.disconnect()]: the server closes the socket.  socket.io
    emits [disconnecting] on the socket within the call, so that the
    listener above runs before the handler goes on. *)
Definition socket_disconnect (sid : string) : M unit :=
  let* _ := effect (SocketDisconnect sid) in
  disconnect sid.

(** ** The DA backup queue *)

(** [enqueueTile]: encrypt the tile and append the envelope to the queue. *)
Definition enqueueTile (tile : Tile) : M EncryptedTile :=
  let* s := get in
  let e := encryptTile (encryptions s) tile in
  let enc := mkEncryptedTile (symbol (owner tile)) (address (owner tile))
               e.1.1 e.1.2 e.2 in
  let* _ := modify (λ s, set_encryptions (S (encryptions s))
                           (set_queuedTilesDA (queuedTilesDA s ++ [enc]) s)) in
  ret enc.

(** [dequeueTileIfDAConnected]: hand the head of the queue to the DA node,
    if one is attached and the queue is not empty. *)
Definition dequeueTileIfDAConnected : M unit :=
  let* s := get in
  match socketIdDA s, queuedTilesDA s with
  | Some da, encTile :: rest =>
      let* _ := modify (set_queuedTilesDA rest) in
      emit (Some da) (saveToDatabase encTile)
  | _, _ => ret tt
  end.

(** ** Session handlers *)

(** The locations a spawned player sees at login: the neighbourhoods of
    the tiles of the player's cities. *)
Definition visibleTiles_of (bd : Board) (address : string) : list string :=
  foldl (λ acc cid,
    foldl (λ acc locString,
      match JSON_parse locString with
      | Some tl =>
          foldl (λ acc l, set_add (JSON_stringify l) acc) acc
                (getNearbyLocations bd tl)
      | None => acc
      end) acc (default [] (cityTiles bd cid)))
    [] (default [] (playerCities bd address)).

Definition login (sid address sigStr : string) : M unit :=
  let* s := get in
  if inRecoveryMode s then socket_disconnect sid
  else if bool_decide (is_Some (addressToId s !! address)) then
    let* _ := console_log AddressAlreadyLoggedOn in
    socket_disconnect sid
  else
    match verifyMessage sid sigStr with
    | None =>
        let* _ := console_log (MalignantSignature sigStr) in
        socket_disconnect sid
    | Some sender =>
        if negb (truthy sender) || negb (String.eqb address sender) then
          let* _ := console_log IncorrectAddressOrBadSignature in
          socket_disconnect sid
        else
          let* _ := modify (λ s, set_idToAddress (<[sid := address]> (idToAddress s)) s) in
          let* _ := modify (λ s, set_addressToId (<[address := sid]> (addressToId s)) s) in
          let* s := get in
          if isSpawned (b s) (mkPlayer EmptyString address) then
            let* _ := modify (λ s, set_idToAddress (<[sid := address]> (idToAddress s)) s) in
            let* _ := modify (λ s, set_addressToId (<[address := sid]> (addressToId s)) s) in
            let* _ := modify (λ s, set_playerLatestBlock
                                     (<[address := 0]> (playerLatestBlock s)) s) in
            emit (Some sid) (loginResponse (visibleTiles_of (b s) address))
          else emit (Some sid) trySpawn
    end.

(** The spawn location drawn from the player's secret and the hash of the
    block of the commitment. *)
Definition spawnLocation (playerChallenge commitBlockHash size : Z) : Location :=
  let rawRow := hd 0 (poseidonPerm [0; playerChallenge; commitBlockHash; 0]) in
  let rawCol := hd 0 (poseidonPerm [0; playerChallenge; commitBlockHash; 1]) in
  mkLocation (Z.rem rawRow size) (Z.rem rawCol size).

(** [getSpawnSignature].  The Poseidon permutation reads the secret as a
    number, be it passed as text or as a BigInt.  The remainder by a board
    of no rows throws; the handler then ends where it stands. *)
Definition getSpawnSignature (ch : Chain)
    (sid symbol address sigStr playerSecret : string) : M unit :=
  let* s := get in
  match idToAddress s !! sid with
  | Some sender =>
    if inRecoveryMode s || negb (truthy sender) then socket_disconnect sid
    else if bool_decide (is_Some (claimedSpawns s !! sender)) then
      let* _ := console_log AlreadyCommittedToSpawn in
      socket_disconnect sid
    else if bool_decide (is_Some (claimedSpawns s !! address)) then
      let* _ := console_log AlreadyCommittedToSpawn in
      socket_disconnect sid
    else
      match BigInt playerSecret with
      | None =>
          let* _ := console_log (MalignantSecret sigStr) in
          socket_disconnect sid
      | Some playerChallenge =>
          let latestBlockCommited := getSpawnCommitment ch address in
          let hSecret := getSpawnChallengeHash ch address in
          if (latestBlockCommited =? 0)
             || negb (hSecret =? hd 0 (poseidonPerm [0; playerChallenge])) then
            let* _ := console_log EnclaveSigOrSecretInconsistent in
            socket_disconnect sid
          else
            let* _ := modify (λ s, set_idToAddress (<[sid := sender]> (idToAddress s)) s) in
            let* _ := modify (λ s, set_addressToId (<[sender := sid]> (addressToId s)) s) in
            let commitBlockHash := getBlockHash ch latestBlockCommited in
            if t_length (b s) =? 0 then ret tt
            else
              let l := spawnLocation playerChallenge commitBlockHash
                         (t_length (b s)) in
              let prevTile := getTile (b s) l in
              let hPrevTile := hash prevTile in
              let spawnTile := Tile_spawn (mkPlayer symbol address) l
                                 START_RESOURCES (cityId s) in
              let* _ := modify (λ s, set_cityId (cityId s + 1) s) in
              let hSpawnTile := hash spawnTile in
              let* _ := modify (λ s, set_claimedSpawns
                          (<[address := mkClaimedSpawn prevTile spawnTile]>
                             (claimedSpawns s)) s) in
              let digest := solidityKeccak256 latestBlockCommited hPrevTile
                              hSpawnTile in
              let sig := signMessage digest in
              emit (Some sid)
                (spawnSignatureResponse sig (toJSON prevTile) (toJSON spawnTile))
      end
  | None => socket_disconnect sid
  end.

(** [getMoveSignature].  A comparison with the undefined block height is
    false. *)
Definition getMoveSignature (sid : string) (uFrom uTo : TileJSON) : M unit :=
  let* s := get in
  match idToAddress s !! sid with
  | Some sender =>
    if inRecoveryMode s || negb (truthy sender) then socket_disconnect sid
    else
      match playerLatestBlock s !! sender, currentBlockHeight s with
      | Some latestBlock, Some height =>
        if (latestBlock <? height) && String.eqb (json_address uFrom) sender then
          let uFromAsTile := Tile_fromJSON uFrom in
          let hUFrom := hash uFromAsTile in
          let uToAsTile := Tile_fromJSON uTo in
          let hUTo := hash uToAsTile in
          let* uFromEnc := enqueueTile uFromAsTile in
          let* uToEnc := enqueueTile uToAsTile in
          let* _ := modify (λ s, set_claimedMoves
                      (<[String.append hUFrom hUTo :=
                           mkClaimedMove uFromAsTile uToAsTile height
                             uFromEnc uToEnc]> (claimedMoves s)) s) in
          let digest := solidityKeccak256 height hUFrom hUTo in
          let sig := signMessage digest in
          let* _ := emit (Some sid) (moveSignatureResponse sig height) in
          let* _ := modify (λ s, set_playerLatestBlock
                                   (<[sender := height]> (playerLatestBlock s)) s) in
          dequeueTileIfDAConnected
        else socket_disconnect sid
      | _, _ => socket_disconnect sid
      end
  | None => socket_disconnect sid
  end.

(** [decrypt]: the true tile where the requesting player has no fog, the
    mystery tile elsewhere. *)
Definition decrypt (sid : string) (l : Location) : M unit :=
  let* s := get in
  match idToAddress s !! sid with
  | Some a =>
    if inRecoveryMode s then socket_disconnect sid
    else
      let requester := mkPlayer EmptyString a in
      if noFog (b s) l requester then
        emit (Some sid) (decryptResponse (toJSON (getTile (b s) l)))
      else emit (Some sid) (decryptResponse (toJSON (Tile_mystery l)))
  | None => socket_disconnect sid
  end.

(** ** Contract events *)

(** [onSpawnAttempt]: a spawn attempt was resolved on the chain. *)
Definition onSpawnAttempt (player : string) (success : bool) : M unit :=
  let* s := get in
  if inRecoveryMode s then ret tt
  else
    let spawn := claimedSpawns s !! player in
    let* _ := modify (λ s, set_claimedSpawns (delete player (claimedSpawns s)) s) in
    let socketId := addressToId s !! player in
    match success, spawn, socketId with
    | true, Some spawn, Some sid =>
      if truthy sid then
        let* _ := modify (λ s, set_b (setTile (b s) (spawnTile spawn)) s) in
        let* _ := modify (λ s, set_playerLatestBlock
                                 (<[player := 0]> (playerLatestBlock s)) s) in
        let* _ := enqueueTile (spawnTile spawn) in
        let* _ := dequeueTileIfDAConnected in
        let* s := get in
        let visibleLocs := map JSON_stringify
              (getNearbyLocations (b s) (loc (spawnTile spawn))) in
        emit (Some sid) (loginResponse visibleLocs)
      else ret tt
    | true, None, Some sid =>
      if truthy sid then console_error (SpawnedWithoutSignature player)
      else ret tt
    | true, _, None => ret tt
    | false, _, _ => emit socketId trySpawn
    end.

(** The locations [onMoveFinalize] collects in [updatedLocs], read on the
    board before the move is applied. *)
Definition updatedLocs_of (bd : Board) (move : ClaimedMove) : list Location :=
  let tTo := getTile bd (loc (uTo move)) in
  let newOwner := address (owner (uTo move)) in
  let prevOwner := address (owner tTo) in
  let ownershipChanged := negb (String.eqb prevOwner newOwner) in
  loc (uFrom move) ::
  (if ownershipChanged && isCapital tTo then
     flat_map (λ cid, omap JSON_parse (default [] (cityTiles bd cid)))
              (default [] (playerCities bd prevOwner))
   else if ownershipChanged && isCityCenter tTo then
     omap JSON_parse (default [] (cityTiles bd (Tile_cityId tTo)))
   else [loc (uTo move)]).

(** [alertPlayerMap] is a [Map<string, Set<string>>]: its entries stay in
    the order of their first insertion. *)
Definition amap_has (k : string) (m : list (string * list string)) : bool :=
  bool_decide (k ∈ m.*1).

Definition amap_init (k : string) (m : list (string * list string))
    : list (string * list string) :=
  if amap_has k m then m else m ++ [(k, [])].

(** [alertPlayerMap.get(k)?.add(x)] *)
Fixpoint amap_add (k x : string) (m : list (string * list string))
    : list (string * list string) :=
  match m with
  | [] => []
  | (k', xs) :: m' =>
      if decide (k' = k) then (k', set_add x xs) :: m'
      else (k', xs) :: amap_add k x m'
  end.

Definition alert_visit (bd : Board) (newOwner prevOwner : string)
    (loc : Location) (m : list (string * list string)) (l : Location)
    : list (string * list string) :=
  let locString := JSON_stringify loc in
  let tileOwner := address (owner (getTile bd l)) in
  let lString := JSON_stringify l in
  amap_add prevOwner lString
    (amap_add newOwner lString
       (amap_add tileOwner locString (amap_init tileOwner m))).

Definition alertPlayerMap_of (bd : Board) (newOwner prevOwner : string)
    (updatedLocs : list Location) : list (string * list string) :=
  foldl (λ m loc, foldl (alert_visit bd newOwner prevOwner loc) m
                        (getNearbyLocations bd loc))
        [] updatedLocs.

Fixpoint for_each {A} (f : A → M unit) (xs : list A) : M unit :=
  match xs with
  | [] => ret tt
  | x :: xs' => let* _ := f x in for_each f xs'
  end.

(** [alertPlayers]: tell the players around the updated locations which
    tiles to decrypt again. *)
Definition alertPlayers (newOwner prevOwner : string)
    (updatedLocs : list Location) : M unit :=
  let* s := get in
  let alertPlayerMap := alertPlayerMap_of (b s) newOwner prevOwner updatedLocs in
  for_each (λ e : string * list string,
      match addressToId s !! e.1 with
      | Some socketId =>
          if truthy socketId then emit (Some socketId) (updateDisplay e.2)
          else ret tt
      | None => ret tt
      end) alertPlayerMap.

(** [onMoveFinalize]: a move was accepted on the chain. *)
Definition onMoveFinalize (hUFrom hUTo : string) : M unit :=
  let* s := get in
  if inRecoveryMode s then ret tt
  else
    let moveHash := String.append hUFrom hUTo in
    match claimedMoves s !! moveHash with
    | Some move =>
        let* _ := modify (λ s, set_claimedMoves (delete moveHash (claimedMoves s)) s) in
        let tTo := getTile (b s) (loc (uTo move)) in
        let newOwner := address (owner (uTo move)) in
        let prevOwner := address (owner tTo) in
        let updatedLocs := updatedLocs_of (b s) move in
        let* _ := modify (λ s, set_b (setTile (b s) (uFrom move)) s) in
        let* _ := modify (λ s, set_b (setTile (b s) (uTo move)) s) in
        let* _ := enqueueTile (uFrom move) in
        let* _ := enqueueTile (uTo move) in
        let* _ := dequeueTileIfDAConnected in
        alertPlayers newOwner prevOwner updatedLocs
    | None => console_error (MoveFinalizedWithoutSignature hUFrom hUTo)
    end.

(** [upkeepClaimedMoves]: drop the claimed moves that stayed unresolved for
    more than [CLAIMED_MOVE_LIFE_SPAN] blocks. *)
Definition upkeepClaimedMoves : M unit :=
  let* s := get in
  match currentBlockHeight s with
  | Some height =>
      modify (set_claimedMoves
        (filter (λ hc : string * ClaimedMove,
                   ¬ (height > blockSubmitted hc.2 + CLAIMED_MOVE_LIFE_SPAN))
                (claimedMoves s)))
  | None => ret tt
  end.

(** The handler of new blocks. *)
Definition onBlock (n : Z) : M unit :=
  let* _ := modify (set_currentBlockHeight (Some n)) in
  upkeepClaimedMoves.

(** ** The DA node *)

Definition handshakeDA (sid : string) : M unit :=
  let* s := get in
  match socketIdDA s with
  | None =>
      let* _ := modify (set_socketIdDA (Some sid)) in
      emit (Some sid) (handshakeDAResponse (inRecoveryMode s))
  | Some _ => socket_disconnect sid
  end.

Definition sendRecoveredTileResponse (ch : Chain) (sid : string)
    (encTile : EncryptedTile) : M unit :=
  let* s := get in
  match socketIdDA s with
  | Some da =>
    if negb (String.eqb sid da) then socket_disconnect sid
    else if negb (truthy (ciphertext encTile)) || negb (truthy (iv encTile))
            || negb (truthy (tag encTile)) then ret tt
    else
      let tile := decryptTile (ciphertext encTile) (iv encTile) (tag encTile) in
      let hashHistory := NewTile_hashes ch in
      let* _ :=
        match tile with
        | Some tile =>
          if bool_decide (hash tile ∈ hashHistory) then
            let* _ :=
              if negb (isSpawned (b s) (owner tile)) then
                let* _ := modify (λ s, set_b (Board_spawn (b s) (loc tile)
                            (owner tile) START_RESOURCES (Tile_cityId tile)) s) in
                modify (λ s, set_cityId (cityId s + 1) s)
              else modify (λ s, set_b (setTile (b s) tile) s) in
            console_log (RecoveredTile (recoveryModeIndex s) true)
          else console_error (RecoveredTile (recoveryModeIndex s) false)
        | None => console_error (RecoveredTile (recoveryModeIndex s) false)
        end in
      let* _ := modify (λ s, set_recoveryModeIndex (recoveryModeIndex s + 1) s) in
      let* s := get in
      emit (Some da) (sendRecoveredTile (recoveryModeIndex s))
  | None => socket_disconnect sid
  end.

Definition saveToDatabaseResponse (sid : string) : M unit :=
  let* s := get in
  match socketIdDA s with
  | Some da =>
      if negb (String.eqb sid da) then socket_disconnect sid
      else dequeueTileIfDAConnected
  | None => socket_disconnect sid
  end.

Definition finishRecovery (sid : string) : M unit :=
  let* s := get in
  match socketIdDA s with
  | Some da =>
      if negb (String.eqb sid da) then socket_disconnect sid
      else
        let* _ := console_log RecoveryFinished in
        modify (set_inRecoveryMode false)
  | None => socket_disconnect sid
  end.

(** ** The server as a transition system *)

(** What reaches the server: the messages of a socket (named by its id),
    the closing of a socket, the two contract events and new blocks. *)
Inductive Event :=
| EvLogin (sid address sigStr : string)
| EvGetSpawnSignature (ch : Chain) (sid symbol address sigStr playerSecret : string)
| EvHandshakeDA (sid : string)
| EvGetMoveSignature (sid : string) (uFrom uTo : TileJSON)
| EvDecrypt (sid : string) (l : Location)
| EvSendRecoveredTileResponse (ch : Chain) (sid : string) (encTile : EncryptedTile)
| EvRecoveryFinished (sid : string)
| EvSaveToDatabaseResponse (sid : string)
| EvDisconnecting (sid : string)
| EvNewSpawnAttempt (player : string) (success : bool)
| EvNewMove (hUFrom hUTo : string)
| EvBlock (n : Z).

Definition handle (e : Event) : M unit :=
  match e with
  | EvLogin sid address sigStr => login sid address sigStr
  | EvGetSpawnSignature ch sid symbol address sigStr playerSecret =>
      getSpawnSignature ch sid symbol address sigStr playerSecret
  | EvHandshakeDA sid => handshakeDA sid
  | EvGetMoveSignature sid uFrom uTo => getMoveSignature sid uFrom uTo
  | EvDecrypt sid l => decrypt sid l
  | EvSendRecoveredTileResponse ch sid encTile =>
      sendRecoveredTileResponse ch sid encTile
  | EvRecoveryFinished sid => finishRecovery sid
  | EvSaveToDatabaseResponse sid => saveToDatabaseResponse sid
  | EvDisconnecting sid => disconnect sid
  | EvNewSpawnAttempt player success => onSpawnAttempt player success
  | EvNewMove hUFrom hUTo => onMoveFinalize hUFrom hUTo
  | EvBlock n => onBlock n
  end.

(** The state once the server listens: the board is seeded, the queue
    holds the backup of the seeded tiles (none in recovery mode), and
    every table is empty. *)
Definition initial (s : State) : Prop :=
  idToAddress s = ∅ ∧ addressToId s = ∅ ∧ claimedMoves s = ∅ ∧
  claimedSpawns s = ∅ ∧ currentBlockHeight s = None ∧
  playerLatestBlock s = ∅ ∧ socketIdDA s = None ∧ recoveryModeIndex s = 0 ∧
  cityId s = 1 ∧ (inRecoveryMode s = true → queuedTilesDA s = []).

Definition run (es : list Event) (s : State) : State :=
  foldl (λ s e, exec (handle e) s) s es.

Inductive reachable : State → Prop :=
| reachable_initial s : initial s → reachable s
| reachable_step s e : reachable s → reachable (exec (handle e) s).

End Enclave.

(** Equality of claims, messages and effects is decidable where that of
    tiles is. *)
Section Decidable.
Context `{G : GameLib} `{!EqDecision Tile} `{!EqDecision TileJSON}.

Global Instance EncryptedTile_eq_dec : EqDecision EncryptedTile.
Proof. solve_decision. Defined.
Global Instance ClaimedSpawn_eq_dec : EqDecision ClaimedSpawn.
Proof. solve_decision. Defined.
Global Instance ClaimedMove_eq_dec : EqDecision ClaimedMove.
Proof. solve_decision. Defined.
Global Instance Msg_eq_dec : EqDecision Msg.
Proof. solve_decision. Defined.
Global Instance LogLine_eq_dec : EqDecision LogLine.
Proof. solve_decision. Defined.
Global Instance Effect_eq_dec : EqDecision Effect.
Proof. solve_decision. Defined.

End Decidable.


(** ** A game library for running the handlers

    The classes [Tile] and [Board] are not part of the server; the
    definitions of this module give them a body, so that the handlers can
    be run on concrete boards. *)
Module SpecGame.

(** Modelled from the spec: the terrain of a tile, with the two kinds of
    city tile (city centre and capital) of the missing class [Tile]. *)
Inductive Terrain := Bare | CityCenter | Capital | Water | Hill.

Global Instance Terrain_eq_dec : EqDecision Terrain.
Proof. solve_decision. Defined.

(** Modelled from the spec: the missing class [Tile], a record of
    location, owner (or none), resource count, city id and terrain. *)
Record tile := mkTile {
  t_owner : option Player;
  t_loc : Location;
  t_resources : Z;
  t_cityId : Z;
  t_terrain : Terrain;
}.

Global Instance tile_eq_dec : EqDecision tile.
Proof. solve_decision. Defined.

(** The player object standing for no owner. *)
Definition nobody : Player := mkPlayer "_" EmptyString.

Definition tile_owner (x : tile) : Player := default nobody (t_owner x).

(** Modelled from the spec: [Tile.mystery] of the missing class [Tile],
    the sentinel that carries only its location. *)
Definition mystery (l : Location) : tile := mkTile None l 0 0 Bare.

(** Modelled from the spec: [Tile.spawn] of the missing class [Tile], the
    capital a player spawns on. *)
Definition spawn (p : Player) (l : Location) (resources cid : Z) : tile :=
  mkTile (Some p) l resources cid Capital.

(** Locations are written as the two coordinates in decimal, separated by
    a comma. *)
Definition string_of_Z (z : Z) : string := NilEmpty.string_of_int (Z.to_int z).
Definition Z_of_string (s : string) : option Z :=
  Z.of_int <$> NilEmpty.int_of_string s.

Definition stringify (l : Location) : string :=
  String.append (string_of_Z (r l)) (String.append "," (string_of_Z (c l))).

Fixpoint split_comma (s : string) : option (string * string) :=
  match s with
  | EmptyString => None
  | String a s' =>
      if Ascii.eqb a ","%char then Some (EmptyString, s')
      else p ← split_comma s'; Some (String a p.1, p.2)
  end.

Definition parse (s : string) : option Location :=
  p ← split_comma s;
  row ← Z_of_string p.1;
  col ← Z_of_string p.2;
  Some (mkLocation row col).

(** Modelled from the spec: the content hash of the missing class [Tile],
    here the tile written out field by field. *)
Definition tile_hash (x : tile) : string :=
  String.append (symbol (tile_owner x))
    (String.append ":" (String.append (address (tile_owner x))
      (String.append "@" (String.append (stringify (t_loc x))
        (String.append "#" (String.append (string_of_Z (t_resources x))
          (String.append "/" (string_of_Z (t_cityId x))))))))).

(** Modelled from the spec: the missing class [Board], a grid of tiles
    ([b.t], a list of rows); the two indices are derived from the grid. *)
Record board := mkBoard { t : list (list tile) }.

Definition inBounds (bd : board) (l : Location) : bool :=
  (0 <=? r l) && (0 <=? c l) &&
  match t bd !! Z.to_nat (r l) with
  | Some row => c l <? Z.of_nat (length row)
  | None => false
  end.

Definition board_getTile (bd : board) (l : Location) : tile :=
  if inBounds bd l then
    default (mystery l) (row ← t bd !! Z.to_nat (r l); row !! Z.to_nat (c l))
  else mystery l.

Definition board_setTile (bd : board) (x : tile) : board :=
  if inBounds bd (t_loc x) then
    mkBoard (alter (λ row, <[Z.to_nat (c (t_loc x)) := x]> row)
                   (Z.to_nat (r (t_loc x))) (t bd))
  else bd.

(** Modelled from the spec: [getNearbyLocations] of the missing class
    [Board], the neighbourhood of radius one (the 3x3 region around the
    location) clipped to the board. *)
Definition nearby (bd : board) (l : Location) : list Location :=
  filter (λ l', inBounds bd l' = true)
    (dr ← [-1; 0; 1]; dc ← [-1; 0; 1]; [mkLocation (r l + dr) (c l + dc)]).

Definition owns (bd : board) (a : string) (l : Location) : bool :=
  match t_owner (board_getTile bd l) with
  | Some p => String.eqb (address p) a
  | None => false
  end.

(** Modelled from the spec: [noFog] of the missing class [Board]: the
    player owns the tile at the location or a tile of its neighbourhood. *)
Definition board_noFog (bd : board) (l : Location) (p : Player) : bool :=
  owns bd (address p) l || existsb (owns bd (address p)) (nearby bd l).

(** Modelled from the spec: visibility as the spec words it, the player
    owns the tile at the location or a tile of its neighbourhood. *)
Definition owned_by (bd : board) (a : string) (l : Location) : Prop :=
  ∃ p, t_owner (board_getTile bd l) = Some p ∧ address p = a.

Definition visible (bd : board) (l : Location) (a : string) : Prop :=
  owned_by bd a l ∨ ∃ l', l' ∈ nearby bd l ∧ owned_by bd a l'.

Definition all_tiles (bd : board) : list tile := concat (t bd).

(** Modelled from the spec: [isSpawned] of the missing class [Board]: a
    player is spawned when the board holds a capital of theirs. *)
Definition board_isSpawned (bd : board) (p : Player) : bool :=
  existsb (λ x, bool_decide (t_terrain x = Capital) &&
                match t_owner x with
                | Some q => String.eqb (address q) (address p)
                | None => false
                end) (all_tiles bd).

Definition nonempty {A} (xs : list A) : option (list A) :=
  match xs with [] => None | _ => Some xs end.

(** Modelled from the spec: the index [cityTiles] of the missing class
    [Board], from a city id to the locations of the city's tiles.  The id
    0 marks a tile of no city. *)
Definition board_cityTiles (bd : board) (cid : Z) : option (list string) :=
  if cid =? 0 then None
  else nonempty (map (λ x, stringify (t_loc x))
                     (filter (λ x, t_cityId x = cid) (all_tiles bd))).

(** Modelled from the spec: the index [playerCities] of the missing class
    [Board], from an address to the ids of the player's cities. *)
Definition board_playerCities (bd : board) (a : string) : option (list Z) :=
  nonempty (remove_dups (map t_cityId
    (filter (λ x, t_cityId x ≠ 0 ∧ address <$> t_owner x = Some a)
            (all_tiles bd)))).

(** Modelled from the spec: [spawn] of the missing class [Board], which
    places the capital of a player. *)
Definition board_spawn (bd : board) (l : Location) (p : Player)
    (resources cid : Z) : board :=
  board_setTile bd (spawn p l resources cid).

(** On the wire a tile is the record itself. *)
#[export] Instance game : GameLib := {|
  Tile := tile;
  Board := board;
  TileJSON := tile;
  owner := tile_owner;
  loc := t_loc;
  Tile_cityId := t_cityId;
  hash := tile_hash;
  isCapital := λ x, bool_decide (t_terrain x = Capital);
  isCityCenter := λ x, bool_decide (t_terrain x = CityCenter);
  toJSON := λ x, x;
  Tile_fromJSON := λ x, x;
  Tile_mystery := mystery;
  Tile_spawn := spawn;
  json_address := λ x, address (tile_owner x);
  t_length := λ bd, Z.of_nat (length (t bd));
  getTile := board_getTile;
  setTile := board_setTile;
  Board_spawn := board_spawn;
  getNearbyLocations := nearby;
  noFog := board_noFog;
  isSpawned := board_isSpawned;
  playerCities := board_playerCities;
  cityTiles := board_cityTiles;
  JSON_stringify := stringify;
  JSON_parse := parse;
|}.

Global Instance board_eq_dec : EqDecision board.
Proof. solve_decision. Defined.
Global Instance game_Tile_eq_dec : EqDecision (@Tile game) := tile_eq_dec.
Global Instance game_TileJSON_eq_dec : EqDecision (@TileJSON game) :=
  tile_eq_dec.
Global Instance game_Board_eq_dec : EqDecision (@Board game) := board_eq_dec.

(** Stand-ins for the environment, for running examples: a signature is
    the text of the address that signed, the text [malformed] does not
    parse, and the other primitives write their arguments out. *)
#[export] Instance externals : Externals := {|
  START_RESOURCES := 10;
  CLAIMED_MOVE_LIFE_SPAN := 5;
  verifyMessage := λ _ sigStr,
    if String.eqb sigStr "malformed" then None else Some sigStr;
  BigInt := Z_of_string;
  poseidonPerm := λ xs, [foldl (λ acc x, acc * 31 + x) 7 xs];
  solidityKeccak256 := λ h x y,
    String.append (string_of_Z h) (String.append x y);
  signMessage := λ d, String.append "signed:" d;
  encryptTile := λ n x, (String.append "enc:" (tile_hash x),
                         string_of_Z (Z.of_nat n), "tag");
  decryptTile := λ _ _ _, None;
|}.

End SpecGame.


(** * Vocabulary of the properties *)

Section Vocabulary.
Context `{EX : Externals}.

(** While the enclave recovers it serves no session: nothing is bound
    and nothing is claimed. *)
Definition recovery_inv (s : State) : Prop :=
  inRecoveryMode s = true →
  idToAddress s = ∅ ∧ addressToId s = ∅ ∧
  claimedSpawns s = ∅ ∧ claimedMoves s = ∅.

(** The state the closing of a socket leaves: the binding of the socket
    released, and the DA slot emptied if the socket held it. *)
Definition disconnected_state (s : State) (sid : string) : State :=
  let s1 := match idToAddress s !! sid with
            | Some a =>
                if truthy a then
                  set_idToAddress (delete sid (idToAddress s))
                    (set_addressToId (delete a (addressToId s)) s)
                else s
            | None => s
            end in
  if bool_decide (socketIdDA s = Some sid) then set_socketIdDA None s1 else s1.

(** The envelopes a handler handed to the DA node. *)
Definition delivered (es : list Effect) : list EncryptedTile :=
  omap (λ e, match e with
             | Emit _ (saveToDatabase enc) => Some enc
             | _ => None
             end) es.

(** The envelope of a tile, as the [n]-th call of the cipher makes it. *)
Definition envelope (n : nat) (tile : Tile) : EncryptedTile :=
  let e := encryptTile n tile in
  mkEncryptedTile (symbol (owner tile)) (address (owner tile)) e.1.1 e.1.2 e.2.

(** What [alertPlayers] sends: one [updateDisplay] for every entry of
    the alert map whose player has a session, in the order of the map. *)
Definition alerts (s : State) (newOwner prevOwner : string)
    (updatedLocs : list Location) : list Effect :=
  flat_map (λ e : string * list string,
      match addressToId s !! e.1 with
      | Some socketId =>
          if truthy socketId then [Emit (Some socketId) (updateDisplay e.2)]
          else []
      | None => []
      end) (alertPlayerMap_of (b s) newOwner prevOwner updatedLocs).

(** The key of a move in [claimedMoves]. *)
Definition moveKey (uFrom uTo : Tile) : string :=
  String.append (hash uFrom) (hash uTo).

(** The guard of [getMoveSignature]: the socket is bound to the address
    [sender], the enclave is not recovering, the latest block in which
    [sender] proposed lies before the current block [height], and the
    tile moved from names [sender] as its address. *)
Definition proposal_ok (s : State) (sid : string) (uFrom : TileJSON)
    (sender : string) (height : Z) : Prop :=
  idToAddress s !! sid = Some sender ∧ sender ≠ EmptyString ∧
  inRecoveryMode s = false ∧ currentBlockHeight s = Some height ∧
  (∃ latestBlock, playerLatestBlock s !! sender = Some latestBlock ∧
                  latestBlock < height) ∧
  json_address uFrom = sender.

(** The state an accepted move proposal leaves before the queue is
    served: two envelopes queued, the claim stored under the key of the
    move, the proposal height recorded. *)
Definition proposed_state (s : State) (sender : string) (height : Z)
    (tF tT : Tile) : State :=
  let e1 := envelope (encryptions s) tF in
  let e2 := envelope (S (encryptions s)) tT in
  set_playerLatestBlock (<[sender := height]> (playerLatestBlock s))
    (set_claimedMoves
       (<[moveKey tF tT := mkClaimedMove tF tT height e1 e2]> (claimedMoves s))
       (set_encryptions (S (S (encryptions s)))
          (set_queuedTilesDA (queuedTilesDA s ++ [e1; e2]) s))).

(** The state a finalized move leaves before the queue is served: the
    claim retired, both tiles written to the board, two more envelopes
    queued. *)
Definition finalized_state (s : State) (moveHash : string)
    (move : ClaimedMove) : State :=
  set_encryptions (S (S (encryptions s)))
    (set_queuedTilesDA
       (queuedTilesDA s ++ [envelope (encryptions s) (uFrom move);
                            envelope (S (encryptions s)) (uTo move)])
       (set_b (setTile (setTile (b s) (uFrom move)) (uTo move))
          (set_claimedMoves (delete moveHash (claimedMoves s)) s))).

(** A move proposal is accepted when the handler answers it with a
    signature. *)
Definition move_accepted (s : State) (sid : string) (uFrom uTo : TileJSON)
    (height : Z) : Prop :=
  ∃ sig, Emit (Some sid) (moveSignatureResponse sig height)
           ∈ effects (getMoveSignature sid uFrom uTo) s.

(** The guards of [getSpawnSignature]: the socket is bound, the enclave
    is not recovering, neither the bound address nor the claimed one has
    a spawn claim, the secret parses as the number [secret], the chain
    holds a commitment of the address whose challenge hash is the hash of
    the secret, and the board has rows. *)
Definition spawn_request_ok (s : State) (ch : Chain)
    (sid address playerSecret sender : string) (secret : Z) : Prop :=
  idToAddress s !! sid = Some sender ∧ sender ≠ EmptyString ∧
  inRecoveryMode s = false ∧
  claimedSpawns s !! sender = None ∧ claimedSpawns s !! address = None ∧
  BigInt playerSecret = Some secret ∧
  getSpawnCommitment ch address ≠ 0 ∧
  getSpawnChallengeHash ch address = hd 0 (poseidonPerm [0; secret]) ∧
  t_length (b s) ≠ 0.

(** The entry of a player in an alert map. *)
Fixpoint amap_get (k : string) (m : list (string * list string))
    : option (list string) :=
  match m with
  | [] => None
  | (k', xs) :: m' => if decide (k' = k) then Some xs else amap_get k m'
  end.

(** A player is near a list of locations on a board when the player owns
    a tile in the neighbourhood of one of them. *)
Definition near (bd : Board) (locs : list Location) (pk : string) : Prop :=
  ∃ loc l, loc ∈ locs ∧ l ∈ getNearbyLocations bd loc ∧
           address (owner (getTile bd l)) = pk.

(** A computation moves along a relation on states when every run of
    it takes a state to a related one. *)
Definition steps (R : State → State → Prop) {A} (m : M A) : Prop :=
  ∀ s, R s (exec m s).

(** Recovery mode is never entered: a state that recovers comes from one
    that does. *)
Definition stays_live (s s' : State) : Prop :=
  inRecoveryMode s' = true → inRecoveryMode s = true.

(** The block events of the heights [h + 1], ..., [h + n]. *)
Definition blocks_after (h : Z) (n : nat) : list Event :=
  map (λ i, EvBlock (h + Z.of_nat i)) (seq 1 n).

End Vocabulary.

(** * Vocabulary of the further properties *)

Section MoreVocabulary.
Context `{EX : Externals}.

(** A computation runs along a relation between a state, what is sent
    and the state reached, when each of its runs is in the relation. *)
Definition runs (R : State → list Effect → State → Prop) {A} (m : M A)
    : Prop :=
  ∀ s, R s (effects m s) (exec m s).

(** Relations that hold of doing nothing and of doing one thing after
    another. *)
Class Sequential (R : State → list Effect → State → Prop) : Prop := {
  seq_nil : ∀ s, R s [] s;
  seq_app : ∀ s1 out1 s2 out2 s3,
    R s1 out1 s2 → R s2 out2 s3 → R s1 (out1 ++ out2) s3;
}.

(** The session directory is consistent when every bound socket is bound
    to a non-empty address that is bound back to the socket. *)
Definition directory_inv (s : State) : Prop :=
  ∀ sid a, idToAddress s !! sid = Some a →
           a ≠ EmptyString ∧ addressToId s !! a = Some sid.

(** The same session directory. *)
Definition same_directory (s s' : State) : Prop :=
  idToAddress s' = idToAddress s ∧ addressToId s' = addressToId s.

(** The events that may bind a socket to an address. *)
Definition binds_socket (e : Event) : bool :=
  match e with
  | EvLogin _ _ _ | EvGetSpawnSignature _ _ _ _ _ _ => true
  | _ => false
  end.

(** A consistent directory stays consistent. *)
Definition directory_kept (s s' : State) : Prop :=
  directory_inv s → directory_inv s'.

(** The same mode. *)
Definition same_mode (s s' : State) : Prop :=
  inRecoveryMode s' = inRecoveryMode s.

(** The DA node [da] stays attached. *)
Definition slot_kept (da : string) (s s' : State) : Prop :=
  socketIdDA s = Some da → socketIdDA s' = Some da.

(** What the server does when it turns a socket away: it closes the
    socket, which releases it as when it leaves. *)
Definition turned_away (s : State) (sid : string)
    : unit * State * list Effect :=
  (tt, disconnected_state s sid,
   [SocketDisconnect sid; ConsoleLog (Disconnected sid)]).

(** The same board. *)
Definition same_board (s s' : State) : Prop := b s' = b s.

(** The events that may write the board: a successful spawn, a finalized
    move, and a tile recovered from the DA node. *)
Definition writes_board (e : Event) : bool :=
  match e with
  | EvNewSpawnAttempt _ true | EvNewMove _ _
  | EvSendRecoveredTileResponse _ _ _ => true
  | _ => false
  end.

(** What a run of events sends, in order. *)
Fixpoint trace (es : list Event) (s : State) : list Effect :=
  match es with
  | [] => []
  | e :: es => effects (handle e) s ++ trace es (exec (handle e) s)
  end.

(** The socket an event comes from; the contract events and the blocks
    come from the chain. *)
Definition requester (e : Event) : option string :=
  match e with
  | EvLogin sid _ _ | EvGetSpawnSignature _ sid _ _ _ _ | EvHandshakeDA sid
  | EvGetMoveSignature sid _ _ | EvDecrypt sid _
  | EvSendRecoveredTileResponse _ sid _ | EvRecoveryFinished sid
  | EvSaveToDatabaseResponse sid | EvDisconnecting sid => Some sid
  | EvNewSpawnAttempt _ _ | EvNewMove _ _ | EvBlock _ => None
  end.

(** An effect that concerns the socket [sid] alone. *)
Definition own_socket (sid : string) (eff : Effect) : Prop :=
  match eff with
  | Emit to _ => to = Some sid
  | SocketDisconnect x => x = sid
  | _ => True
  end.

(** An effect is in order when an envelope goes to the attached DA node
    and anything else is as [ok] says. *)
Definition in_order (ok : Effect → Prop) (s : State) (eff : Effect) : Prop :=
  match eff with
  | Emit to (saveToDatabase _) => to = socketIdDA s ∧ is_Some to
  | _ => ok eff
  end.

(** The DA node stays attached or its place is freed, and whatever is
    sent is in order. *)
Definition sends (ok : Effect → Prop) (s : State) (out : list Effect)
    (s' : State) : Prop :=
  (socketIdDA s' = socketIdDA s ∨ socketIdDA s' = None) ∧
  ∀ eff, eff ∈ out → in_order ok s eff.

(** The queue is served in order and loses nothing: what was handed to
    the DA node followed by what is queued is what was queued followed
    by what was added. *)
Definition queue_served (s : State) (out : list Effect) (s' : State) : Prop :=
  ∃ added, delivered out ++ queuedTilesDA s' = queuedTilesDA s ++ added.

(** No claimed move is added and the block height stays. *)
Definition claims_kept (s s' : State) : Prop :=
  claimedMoves s' ⊆ claimedMoves s ∧
  currentBlockHeight s' = currentBlockHeight s.

(** Every stored claim is stored under the key of its move and has not
    outlived its life span at the current block. *)
Definition claims_fresh (s : State) : Prop :=
  ∀ k m, claimedMoves s !! k = Some m →
    k = moveKey (uFrom m) (uTo m) ∧
    ∃ h, currentBlockHeight s = Some h ∧
         h ≤ blockSubmitted m + CLAIMED_MOVE_LIFE_SPAN.

(** An empty queue stays empty. *)
Definition stays_empty (s s' : State) : Prop :=
  queuedTilesDA s = [] → queuedTilesDA s' = [].

(** An envelope is complete when none of its three parts is empty. *)
Definition complete (enc : EncryptedTile) : bool :=
  truthy (ciphertext enc) && truthy (iv enc) && truthy (tag enc).

(** City ids are handed out in increasing order. *)
Definition cityId_grows (s s' : State) : Prop := cityId s ≤ cityId s'.

End MoreVocabulary.

(** * Boards and runs for the examples *)

Module Demo.
Import SpecGame.

Definition bare (row col : Z) : tile := mkTile None (mkLocation row col) 0 0 Bare.

Definition alice : Player := mkPlayer "A" "0xA".
Definition bob : Player := mkPlayer "B" "0xB".
Definition carol : Player := mkPlayer "C" "0xC".

(** A board of three rows and columns: the capital of alice (city 1) in
    the corner (0,0), the capital of bob (city 2) in the corner (2,2). *)
Definition board0 : board :=
  board_setTile
    (board_setTile
       (mkBoard (map (λ row, map (bare row) [0; 1; 2]) [0; 1; 2]))
       (spawn alice (mkLocation 0 0) 10 1))
    (spawn bob (mkLocation 2 2) 10 2).

(** The server as it starts on that board. *)
Definition start : State := mkState false board0 1 ∅ ∅ ∅ ∅ None ∅ None [] 0 0.

(** The same server started in recovery mode. *)
Definition start_recovery : State :=
  mkState true board0 1 ∅ ∅ ∅ ∅ None ∅ None [] 0 0.

(** Block 5 arrives and alice logs in on the socket [s1]. *)
Definition logged_in : State :=
  run [EvBlock 5; EvLogin "s1" "0xA" "0xA"] start.

(** Alice moves nine of her ten troops from (0,0) to (0,1). *)
Definition move_from : tile := mkTile (Some alice) (mkLocation 0 0) 1 1 Capital.
Definition move_to : tile := mkTile (Some alice) (mkLocation 0 1) 9 1 Bare.

(** Alice proposed that move in block 5. *)
Definition proposed : State :=
  exec (getMoveSignature "s1" move_from move_to) logged_in.

(** The move of alice is never finalized in time: the blocks 6 to 11
    arrive, and the claim expires with the last of them. *)
Definition swept : State := run (blocks_after 5 6) proposed.

(** The chain after carol committed to a spawn in block 7 with the
    secret 42. *)
Definition chain7 : Chain :=
  mkChain (λ a, if String.eqb a "0xC" then 7 else 0)
          (λ _, hd 0 (poseidonPerm [0; 42]))
          (λ h, 1000 + h)
          [].

(** Carol logs in on the socket [s3] ... *)
Definition carol_logged_in : State :=
  run [EvBlock 8; EvLogin "s3" "0xC" "0xC"] start.

(** ... and asks for a spawn signature ... *)
Definition carol_claimed : State :=
  exec (getSpawnSignature chain7 "s3" "C" "0xC" "0xC" "42") carol_logged_in.


(** Alice proposes a move in block 5, leaves, comes back on the socket
    [s2] in the same block. *)
Definition relogged : State :=
  run [EvDisconnecting "s1"; EvLogin "s2" "0xA" "0xA"] proposed.

(** A board on which alice holds (2,1), next to the capital of bob. *)
Definition board_siege : board :=
  board_setTile board0 (mkTile (Some alice) (mkLocation 2 1) 8 1 Bare).

(** Alice takes the capital of bob from (2,1) with seven troops. *)
Definition siege_from : tile := mkTile (Some alice) (mkLocation 2 1) 1 1 Bare.
Definition siege_to : tile := mkTile (Some alice) (mkLocation 2 2) 3 2 Capital.

(** Both are logged in, alice on [s1] and bob on [s2], and alice
    proposed the move in block 5. *)
Definition siege_start : State :=
  mkState false board_siege 1 ∅ ∅ ∅ ∅ None ∅ None [] 0 0.

Definition siege_proposed : State :=
  run [EvBlock 5; EvLogin "s1" "0xA" "0xA"; EvLogin "s2" "0xB" "0xB";
       EvGetMoveSignature "s1" siege_from siege_to] siege_start.

End Demo.

(** * Boards and runs with a DA node *)

Module DemoDA.
Import SpecGame Demo.

(** The DA node attaches on the socket [da], block 5 arrives and alice
    logs in on the socket [s1]. *)
Definition with_da : State :=
  run [EvHandshakeDA "da"; EvBlock 5; EvLogin "s1" "0xA" "0xA"] start.

(** Alice proposes her move while no DA node is attached, so that both
    envelopes wait in the queue; then the DA node attaches. *)
Definition backlog : State :=
  run [EvBlock 5; EvLogin "s1" "0xA" "0xA";
       EvGetMoveSignature "s1" move_from move_to; EvHandshakeDA "da"] start.

(** The server started in recovery mode, with the DA node attached. *)
Definition recovering : State := exec (handshakeDA "da") start_recovery.

(** The tile with which carol spawned at (1,1) before the restart, and
    the envelope the DA node holds of it. *)
Definition recovered : tile := spawn carol (mkLocation 1 1) 10 3.

Definition recovered_envelope : EncryptedTile :=
  mkEncryptedTile "C" "0xC" "enc:carol" "0" "tag".

(** An envelope with an empty tag. *)
Definition broken_envelope : EncryptedTile :=
  mkEncryptedTile "C" "0xC" "enc:carol" "0" EmptyString.

(** The chain on which the hash of that tile was announced. *)
Definition chain_da : Chain :=
  mkChain (λ _, 0) (λ _, 0) (λ _, 0) [tile_hash recovered].

(** The stand-ins of the environment, with a cipher that opens that
    envelope. *)
Definition externals_da : Externals := {|
  START_RESOURCES := 10;
  CLAIMED_MOVE_LIFE_SPAN := 5;
  verifyMessage := verifyMessage (Externals := externals);
  BigInt := BigInt (Externals := externals);
  poseidonPerm := poseidonPerm (Externals := externals);
  solidityKeccak256 := solidityKeccak256 (Externals := externals);
  signMessage := signMessage (Externals := externals);
  encryptTile := encryptTile (Externals := externals);
  decryptTile := λ ciphertext _ _,
    if String.eqb ciphertext "enc:carol" then Some recovered else None;
|}.

End DemoDA.

(** * Properties of the handlers *)

Section Properties.
Context `{EX : Externals}.

#[local] Arguments alertPlayers : simpl never.
#[local] Arguments updatedLocs_of : simpl never.
#[local] Arguments alertPlayerMap_of : simpl never.
#[local] Arguments visibleTiles_of : simpl never.
#[local] Arguments dequeueTileIfDAConnected : simpl never.
#[local] Arguments spawnLocation : simpl never.
#[local] Arguments disconnect : simpl never.
#[local] Arguments socket_disconnect : simpl never.

(** Unfolding of the monad. *)
Ltac unfold_M :=
  unfold exec, effects, emit, console_log, console_error,
    bind, ret, get, modify, effect in *.

(** States built by different chains of field updates are compared
    after the updates are unfolded. *)
Ltac unfold_sets :=
  unfold set_inRecoveryMode, set_b, set_cityId, set_idToAddress,
    set_addressToId, set_claimedMoves, set_claimedSpawns,
    set_currentBlockHeight, set_playerLatestBlock, set_socketIdDA,
    set_queuedTilesDA, set_recoveryModeIndex, set_encryptions in *;
  simpl in *.

(** The state after a chain of field updates, field by field.  The
    fields are read by need, whatever the length of the chain. *)
Ltac norm :=
  lazy beta iota zeta delta
    [set_inRecoveryMode set_b set_cityId set_idToAddress set_addressToId
     set_claimedMoves set_claimedSpawns set_currentBlockHeight
     set_playerLatestBlock set_socketIdDA set_queuedTilesDA
     set_recoveryModeIndex set_encryptions
     inRecoveryMode b cityId idToAddress addressToId claimedMoves
     claimedSpawns currentBlockHeight playerLatestBlock socketIdDA
     queuedTilesDA recoveryModeIndex encryptions
     exec effects bind ret get modify effect emit
     console_log console_error fst snd].

(** A handler that takes one of its early exits is settled by cases. *)
Ltac by_cases :=
  unfold_M; simpl in *; try done;
  repeat (case_match; simplify_eq/=; try done; try congruence).

Lemma truthy_true (x : string) : truthy x = true ↔ x ≠ EmptyString.
Proof.
  unfold truthy. destruct (String.eqb_spec x EmptyString); simpl; split;
    congruence.
Qed.

Lemma bind_run {A B} (m : M A) (k : A → M B) (s s1 s2 : State)
    (a : A) (y : B) (out1 out2 : list Effect) :
  m s = (a, s1, out1) → k a s1 = (y, s2, out2) →
  bind m k s = (y, s2, out1 ++ out2).
Proof. intros Hm Hk. unfold bind. by rewrite Hm, Hk. Qed.

(** ** The closing of a socket *)

Lemma disconnect_run (s : State) (sid : string) :
  disconnect sid s
    = (tt, disconnected_state s sid, [ConsoleLog (Disconnected sid)]).
Proof.
  destruct s. unfold disconnect, disconnected_state. norm.
  destruct (idToAddress0 !! sid) as [a|]; [destruct (truthy a)|];
    norm; case_bool_decide; reflexivity.
Qed.

(** A socket the server closes is released as if it had left. *)
Lemma socket_disconnect_run (s : State) (sid : string) :
  socket_disconnect sid s
    = (tt, disconnected_state s sid,
       [SocketDisconnect sid; ConsoleLog (Disconnected sid)]).
Proof.
  unfold socket_disconnect, bind, effect. by rewrite disconnect_run.
Qed.

(** The closing of a socket writes the directory and the place of the
    DA node, and nothing else. *)
Lemma disconnected_state_writes (s : State) (sid : string) :
  ∃ ids addrs da,
    disconnected_state s sid
      = set_socketIdDA da (set_idToAddress ids (set_addressToId addrs s)).
Proof.
  destruct s. unfold disconnected_state. norm.
  destruct (idToAddress0 !! sid) as [a|]; [destruct (truthy a)|];
    case_bool_decide; by do 3 eexists.
Qed.

(** The closing of a socket that is not bound leaves the directory; it
    frees the place of the DA node if the socket held it. *)
Lemma disconnected_state_unbound (s : State) (sid : string) :
  idToAddress s !! sid = None →
  disconnected_state s sid
    = if bool_decide (socketIdDA s = Some sid) then set_socketIdDA None s
      else s.
Proof. intros Hsid. unfold disconnected_state. by rewrite Hsid. Qed.

(** ** The DA queue *)

Lemma enqueueTile_run (tile : Tile) (s : State) :
  enqueueTile tile s =
    (envelope (encryptions s) tile,
     set_encryptions (S (encryptions s))
       (set_queuedTilesDA
          (queuedTilesDA s ++ [envelope (encryptions s) tile]) s),
     []).
Proof. reflexivity. Qed.

Lemma dequeue_cases (s : State) :
  (dequeueTileIfDAConnected s = (tt, s, []) ∧
   (socketIdDA s = None ∨ queuedTilesDA s = [])) ∨
  (∃ da enc rest,
     socketIdDA s = Some da ∧ queuedTilesDA s = enc :: rest ∧
     dequeueTileIfDAConnected s
       = (tt, set_queuedTilesDA rest s, [Emit (Some da) (saveToDatabase enc)])).
Proof.
  unfold dequeueTileIfDAConnected. unfold_M. simpl.
  destruct (socketIdDA s) as [da|] eqn:Hda; [|by left; auto].
  destruct (queuedTilesDA s) as [|enc rest] eqn:Hq; [by left; auto|].
  right. by exists da, enc, rest.
Qed.

(** Whatever leaves the queue is handed to the DA node, in order. *)
Lemma dequeue_delivered (s : State) :
  delivered (effects dequeueTileIfDAConnected s)
    ++ queuedTilesDA (exec dequeueTileIfDAConnected s) = queuedTilesDA s.
Proof.
  unfold exec, effects.
  destruct (dequeue_cases s) as [[-> _]|(da & enc & rest & _ & Hq & ->)];
    simpl; congruence.
Qed.

Ltac case_dequeue :=
  match goal with
  | |- context [dequeueTileIfDAConnected ?s'] =>
      let Hq := fresh "Hq" in
      destruct (dequeue_cases s') as [[-> _]|(? & ? & ? & _ & Hq & ->)]
  end.

(** ** Alerts *)

Lemma for_each_alerts (tbl : gmap string string)
    (m : list (string * list string)) (s : State) :
  for_each (λ e : string * list string,
      match tbl !! e.1 with
      | Some socketId =>
          if truthy socketId then emit (Some socketId) (updateDisplay e.2)
          else ret tt
      | None => ret tt
      end) m s
  = (tt, s, flat_map (λ e : string * list string,
      match tbl !! e.1 with
      | Some socketId =>
          if truthy socketId then [Emit (Some socketId) (updateDisplay e.2)]
          else []
      | None => []
      end) m).
Proof.
  induction m as [|e m IH]; [done|].
  cbn [for_each flat_map].
  destruct (tbl !! e.1) as [sid|]; [destruct (truthy sid)|];
    (erewrite bind_run; [|reflexivity|apply IH]); done.
Qed.

Lemma alertPlayers_run (newOwner prevOwner : string)
    (updatedLocs : list Location) (s : State) :
  alertPlayers newOwner prevOwner updatedLocs s
    = (tt, s, alerts s newOwner prevOwner updatedLocs).
Proof.
  unfold alertPlayers, alerts, bind, get. by rewrite for_each_alerts.
Qed.

Lemma delivered_app (xs ys : list Effect) :
  delivered (xs ++ ys) = delivered xs ++ delivered ys.
Proof. unfold delivered. apply omap_app. Qed.

Lemma alerts_not_delivered (s : State) (newOwner prevOwner : string)
    (updatedLocs : list Location) :
  delivered (alerts s newOwner prevOwner updatedLocs) = [].
Proof.
  unfold alerts.
  induction (alertPlayerMap_of (b s) newOwner prevOwner updatedLocs)
    as [|e m IH]; simpl; [done|].
  rewrite delivered_app, IH. by repeat case_match.
Qed.

(** ** Move proposals *)

Lemma dequeue_frame (s : State) :
  let s' := exec dequeueTileIfDAConnected s in
  inRecoveryMode s' = inRecoveryMode s ∧ b s' = b s ∧ cityId s' = cityId s ∧
  idToAddress s' = idToAddress s ∧ addressToId s' = addressToId s ∧
  claimedMoves s' = claimedMoves s ∧ claimedSpawns s' = claimedSpawns s ∧
  currentBlockHeight s' = currentBlockHeight s ∧
  playerLatestBlock s' = playerLatestBlock s ∧ socketIdDA s' = socketIdDA s ∧
  encryptions s' = encryptions s.
Proof.
  unfold exec.
  destruct (dequeue_cases s) as [[-> _]|(da & enc & rest & _ & _ & ->)];
    simpl; done.
Qed.

Lemma dequeue_effects (s : State) :
  Forall (λ e, ∃ da enc, e = Emit (Some da) (saveToDatabase enc))
         (effects dequeueTileIfDAConnected s).
Proof.
  unfold effects.
  destruct (dequeue_cases s) as [[-> _]|(da & enc & rest & _ & _ & ->)];
    simpl; repeat constructor. by do 2 eexists.
Qed.

Lemma getMoveSignature_accepted_run (s : State) (sid : string)
    (uF uT : TileJSON) (sender : string) (height : Z) :
  proposal_ok s sid uF sender height →
  let tF := Tile_fromJSON uF in
  let tT := Tile_fromJSON uT in
  let s' := proposed_state s sender height tF tT in
  getMoveSignature sid uF uT s
    = (tt, exec dequeueTileIfDAConnected s',
       Emit (Some sid) (moveSignatureResponse
          (signMessage (solidityKeccak256 height (hash tF) (hash tT)))
          height) :: effects dequeueTileIfDAConnected s').
Proof.
  intros (Hsid & Hne & Hrec & Hh & (lb & Hlb & Hlt) & Haddr).
  destruct s. simpl in Hsid, Hrec, Hh, Hlb. subst.
  unfold getMoveSignature, enqueueTile, proposed_state, moveKey, envelope.
  norm. rewrite Hsid. apply truthy_true in Hne. rewrite Hne.
  cbn [orb negb]. rewrite Hlb. apply Z.ltb_lt in Hlt.
  rewrite Hlt, String.eqb_refl. cbn [andb]. norm.
  rewrite <- app_assoc. cbn [app].
  match goal with
  | |- context [dequeueTileIfDAConnected ?s'] =>
      by destruct (dequeueTileIfDAConnected s') as [[[] s1] out]
  end.
Qed.

Lemma getMoveSignature_rejected_run (s : State) (sid : string)
    (uF uT : TileJSON) :
  (∀ sender height, ¬ proposal_ok s sid uF sender height) →
  getMoveSignature sid uF uT s = socket_disconnect sid s.
Proof.
  intros Hno. unfold getMoveSignature. unfold_M.
  assert (Hclose : ∀ r : unit * State * list Effect,
    (let '(y, s2, out2) := r in (y, s2, [] ++ out2)) = r).
  { by intros [[[] s2] out2]. }
  destruct (idToAddress s !! sid) as [sender|] eqn:Hsid; [|apply Hclose].
  destruct (inRecoveryMode s) eqn:Hrec; [apply Hclose|]. cbn [orb].
  destruct (truthy sender) eqn:Htr; [|apply Hclose]. cbn [negb].
  destruct (playerLatestBlock s !! sender) as [lb|] eqn:Hlb; [|apply Hclose].
  destruct (currentBlockHeight s) as [height|] eqn:Hh; [|apply Hclose].
  destruct (lb <? height) eqn:Hlt; [|apply Hclose].
  destruct (String.eqb_spec (json_address uF) sender) as [Heq|Hneq];
    [|apply Hclose].
  exfalso. apply (Hno sender height). repeat split; try done.
  - by apply truthy_true.
  - exists lb. split; [done|]. by apply Z.ltb_lt.
Qed.

(** ** Recovery mode *)

(** Relations on states are followed through a computation step by
    step. *)
Lemma exec_bind {A B} (m : M A) (k : A → M B) (s : State) :
  exec (bind m k) s = exec (k (m s).1.1) (exec m s).
Proof.
  unfold exec, bind. destruct (m s) as [[a s1] out1]. simpl.
  by destruct (k a s1) as [[y s2] out2].
Qed.

Lemma steps_bind (R : State → State → Prop) `{!PreOrder R} {A B}
    (m : M A) (k : A → M B) :
  steps R m → (∀ a, steps R (k a)) → steps R (bind m k).
Proof.
  intros Hm Hk s. rewrite exec_bind. etrans; [apply Hm|apply Hk].
Qed.

Lemma steps_ret (R : State → State → Prop) `{!PreOrder R} {A} (a : A) :
  steps R (ret a).
Proof. intros s. reflexivity. Qed.

Lemma steps_get (R : State → State → Prop) `{!PreOrder R} : steps R get.
Proof. intros s. reflexivity. Qed.

Lemma steps_effect (R : State → State → Prop) `{!PreOrder R} (e : Effect) :
  steps R (effect e).
Proof. intros s. reflexivity. Qed.

Lemma steps_modify (R : State → State → Prop) (f : State → State) :
  (∀ s, R s (f s)) → steps R (modify f).
Proof. intros Hf s. apply Hf. Qed.

Lemma steps_for_each (R : State → State → Prop) `{!PreOrder R} {A}
    (f : A → M unit) (xs : list A) :
  (∀ x, steps R (f x)) → steps R (for_each f xs).
Proof.
  intros Hf. induction xs as [|x xs IH]; simpl.
  - by apply steps_ret.
  - apply steps_bind; [done|apply Hf|]. by intros _.
Qed.

Lemma steps_disconnect (R : State → State → Prop) (sid : string) :
  (∀ s ids addrs da,
     R s (set_socketIdDA da (set_idToAddress ids (set_addressToId addrs s)))) →
  steps R (disconnect sid).
Proof.
  intros HR s. unfold exec. rewrite disconnect_run. cbn [fst snd].
  destruct (disconnected_state_writes s sid) as (ids & addrs & da & ->).
  apply HR.
Qed.

Lemma steps_socket_disconnect (R : State → State → Prop) (sid : string) :
  (∀ s ids addrs da,
     R s (set_socketIdDA da (set_idToAddress ids (set_addressToId addrs s)))) →
  steps R (socket_disconnect sid).
Proof.
  intros HR s. unfold exec. rewrite socket_disconnect_run. cbn [fst snd].
  destruct (disconnected_state_writes s sid) as (ids & addrs & da & ->).
  apply HR.
Qed.

(** A computation is taken apart along its binds and branches; what is
    left are its updates of the state. *)
Ltac steps_split :=
  unfold emit, console_log, console_error;
  repeat match goal with
  | |- steps _ (socket_disconnect _) =>
      apply steps_socket_disconnect; intros ? ? ? ?
  | |- steps _ (disconnect _) =>
      apply steps_disconnect; intros ? ? ? ?
  | |- steps _ (ret _) => apply steps_ret; solve [apply _]
  | |- steps _ get => apply steps_get; solve [apply _]
  | |- steps _ (effect _) => apply steps_effect; solve [apply _]
  | |- steps _ (for_each _ _) =>
      apply steps_for_each; [solve [apply _]|intros ?]
  | |- steps _ (bind _ _) => apply steps_bind; [solve [apply _]| |intros ?]
  | |- steps _ (modify _) => apply steps_modify; intros ?
  | |- steps _ _ => progress cbv zeta
  | |- steps _ _ => case_match
  end.

Global Instance stays_live_preorder : PreOrder stays_live.
Proof.
  split; [intros s Hs; exact Hs|].
  intros s1 s2 s3 H12 H23 H3. apply H12, H23, H3.
Qed.

Lemma stays_live_enqueueTile (tile : Tile) : steps stays_live (enqueueTile tile).
Proof. unfold enqueueTile. steps_split. by unfold stays_live. Qed.

Lemma stays_live_dequeue : steps stays_live dequeueTileIfDAConnected.
Proof. unfold dequeueTileIfDAConnected. steps_split. by unfold stays_live. Qed.

Lemma stays_live_alertPlayers (newOwner prevOwner : string)
    (updatedLocs : list Location) :
  steps stays_live (alertPlayers newOwner prevOwner updatedLocs).
Proof. unfold alertPlayers. steps_split. Qed.

Lemma stays_live_handle (e : Event) : steps stays_live (handle e).
Proof.
  destruct e; simpl.
  - unfold login. steps_split; by unfold stays_live.
  - unfold getSpawnSignature. steps_split; by unfold stays_live.
  - unfold handshakeDA. steps_split; by unfold stays_live.
  - unfold getMoveSignature. steps_split;
      first [apply stays_live_enqueueTile|apply stays_live_dequeue|by unfold stays_live].
  - unfold decrypt. steps_split; by unfold stays_live.
  - unfold sendRecoveredTileResponse. steps_split; by unfold stays_live.
  - unfold finishRecovery. steps_split; by unfold stays_live.
  - unfold saveToDatabaseResponse. steps_split;
      first [apply stays_live_dequeue|by unfold stays_live].
  - steps_split; by unfold stays_live.
  - unfold onSpawnAttempt. steps_split;
      first [apply stays_live_enqueueTile|apply stays_live_dequeue|by unfold stays_live].
  - unfold onMoveFinalize. steps_split;
      first [apply stays_live_enqueueTile|apply stays_live_dequeue
            |apply stays_live_alertPlayers|by unfold stays_live].
  - unfold onBlock, upkeepClaimedMoves. steps_split; by unfold stays_live.
Qed.

Lemma recovery_mode_step (e : Event) (s : State) :
  inRecoveryMode (exec (handle e) s) = true → inRecoveryMode s = true.
Proof. apply stays_live_handle. Qed.

Lemma recovery_inv_step (e : Event) (s : State) :
  recovery_inv s → recovery_inv (exec (handle e) s).
Proof.
  intros Hinv Hrec'.
  pose proof (recovery_mode_step _ _ Hrec') as Hrec.
  destruct (Hinv Hrec) as (Hid & Haddr & Hspawns & Hmoves).
  clear Hinv Hrec'.
  assert (Hleft : ∀ sid', disconnected_state s sid'
            = if bool_decide (socketIdDA s = Some sid')
              then set_socketIdDA None s else s).
  { intros sid'. apply disconnected_state_unbound.
    by rewrite Hid, lookup_empty. }
  assert (Hclosed : ∀ sid',
    let s' := (socket_disconnect sid' s).1.2 in
    idToAddress s' = ∅ ∧ addressToId s' = ∅ ∧
    claimedSpawns s' = ∅ ∧ claimedMoves s' = ∅).
  { intros sid'. rewrite socket_disconnect_run, Hleft. cbn [fst snd].
    by case_bool_decide. }
  assert (Hbind : ∀ (out : list Effect) sid',
    (let '(y, s2, out2) := socket_disconnect sid' s in (y, s2, out ++ out2)).1.2
    = (socket_disconnect sid' s).1.2).
  { intros out sid'. by destruct (socket_disconnect sid' s) as [[[] s2] out2]. }
  destruct e; simpl.
  - unfold login. unfold_M. rewrite Hrec. rewrite Hbind. apply Hclosed.
  - unfold getSpawnSignature. unfold_M. rewrite Hid, lookup_empty.
    rewrite Hbind. apply Hclosed.
  - unfold handshakeDA. unfold_M.
    destruct (socketIdDA s); [rewrite Hbind; apply Hclosed|done].
  - unfold getMoveSignature. unfold_M. rewrite Hid, lookup_empty.
    rewrite Hbind. apply Hclosed.
  - unfold decrypt. unfold_M. rewrite Hid, lookup_empty.
    rewrite Hbind. apply Hclosed.
  - unfold sendRecoveredTileResponse. unfold_M.
    destruct (socketIdDA s); [|rewrite Hbind; apply Hclosed].
    destruct (negb _); [rewrite Hbind; apply Hclosed|].
    destruct (_ || _); [done|].
    clear Hleft Hclosed Hbind. simpl.
    repeat (case_match; simplify_eq/=; try done).
  - unfold finishRecovery. unfold_M.
    destruct (socketIdDA s); [|rewrite Hbind; apply Hclosed].
    destruct (negb _); [rewrite Hbind; apply Hclosed|done].
  - unfold saveToDatabaseResponse, exec, bind, get.
    destruct (socketIdDA s) as [da|]; [|rewrite Hbind; apply Hclosed].
    destruct (negb (String.eqb sid da)); [rewrite Hbind; apply Hclosed|].
    pose proof (dequeue_frame s) as Hf. unfold exec in Hf.
    destruct (dequeueTileIfDAConnected s) as [[[] s1] out].
    simpl in *. destruct_and!. repeat split; congruence.
  - unfold exec. rewrite disconnect_run, Hleft. cbn [fst snd].
    by case_bool_decide.
  - unfold onSpawnAttempt. unfold_M. simpl. rewrite Hrec. done.
  - unfold onMoveFinalize. unfold_M. simpl. rewrite Hrec. done.
  - unfold onBlock, upkeepClaimedMoves. unfold_M. simpl.
    rewrite Hmoves, map_filter_empty. done.
Qed.

Lemma reachable_recovery_inv (s : State) : reachable s → recovery_inv s.
Proof.
  induction 1 as [s Hinit|s e _ IH].
  - destruct Hinit as (Hid & Haddr & Hmoves & Hspawns & _). by intros _.
  - by apply recovery_inv_step.
Qed.

Lemma reachable_run (es : list Event) (s : State) :
  reachable s → reachable (run es s).
Proof.
  revert s. induction es as [|e es IH]; intros s Hs; simpl; [done|].
  apply IH. by constructor.
Qed.

(** ** Finalized moves *)

Lemma onMoveFinalize_claimed_run (s : State) (hUFrom hUTo : string)
    (move : ClaimedMove) :
  inRecoveryMode s = false →
  claimedMoves s !! String.append hUFrom hUTo = Some move →
  let s' := finalized_state s (String.append hUFrom hUTo) move in
  let s'' := exec dequeueTileIfDAConnected s' in
  onMoveFinalize hUFrom hUTo s
    = (tt, s'',
       effects dequeueTileIfDAConnected s'
       ++ alerts s'' (address (owner (uTo move)))
            (address (owner (getTile (b s) (loc (uTo move)))))
            (updatedLocs_of (b s) move)).
Proof.
  intros Hrec Hmove. destruct s. simpl in Hrec, Hmove. subst.
  unfold onMoveFinalize, finalized_state, enqueueTile, envelope.
  norm. rewrite Hmove. norm. rewrite <- app_assoc. cbn [app].
  match goal with
  | |- context [dequeueTileIfDAConnected ?s'] =>
      destruct (dequeueTileIfDAConnected s') as [[[] s1] out]
  end.
  rewrite alertPlayers_run. reflexivity.
Qed.

Lemma onMoveFinalize_unclaimed_run (s : State) (hUFrom hUTo : string) :
  claimedMoves s !! String.append hUFrom hUTo = None →
  onMoveFinalize hUFrom hUTo s
    = (tt, s, if inRecoveryMode s then []
              else [ConsoleError (MoveFinalizedWithoutSignature hUFrom hUTo)]).
Proof.
  intros Hmove. unfold onMoveFinalize. unfold_M. simpl.
  destruct (inRecoveryMode s); [done|]. by rewrite Hmove.
Qed.

(** ** Expiry of claimed moves *)

Lemma onBlock_run (n : Z) (s : State) :
  onBlock n s
    = (tt,
       set_claimedMoves
         (filter (λ hc : string * ClaimedMove,
                    ¬ (n > blockSubmitted hc.2 + CLAIMED_MOVE_LIFE_SPAN))
                 (claimedMoves s))
         (set_currentBlockHeight (Some n) s),
       []).
Proof. reflexivity. Qed.



(** A state with a bound session or a pending claim is not recovering. *)
Lemma reachable_session_live (s : State) (sid a : string) :
  reachable s → idToAddress s !! sid = Some a → inRecoveryMode s = false.
Proof.
  intros Hreach Hsid. destruct (inRecoveryMode s) eqn:Hrec; [|done].
  destruct (reachable_recovery_inv s Hreach Hrec) as (Hid & _).
  by rewrite Hid, lookup_empty in Hsid.
Qed.



(** ** Session directory *)

Lemma login_refused_run (s : State) (sid address sigStr : string) :
  inRecoveryMode s = true ∨ is_Some (addressToId s !! address) ∨
  verifyMessage sid sigStr ≠ Some address →
  ∃ logs,
    login sid address sigStr s
      = (tt, disconnected_state s sid,
         logs ++ [SocketDisconnect sid; ConsoleLog (Disconnected sid)]) ∧
    Forall (λ e, ∃ l, e = ConsoleLog l) logs.
Proof.
  intros Href. unfold login. unfold_M. cbv beta iota.
  destruct (inRecoveryMode s) eqn:Hrec.
  { rewrite socket_disconnect_run. by exists []. }
  case_bool_decide as Hbound.
  { rewrite socket_disconnect_run. exists [ConsoleLog AddressAlreadyLoggedOn].
    split; [done|]. repeat constructor. by eexists. }
  destruct (verifyMessage sid sigStr) as [sender|] eqn:Hsig.
  2:{ rewrite socket_disconnect_run.
      exists [ConsoleLog (MalignantSignature sigStr)].
      split; [done|]. repeat constructor. by eexists. }
  destruct (truthy sender) eqn:Hsender; cbn [negb orb].
  2:{ rewrite socket_disconnect_run.
      exists [ConsoleLog IncorrectAddressOrBadSignature].
      split; [done|]. repeat constructor. by eexists. }
  destruct (String.eqb_spec address sender) as [->|Hne]; cbn [negb].
  { destruct Href as [?|[?|?]]; done. }
  rewrite socket_disconnect_run.
  exists [ConsoleLog IncorrectAddressOrBadSignature].
  split; [done|]. repeat constructor. by eexists.
Qed.

(** An accepted login binds the socket and the address to each other. *)
Lemma login_accepted_run (s : State) (sid address sigStr : string) :
  inRecoveryMode s = false → addressToId s !! address = None →
  verifyMessage sid sigStr = Some address → address ≠ EmptyString →
  idToAddress (exec (login sid address sigStr) s)
    = <[sid := address]> (idToAddress s) ∧
  addressToId (exec (login sid address sigStr) s)
    = <[address := sid]> (addressToId s).
Proof.
  intros Hrec Hfree Hsig Hne. unfold login. unfold_M. simpl.
  rewrite Hrec. case_bool_decide as Hbound.
  { rewrite Hfree in Hbound. by destruct Hbound. }
  rewrite Hsig. apply truthy_true in Hne. rewrite Hne. simpl.
  rewrite String.eqb_refl. simpl.
  destruct (isSpawned _ _); simpl; by rewrite ?insert_insert_eq.
Qed.

(** C9, as the server has it: a refused login (recovery mode, address
    already bound, signature that does not parse, or a signer other
    than the claimed address) writes no new binding and ends by closing
    the requesting socket, which releases the socket as when it leaves:
    the state is the one the closing of the socket leaves.  When the
    socket was not bound, [idToAddress] and [addressToId] are as they
    were; when it was bound, its own binding is removed from both and
    every other binding stays.  Before the closing, the handler only
    writes to the console. *)
Theorem login_failure_atomic (s : State) (sid address sigStr : string) :
  inRecoveryMode s = true ∨ is_Some (addressToId s !! address) ∨
  verifyMessage sid sigStr = None ∨
  (∃ sender, verifyMessage sid sigStr = Some sender ∧ sender ≠ address) →
  exec (login sid address sigStr) s = exec (disconnect sid) s ∧
  (idToAddress s !! sid = None →
   idToAddress (exec (login sid address sigStr) s) = idToAddress s ∧
   addressToId (exec (login sid address sigStr) s) = addressToId s) ∧
  (∀ a, idToAddress s !! sid = Some a → a ≠ EmptyString →
        idToAddress (exec (login sid address sigStr) s)
          = delete sid (idToAddress s) ∧
        addressToId (exec (login sid address sigStr) s)
          = delete a (addressToId s)) ∧
  ∃ logs, effects (login sid address sigStr) s
            = logs ++ [SocketDisconnect sid; ConsoleLog (Disconnected sid)] ∧
          Forall (λ e, ∃ l, e = ConsoleLog l) logs.
Proof.
  intros Href.
  destruct (login_refused_run s sid address sigStr) as (logs & Hrun & Hlogs).
  { destruct Href as [?|[?|[Hsig|(sender & Hsig & Hne)]]]; auto;
      right; right; rewrite Hsig; congruence. }
  unfold exec, effects. rewrite Hrun, disconnect_run. cbn [fst snd].
  split; [done|]. split; [|split; [|by exists logs]].
  - intros Hsid. rewrite (disconnected_state_unbound _ _ Hsid).
    by case_bool_decide.
  - intros a Hsid Hne. unfold disconnected_state. rewrite Hsid.
    apply truthy_true in Hne. rewrite Hne. by case_bool_decide.
Qed.

(** ** Spawn resolution *)

(** C8: a spawn attempt resolved as failed leaves the board (tiles and
    indices alike) as it was, indeed everything but the spawn claim of
    the address, which is dropped; the session bound to the address, if
    there is one, is sent [trySpawn], and nothing else is sent. *)
Theorem spawn_failure_no_board_mutation (s : State) (player : string) :
  reachable s →
  b (exec (onSpawnAttempt player false) s) = b s ∧
  exec (onSpawnAttempt player false) s
    = set_claimedSpawns (delete player (claimedSpawns s)) s ∧
  ∀ sid, addressToId s !! player = Some sid →
         effects (onSpawnAttempt player false) s = [Emit (Some sid) trySpawn].
Proof.
  intros Hreach. unfold onSpawnAttempt. unfold_M. simpl.
  destruct (inRecoveryMode s) eqn:Hrec; simpl.
  - destruct (reachable_recovery_inv s Hreach Hrec) as (_ & Haddr & Hsp & _).
    split; [done|]. split.
    + destruct s; simpl in *. subst. by rewrite delete_empty.
    + intros sid Hsid. by rewrite Haddr, lookup_empty in Hsid.
  - split; [done|]. split; [done|]. intros sid ->. done.
Qed.

(** ** Finalized moves without a claim *)

(** C1, as the server has it: when no claimed move is stored under the
    two hashes of a finalized move, the handler changes nothing, the
    board included, and sends nothing; outside recovery mode it writes
    the anomaly to the error console. *)
Theorem move_finalize_without_claim (s : State) (hUFrom hUTo : string) :
  claimedMoves s !! String.append hUFrom hUTo = None →
  exec (onMoveFinalize hUFrom hUTo) s = s ∧
  b (exec (onMoveFinalize hUFrom hUTo) s) = b s ∧
  effects (onMoveFinalize hUFrom hUTo) s
    = if inRecoveryMode s then []
      else [ConsoleError (MoveFinalizedWithoutSignature hUFrom hUTo)].
Proof.
  intros Hmove. unfold exec, effects.
  by rewrite onMoveFinalize_unclaimed_run.
Qed.

(** ** Accepted move proposals, field by field *)

Lemma getMoveSignature_accepted_fields (s : State) (sid : string)
    (uF uT : TileJSON) (sender : string) (height : Z) :
  proposal_ok s sid uF sender height →
  let tF := Tile_fromJSON uF in
  let tT := Tile_fromJSON uT in
  let e1 := envelope (encryptions s) tF in
  let e2 := envelope (S (encryptions s)) tT in
  let s1 := exec (getMoveSignature sid uF uT) s in
  claimedMoves s1
    = <[moveKey tF tT := mkClaimedMove tF tT height e1 e2]> (claimedMoves s) ∧
  playerLatestBlock s1 = <[sender := height]> (playerLatestBlock s) ∧
  inRecoveryMode s1 = inRecoveryMode s ∧ b s1 = b s ∧
  idToAddress s1 = idToAddress s ∧ addressToId s1 = addressToId s ∧
  claimedSpawns s1 = claimedSpawns s ∧
  currentBlockHeight s1 = currentBlockHeight s ∧
  socketIdDA s1 = socketIdDA s ∧
  encryptions s1 = S (S (encryptions s)) ∧
  delivered (effects (getMoveSignature sid uF uT) s) ++ queuedTilesDA s1
    = queuedTilesDA s ++ [e1; e2].
Proof.
  intros Hok. pose proof (getMoveSignature_accepted_run _ _ _ uT _ _ Hok) as Hrun.
  simpl in *. unfold exec at 1 2 3 4 5 6 7 8 9 10 11, effects at 1.
  rewrite Hrun. cbn [fst snd].
  set (s' := proposed_state s sender height (Tile_fromJSON uF) (Tile_fromJSON uT)).
  destruct (dequeue_frame s')
    as (Hf1 & Hf2 & Hf3 & Hf4 & Hf5 & Hf6 & Hf7 & Hf8 & Hf9 & Hf10 & Hf11).
  pose proof (dequeue_delivered s') as Hd.
  rewrite Hf1, Hf2, Hf4, Hf5, Hf6, Hf7, Hf8, Hf9, Hf10, Hf11.
  repeat split; try done.
Qed.

Lemma move_accepted_intro (s : State) (sid : string) (uF uT : TileJSON)
    (sender : string) (height : Z) :
  proposal_ok s sid uF sender height → move_accepted s sid uF uT height.
Proof.
  intros Hok. pose proof (getMoveSignature_accepted_run _ _ _ uT _ _ Hok) as Hrun.
  simpl in Hrun. eexists. unfold effects. rewrite Hrun. simpl. by left.
Qed.

(** A proposal is turned away, nothing is recorded and the socket is
    closed, when the latest block in which the address proposed is not
    before the current one. *)
Lemma getMoveSignature_rate_limited (s : State) (sid : string)
    (uF uT : TileJSON) (sender : string) (latestBlock height : Z) :
  idToAddress s !! sid = Some sender →
  playerLatestBlock s !! sender = Some latestBlock →
  currentBlockHeight s = Some height →
  height ≤ latestBlock →
  getMoveSignature sid uF uT s
    = (tt, disconnected_state s sid,
       [SocketDisconnect sid; ConsoleLog (Disconnected sid)]).
Proof.
  intros Hsid Hlb Hh Hge. rewrite <- socket_disconnect_run.
  apply getMoveSignature_rejected_run.
  intros sender' height' (Hsid' & _ & _ & Hh' & (lb & Hlb' & Hlt) & _).
  rewrite Hsid in Hsid'. injection Hsid' as <-.
  rewrite Hh in Hh'. injection Hh' as <-.
  rewrite Hlb in Hlb'. injection Hlb' as <-. lia.
Qed.

(** ** The backup of a move *)

(** C10, as the server has it: an accepted move proposal appends the
    envelopes of the tile moved from and of the tile moved to, in this
    order, to the DA queue (and stores them in the claim); when the move
    is finalized while its claim is stored, both tiles are encrypted
    again and two more envelopes are appended, whereas a finalization
    that finds no claim appends nothing.  An envelope leaves the queue
    only by being handed to the DA node, so a proposal followed by its
    finalization, with the claim still stored, puts four envelopes
    through the queue. *)
Theorem move_backed_up_twice (s : State) (sid : string) (uF uT : TileJSON)
    (sender : string) (height : Z) :
  proposal_ok s sid uF sender height →
  let tF := Tile_fromJSON uF in
  let tT := Tile_fromJSON uT in
  let e1 := envelope (encryptions s) tF in
  let e2 := envelope (S (encryptions s)) tT in
  let propose := getMoveSignature sid uF uT in
  let finalize := onMoveFinalize (hash tF) (hash tT) in
  let s1 := exec propose s in
  move_accepted s sid uF uT height ∧
  delivered (effects propose s) ++ queuedTilesDA s1
    = queuedTilesDA s ++ [e1; e2] ∧
  claimedMoves s1 !! moveKey tF tT
    = Some (mkClaimedMove tF tT height e1 e2) ∧
  (∀ s2, inRecoveryMode s2 = false →
         claimedMoves s2 !! moveKey tF tT = claimedMoves s1 !! moveKey tF tT →
         delivered (effects finalize s2) ++ queuedTilesDA (exec finalize s2)
           = queuedTilesDA s2 ++ [envelope (encryptions s2) tF;
                                  envelope (S (encryptions s2)) tT]) ∧
  (∀ s2, claimedMoves s2 !! moveKey tF tT = None →
         delivered (effects finalize s2) = [] ∧
         queuedTilesDA (exec finalize s2) = queuedTilesDA s2) ∧
  delivered (effects propose s) ++ delivered (effects finalize s1)
    ++ queuedTilesDA (exec finalize s1)
    = queuedTilesDA s ++ [e1; e2; envelope (S (S (encryptions s))) tF;
                          envelope (S (S (S (encryptions s)))) tT].
Proof.
  intros Hok tF tT e1 e2 propose finalize s1.
  destruct (getMoveSignature_accepted_fields _ _ _ uT _ _ Hok)
    as (Hmoves & _ & Hrec & _ & _ & _ & _ & _ & _ & Henc & Hqueue).
  fold tF tT e1 e2 propose s1 in Hmoves, Hrec, Henc, Hqueue.
  assert (Hclaim : claimedMoves s1 !! moveKey tF tT
                   = Some (mkClaimedMove tF tT height e1 e2)).
  { rewrite Hmoves. apply lookup_insert_eq. }
  assert (Hfin : ∀ s2, inRecoveryMode s2 = false →
            claimedMoves s2 !! moveKey tF tT = claimedMoves s1 !! moveKey tF tT →
            delivered (effects finalize s2) ++ queuedTilesDA (exec finalize s2)
            = queuedTilesDA s2 ++ [envelope (encryptions s2) tF;
                                   envelope (S (encryptions s2)) tT]).
  { intros s2 Hrec2 Hsame. rewrite Hclaim in Hsame.
    pose proof (onMoveFinalize_claimed_run s2 (hash tF) (hash tT) _ Hrec2 Hsame)
      as Hrun.
    simpl in Hrun. unfold exec at 1, effects at 1. subst finalize.
    rewrite Hrun. cbn [fst snd].
    rewrite delivered_app, alerts_not_delivered, app_nil_r.
    apply dequeue_delivered. }
  split; [by eapply move_accepted_intro|].
  split; [done|]. split; [done|]. split; [done|].
  split.
  { intros s2 Hnone. subst finalize. unfold effects, exec.
    rewrite (onMoveFinalize_unclaimed_run s2 (hash tF) (hash tT) Hnone).
    cbn [fst snd]. by destruct (inRecoveryMode s2). }
  rewrite Hfin; [|by destruct Hok as (_ & _ & <- & _)|done].
  rewrite app_assoc, Hqueue, <- app_assoc, Henc. done.
Qed.

(** ** Expiry of a claimed move *)




(** ** Spawn proposals *)

Lemma getSpawnSignature_accepted_run (s : State) (ch : Chain)
    (sid symbol address sigStr playerSecret sender : string) (secret : Z) :
  spawn_request_ok s ch sid address playerSecret sender secret →
  let height := getSpawnCommitment ch address in
  let l := spawnLocation secret (getBlockHash ch height) (t_length (b s)) in
  let prev := getTile (b s) l in
  let spawn := Tile_spawn (mkPlayer symbol address) l START_RESOURCES
                 (cityId s) in
  getSpawnSignature ch sid symbol address sigStr playerSecret s
    = (tt,
       set_claimedSpawns
         (<[address := mkClaimedSpawn prev spawn]> (claimedSpawns s))
         (set_cityId (cityId s + 1)
            (set_addressToId (<[sender := sid]> (addressToId s))
               (set_idToAddress (<[sid := sender]> (idToAddress s)) s))),
       [Emit (Some sid)
          (spawnSignatureResponse
             (signMessage (solidityKeccak256 height (hash prev) (hash spawn)))
             (toJSON prev) (toJSON spawn))]).
Proof.
  intros (Hsid & Hne & Hrec & Hcs & Hca & Hsecret & Hcommit & Hhash & Hlen).
  destruct s. simpl in *. subst.
  unfold getSpawnSignature. norm.
  rewrite Hsid. apply truthy_true in Hne. rewrite Hne.
  cbn [orb negb]. rewrite Hcs, Hca, Hsecret.
  rewrite !bool_decide_eq_false_2 by (by intros [? ?]).
  apply Z.eqb_neq in Hcommit, Hlen. rewrite Hcommit, Hhash, Z.eqb_refl.
  cbn [orb negb]. norm. rewrite Hlen. reflexivity.
Qed.

(** C5: the location of an accepted spawn proposal is a function of the
    player's secret and of the hash of the block of the commitment (and
    of the number of rows of the board): its row is the first element of
    the Poseidon permutation of [0, secret, blockhash, 0], its column
    that of [0, secret, blockhash, 1], each reduced by the BigInt
    remainder of the number of rows, which on the non-negative outputs
    of the permutation is the residue modulo it.  The tile read as
    previous and the tile proposed, both sent to the player and stored
    in the spawn claim, lie at that location. *)
Theorem spawn_location_formula (s : State) (ch : Chain)
    (sid symbol address sigStr playerSecret sender : string) (secret : Z) :
  spawn_request_ok s ch sid address playerSecret sender secret →
  let blockhash := getBlockHash ch (getSpawnCommitment ch address) in
  let size := t_length (b s) in
  let rawRow := hd 0 (poseidonPerm [0; secret; blockhash; 0]) in
  let rawCol := hd 0 (poseidonPerm [0; secret; blockhash; 1]) in
  let l := mkLocation (Z.rem rawRow size) (Z.rem rawCol size) in
  let prev := getTile (b s) l in
  let spawn := Tile_spawn (mkPlayer symbol address) l START_RESOURCES
                 (cityId s) in
  let request := getSpawnSignature ch sid symbol address sigStr playerSecret in
  spawnLocation secret blockhash size = l ∧
  claimedSpawns (exec request s) !! address
    = Some (mkClaimedSpawn prev spawn) ∧
  effects request s
    = [Emit (Some sid)
         (spawnSignatureResponse
            (signMessage (solidityKeccak256 (getSpawnCommitment ch address)
                            (hash prev) (hash spawn)))
            (toJSON prev) (toJSON spawn))] ∧
  (0 ≤ rawRow → 0 ≤ rawCol → 0 < size →
   l = mkLocation (rawRow `mod` size) (rawCol `mod` size)).
Proof.
  intros Hok blockhash size rawRow rawCol l prev spawn request.
  pose proof (getSpawnSignature_accepted_run s ch sid symbol address sigStr
                playerSecret sender secret Hok) as Hrun.
  simpl in Hrun. unfold exec, effects. subst request. rewrite Hrun.
  split; [done|]. split; [apply lookup_insert_eq|]. split; [done|].
  intros Hrow Hcol Hsize. subst l.
  by rewrite !Z.rem_mod_nonneg by lia.
Qed.

(** ** Resolved spawns *)

Lemma onSpawnAttempt_success_run (s : State) (player sid : string)
    (spawn : ClaimedSpawn) :
  inRecoveryMode s = false →
  claimedSpawns s !! player = Some spawn →
  addressToId s !! player = Some sid → sid ≠ EmptyString →
  let s' := set_encryptions (S (encryptions s))
              (set_queuedTilesDA
                 (queuedTilesDA s
                  ++ [envelope (encryptions s) (spawnTile spawn)])
                 (set_playerLatestBlock (<[player := 0]> (playerLatestBlock s))
                    (set_b (setTile (b s) (spawnTile spawn))
                       (set_claimedSpawns (delete player (claimedSpawns s))
                          s)))) in
  onSpawnAttempt player true s
    = (tt, exec dequeueTileIfDAConnected s',
       effects dequeueTileIfDAConnected s'
       ++ [Emit (Some sid)
             (loginResponse
                (map JSON_stringify
                   (getNearbyLocations (setTile (b s) (spawnTile spawn))
                      (loc (spawnTile spawn)))))]).
Proof.
  intros Hrec Hspawn Hsid Hne. destruct s. simpl in *. subst.
  unfold onSpawnAttempt, enqueueTile, envelope. norm.
  rewrite Hspawn, Hsid. apply truthy_true in Hne. rewrite Hne. norm.
  pose proof (dequeue_frame) as Hframe.
  match goal with
  | |- context [dequeueTileIfDAConnected ?s'] =>
      specialize (Hframe s'); unfold exec in Hframe;
      destruct (dequeueTileIfDAConnected s') as [[[] s1] out]
  end.
  destruct s1. simpl in Hframe. destruct Hframe as (_ & -> & _).
  reflexivity.
Qed.


(** ** The alert map *)

Lemma set_add_old (x y : string) (xs : list string) :
  y ∈ xs → y ∈ set_add x xs.
Proof. unfold set_add. case_decide; set_solver. Qed.

Lemma set_add_new (x : string) (xs : list string) : x ∈ set_add x xs.
Proof. unfold set_add. case_decide; set_solver. Qed.

Lemma amap_get_keys (k : string) (m : list (string * list string)) :
  is_Some (amap_get k m) ↔ k ∈ m.*1.
Proof.
  induction m as [|[k' xs] m IH]; simpl.
  - split; [by intros [? ?]|by intros ?%elem_of_nil].
  - rewrite elem_of_cons. destruct (decide (k' = k)) as [->|Hk].
    + split; [intros _; by left|eauto].
    + rewrite IH. split; [by right|]. by intros [?|?].
Qed.

Lemma amap_get_snoc (k k' : string) (m : list (string * list string)) :
  amap_get k' (m ++ [(k, [])])
    = match amap_get k' m with
      | Some xs => Some xs
      | None => if decide (k = k') then Some [] else None
      end.
Proof.
  induction m as [|[k0 xs] m IH]; simpl; [done|].
  destruct (decide (k0 = k')); [done|]. exact IH.
Qed.

Lemma amap_get_init (k k' : string) (m : list (string * list string)) :
  amap_get k' (amap_init k m)
    = match amap_get k' m with
      | Some xs => Some xs
      | None => if decide (k = k') then Some [] else None
      end.
Proof.
  unfold amap_init, amap_has. case_bool_decide as Hk.
  - destruct (amap_get k' m) as [xs|] eqn:Hget; [done|].
    case_decide as Hkk; [|done]. subst.
    apply amap_get_keys in Hk. rewrite Hget in Hk. by destruct Hk.
  - apply amap_get_snoc.
Qed.

Lemma amap_get_add (k k' x : string) (m : list (string * list string)) :
  amap_get k' (amap_add k x m)
    = if decide (k = k') then set_add x <$> amap_get k' m
      else amap_get k' m.
Proof.
  induction m as [|[k0 xs] m IH]; simpl.
  - by destruct (decide (k = k')).
  - destruct (decide (k0 = k)) as [->|Hk0]; simpl.
    + by destruct (decide (k = k')).
    + destruct (decide (k0 = k')) as [->|Hk0']; simpl; [|exact IH].
      by destruct (decide (k = k')).
Qed.

(** The entry of [k] after one visit of [alertPlayers]. *)
Lemma alert_visit_get (bd : Board) (newOwner prevOwner : string)
    (loc l : Location) (m : list (string * list string)) (k : string) :
  let tileOwner := address (owner (getTile bd l)) in
  amap_get k (alert_visit bd newOwner prevOwner loc m l)
    = (λ xs, if decide (prevOwner = k) then set_add (JSON_stringify l) xs
             else xs)
      <$> ((λ xs, if decide (newOwner = k) then set_add (JSON_stringify l) xs
                  else xs)
      <$> ((λ xs, if decide (tileOwner = k)
                  then set_add (JSON_stringify loc) xs else xs)
      <$> match amap_get k m with
          | Some xs => Some xs
          | None => if decide (tileOwner = k) then Some [] else None
          end)).
Proof.
  simpl. unfold alert_visit. rewrite !amap_get_add, amap_get_init.
  destruct (decide (prevOwner = k)), (decide (newOwner = k)),
    (decide (address (owner (getTile bd l)) = k)), (amap_get k m); done.
Qed.

(** One visit keeps what the map holds and enters the updated location
    under the owner of the neighbouring tile. *)
Lemma alert_visit_grows (bd : Board) (newOwner prevOwner : string)
    (loc l : Location) (m : list (string * list string))
    (k : string) (xs : list string) :
  amap_get k m = Some xs →
  ∃ xs', amap_get k (alert_visit bd newOwner prevOwner loc m l) = Some xs' ∧
         xs ⊆ xs'.
Proof.
  intros Hget. rewrite alert_visit_get, Hget.
  destruct (decide (prevOwner = k)), (decide (newOwner = k)),
    (decide (address (owner (getTile bd l)) = k)); simpl;
    eexists; (split; [reflexivity|]);
    intros y Hy; repeat apply set_add_old; done.
Qed.

Lemma alert_visit_enters (bd : Board) (newOwner prevOwner : string)
    (loc l : Location) (m : list (string * list string)) :
  ∃ xs, amap_get (address (owner (getTile bd l)))
          (alert_visit bd newOwner prevOwner loc m l) = Some xs ∧
        JSON_stringify loc ∈ xs.
Proof.
  rewrite alert_visit_get.
  set (k := address (owner (getTile bd l))).
  destruct (decide (k = k)) as [_|?]; [|done].
  destruct (decide (prevOwner = k)), (decide (newOwner = k)),
    (amap_get k m); simpl;
    eexists; (split; [reflexivity|]);
    repeat first [apply set_add_new | apply set_add_old].
Qed.

Lemma alert_visit_keys (bd : Board) (newOwner prevOwner : string)
    (loc l : Location) (m : list (string * list string)) (k : string) :
  is_Some (amap_get k (alert_visit bd newOwner prevOwner loc m l)) ↔
  is_Some (amap_get k m) ∨ address (owner (getTile bd l)) = k.
Proof.
  rewrite alert_visit_get. rewrite !fmap_is_Some.
  destruct (amap_get k m) as [xs|]; [by split; eauto|].
  destruct (decide (address (owner (getTile bd l)) = k)) as [Hk|Hk].
  - split; eauto.
  - split; [by intros [? ?]|]. by intros [[? ?]|?].
Qed.

(** The visits of the neighbourhood of one updated location. *)
Lemma alert_visits_grow (bd : Board) (newOwner prevOwner : string)
    (loc : Location) (ls : list Location) (m : list (string * list string))
    (k : string) (xs : list string) :
  amap_get k m = Some xs →
  ∃ xs', amap_get k (foldl (alert_visit bd newOwner prevOwner loc) m ls)
           = Some xs' ∧ xs ⊆ xs'.
Proof.
  revert m xs. induction ls as [|l ls IH]; intros m xs Hget; simpl.
  - by exists xs.
  - destruct (alert_visit_grows bd newOwner prevOwner loc l m k xs Hget)
      as (xs1 & Hget1 & Hsub1).
    destruct (IH _ _ Hget1) as (xs2 & Hget2 & Hsub2).
    exists xs2. split; [done|]. by etrans.
Qed.

Lemma alert_visits_enter (bd : Board) (newOwner prevOwner : string)
    (loc l : Location) (ls : list Location) (m : list (string * list string)) :
  l ∈ ls →
  ∃ xs, amap_get (address (owner (getTile bd l)))
          (foldl (alert_visit bd newOwner prevOwner loc) m ls) = Some xs ∧
        JSON_stringify loc ∈ xs.
Proof.
  revert m. induction ls as [|l0 ls IH]; intros m Hl; simpl.
  - by apply elem_of_nil in Hl.
  - apply elem_of_cons in Hl as [->|Hl]; [|by apply IH].
    destruct (alert_visit_enters bd newOwner prevOwner loc l0 m)
      as (xs1 & Hget1 & Hin1).
    destruct (alert_visits_grow bd newOwner prevOwner loc ls _ _ _ Hget1)
      as (xs2 & Hget2 & Hsub2).
    exists xs2. split; [done|]. by apply Hsub2.
Qed.

Lemma alert_visits_keys (bd : Board) (newOwner prevOwner : string)
    (loc : Location) (ls : list Location) (m : list (string * list string))
    (k : string) :
  is_Some (amap_get k (foldl (alert_visit bd newOwner prevOwner loc) m ls)) ↔
  is_Some (amap_get k m) ∨
  ∃ l, l ∈ ls ∧ address (owner (getTile bd l)) = k.
Proof.
  revert m. induction ls as [|l ls IH]; intros m; simpl.
  - split; [by left|]. intros [?|(l & Hl & _)]; [done|].
    by apply elem_of_nil in Hl.
  - rewrite IH, alert_visit_keys. split.
    + intros [[?|?]|(l' & Hl' & Hk)]; [by left| |].
      * right. exists l. split; [by left|done].
      * right. exists l'. split; [by right|done].
    + intros [?|(l' & Hl' & Hk)]; [by left; left|].
      apply elem_of_cons in Hl' as [->|Hl']; [by left; right|].
      right. by exists l'.
Qed.

(** The alert map of a list of updated locations: who has an entry, and
    what the entry holds at the least. *)
Lemma alertPlayerMap_grows (bd : Board) (newOwner prevOwner : string)
    (locs : list Location) (m : list (string * list string))
    (k : string) (xs : list string) :
  amap_get k m = Some xs →
  ∃ xs', amap_get k
           (foldl (λ m loc, foldl (alert_visit bd newOwner prevOwner loc) m
                                  (getNearbyLocations bd loc)) m locs)
           = Some xs' ∧ xs ⊆ xs'.
Proof.
  revert m xs. induction locs as [|loc locs IH]; intros m xs Hget; simpl.
  - by exists xs.
  - destruct (alert_visits_grow bd newOwner prevOwner loc
                (getNearbyLocations bd loc) m k xs Hget)
      as (xs1 & Hget1 & Hsub1).
    destruct (IH _ _ Hget1) as (xs2 & Hget2 & Hsub2).
    exists xs2. split; [done|]. by etrans.
Qed.

Lemma alertPlayerMap_keys (bd : Board) (newOwner prevOwner : string)
    (locs : list Location) (k : string) :
  is_Some (amap_get k (alertPlayerMap_of bd newOwner prevOwner locs)) ↔
  near bd locs k.
Proof.
  unfold alertPlayerMap_of, near.
  assert (Hgen : ∀ m,
    is_Some (amap_get k
      (foldl (λ m loc, foldl (alert_visit bd newOwner prevOwner loc) m
                             (getNearbyLocations bd loc)) m locs)) ↔
    is_Some (amap_get k m) ∨
    ∃ loc l, loc ∈ locs ∧ l ∈ getNearbyLocations bd loc ∧
             address (owner (getTile bd l)) = k).
  { induction locs as [|loc locs IH]; intros m; simpl.
    - split; [by left|]. intros [?|(loc & l & Hloc & _)]; [done|].
      by apply elem_of_nil in Hloc.
    - rewrite IH, alert_visits_keys. split.
      + intros [[?|(l & Hl & Hk)]|(loc' & l & Hloc' & Hl & Hk)]; [by left| |].
        * right. exists loc, l. split; [by left|done].
        * right. exists loc', l. split; [by right|done].
      + intros [?|(loc' & l & Hloc' & Hl & Hk)]; [by left; left|].
        apply elem_of_cons in Hloc' as [->|Hloc'].
        * left. right. by exists l.
        * right. by exists loc', l. }
  rewrite Hgen. split; [|by right]. intros [[? ?]|?]; done.
Qed.

Lemma alertPlayerMap_holds (bd : Board) (newOwner prevOwner : string)
    (locs : list Location) (loc l : Location) :
  loc ∈ locs → l ∈ getNearbyLocations bd loc →
  ∃ xs, amap_get (address (owner (getTile bd l)))
          (alertPlayerMap_of bd newOwner prevOwner locs) = Some xs ∧
        JSON_stringify loc ∈ xs.
Proof.
  unfold alertPlayerMap_of. generalize ([] : list (string * list string)).
  induction locs as [|loc0 locs IH]; intros m Hloc Hl; simpl.
  - by apply elem_of_nil in Hloc.
  - apply elem_of_cons in Hloc as [->|Hloc]; [|by apply IH].
    destruct (alert_visits_enter bd newOwner prevOwner loc0 l _ m Hl)
      as (xs1 & Hget1 & Hin1).
    destruct (alertPlayerMap_grows bd newOwner prevOwner locs _ _ _ Hget1)
      as (xs2 & Hget2 & Hsub2).
    exists xs2. split; [done|]. by apply Hsub2.
Qed.

(** No player has two entries. *)
Lemma amap_add_keys (k x : string) (m : list (string * list string)) :
  (amap_add k x m).*1 = m.*1.
Proof.
  induction m as [|[k0 xs] m IH]; [done|]. cbn [amap_add].
  destruct (decide (k0 = k)); rewrite !fmap_cons; [done|]. by rewrite IH.
Qed.

Lemma alert_visit_NoDup (bd : Board) (newOwner prevOwner : string)
    (loc l : Location) (m : list (string * list string)) :
  NoDup m.*1 → NoDup (alert_visit bd newOwner prevOwner loc m l).*1.
Proof.
  intros Hm. unfold alert_visit. rewrite !amap_add_keys.
  unfold amap_init, amap_has. case_bool_decide as Hk; [done|].
  rewrite fmap_app. simpl. apply NoDup_app. split; [done|].
  split; [|apply NoDup_singleton].
  intros k Hin ->%list_elem_of_singleton. done.
Qed.

Lemma alertPlayerMap_NoDup (bd : Board) (newOwner prevOwner : string)
    (locs : list Location) :
  NoDup (alertPlayerMap_of bd newOwner prevOwner locs).*1.
Proof.
  unfold alertPlayerMap_of.
  assert (Hin : ∀ loc ls m, NoDup m.*1 →
            NoDup (foldl (alert_visit bd newOwner prevOwner loc) m ls).*1).
  { intros loc ls. induction ls as [|l ls IH]; intros m Hm; simpl; [done|].
    apply IH. by apply alert_visit_NoDup. }
  assert (Hgen : ∀ m, NoDup m.*1 →
            NoDup (foldl (λ m loc,
                     foldl (alert_visit bd newOwner prevOwner loc) m
                           (getNearbyLocations bd loc)) m locs).*1).
  { induction locs as [|loc locs IH]; intros m Hm; simpl; [done|].
    apply IH. by apply Hin. }
  apply Hgen. constructor.
Qed.

Lemma amap_get_elem_of (k : string) (xs : list string)
    (m : list (string * list string)) :
  NoDup m.*1 → (k, xs) ∈ m ↔ amap_get k m = Some xs.
Proof.
  induction m as [|[k0 xs0] m IH]; simpl; intros Hnd.
  - split; [by intros ?%elem_of_nil|done].
  - apply NoDup_cons in Hnd as [Hk0 Hnd]. rewrite elem_of_cons.
    destruct (decide (k0 = k)) as [->|Hne].
    + split; [|intros [= ->]; by left].
      intros [[= ->]|Hin]; [done|].
      exfalso. apply Hk0. apply list_elem_of_fmap. by exists (k, xs).
    + rewrite <- IH by done. split; [|by right].
      intros [[= -> ->]|?]; done.
Qed.

(** Who is sent an alert: the players with an entry and a session. *)
Lemma alerts_elem_of (s : State) (newOwner prevOwner : string)
    (locs : list Location) (sid : string) (tiles : list string) :
  Emit (Some sid) (updateDisplay tiles) ∈ alerts s newOwner prevOwner locs ↔
  ∃ pk, amap_get pk (alertPlayerMap_of (b s) newOwner prevOwner locs)
          = Some tiles ∧
        addressToId s !! pk = Some sid ∧ sid ≠ EmptyString.
Proof.
  unfold alerts. rewrite list_elem_of_In, in_flat_map. split.
  - intros ([pk xs] & Hin & He). simpl in He.
    apply list_elem_of_In in Hin, He.
    apply amap_get_elem_of in Hin; [|apply alertPlayerMap_NoDup].
    destruct (addressToId s !! pk) as [sid'|] eqn:Hsid;
      [|by apply elem_of_nil in He].
    destruct (truthy sid') eqn:Htr; [|by apply elem_of_nil in He].
    apply list_elem_of_singleton in He. injection He as -> ->.
    exists pk. by rewrite <- truthy_true.
  - intros (pk & Hget & Hsid & Hne).
    apply amap_get_elem_of in Hget; [|apply alertPlayerMap_NoDup].
    exists (pk, tiles). split; [by apply list_elem_of_In|].
    simpl. rewrite Hsid. apply truthy_true in Hne. rewrite Hne. by left.
Qed.

Lemma reachable_move_live (s : State) (k : string) (move : ClaimedMove) :
  reachable s → claimedMoves s !! k = Some move → inRecoveryMode s = false.
Proof.
  intros Hreach Hk. destruct (inRecoveryMode s) eqn:Hrec; [|done].
  destruct (reachable_recovery_inv s Hreach Hrec) as (_ & _ & _ & Hmv).
  by rewrite Hmv, lookup_empty in Hk.
Qed.

(** ** Affected locations and alerts of a finalized move *)

(** C4, as the server has it.  For a finalized move whose claim is
    stored, the affected locations always start with the location moved
    from.  When the destination changes owner and the tile there was a
    capital, they are, besides, the locations of the tiles of every city
    the board lists for the previous owner; when it was a city centre
    and no capital, they are, besides, the locations of the tiles of that
    city; in every other case, besides, the destination alone.  Every
    player who has a session and owns, on the updated board, a tile in
    the neighbourhood of an affected location is sent an
    [updateDisplay], and the list sent holds every affected location
    around which the player owns a tile. *)
Theorem move_finalize_affected_and_alerted (s : State)
    (hUFrom hUTo : string) (move : ClaimedMove) :
  reachable s →
  claimedMoves s !! String.append hUFrom hUTo = Some move →
  let bd := b s in
  let tTo := getTile bd (loc (uTo move)) in
  let newOwner := address (owner (uTo move)) in
  let prevOwner := address (owner tTo) in
  let locs := updatedLocs_of bd move in
  let finalize := onMoveFinalize hUFrom hUTo in
  let bd' := b (exec finalize s) in
  bd' = setTile (setTile bd (uFrom move)) (uTo move) ∧
  (prevOwner ≠ newOwner → isCapital tTo = true →
   ∀ l, l ∈ locs ↔
        l = loc (uFrom move) ∨
        ∃ cid locString,
          cid ∈ default [] (playerCities bd prevOwner) ∧
          locString ∈ default [] (cityTiles bd cid) ∧
          JSON_parse locString = Some l) ∧
  (prevOwner ≠ newOwner → isCapital tTo = false → isCityCenter tTo = true →
   locs = loc (uFrom move)
          :: omap JSON_parse (default [] (cityTiles bd (Tile_cityId tTo)))) ∧
  (prevOwner = newOwner ∨ (isCapital tTo = false ∧ isCityCenter tTo = false) →
   locs = [loc (uFrom move); loc (uTo move)]) ∧
  (∀ pk sid,
     addressToId s !! pk = Some sid → sid ≠ EmptyString → near bd' locs pk →
     ∃ tiles,
       Emit (Some sid) (updateDisplay tiles) ∈ effects finalize s ∧
       ∀ loc l, loc ∈ locs → l ∈ getNearbyLocations bd' loc →
                address (owner (getTile bd' l)) = pk →
                JSON_stringify loc ∈ tiles).
Proof.
  intros Hreach Hmove bd tTo newOwner prevOwner locs finalize bd'.
  pose proof (reachable_move_live _ _ _ Hreach Hmove) as Hrec.
  pose proof (onMoveFinalize_claimed_run s hUFrom hUTo move Hrec Hmove) as Hrun.
  simpl in Hrun. fold bd tTo prevOwner newOwner locs in Hrun.
  set (s' := finalized_state s (String.append hUFrom hUTo) move) in *.
  set (s'' := exec dequeueTileIfDAConnected s') in *.
  destruct (dequeue_frame s') as (_ & Hb & _ & _ & Haddr & _).
  fold s'' in Hb, Haddr. simpl in Hb, Haddr.
  pose proof (dequeue_effects s') as Hsaved.
  assert (Hbd' : bd' = setTile (setTile bd (uFrom move)) (uTo move)).
  { subst bd' finalize. unfold exec. rewrite Hrun. exact Hb. }
  assert (Heff : effects finalize s
                 = effects dequeueTileIfDAConnected s'
                   ++ alerts s'' newOwner prevOwner locs).
  { subst finalize. unfold effects at 1. by rewrite Hrun. }
  assert (Halert : ∀ sid tiles,
            Emit (Some sid) (updateDisplay tiles) ∈ effects finalize s ↔
            ∃ pk, amap_get pk (alertPlayerMap_of bd' newOwner prevOwner locs)
                    = Some tiles ∧
                  addressToId s !! pk = Some sid ∧ sid ≠ EmptyString).
  { assert (Hb' : b s'' = bd') by (by rewrite Hbd').
    intros sid tiles. rewrite Heff, elem_of_app, alerts_elem_of.
    rewrite Hb', Haddr. split; [|by right].
    intros [Hin|?]; [|done]. exfalso.
    eapply Forall_forall in Hsaved as (da & enc & Heq); [|exact Hin].
    discriminate Heq. }
  split; [done|]. split; [|split; [|split]].
  - intros Hchg Hcap l. subst locs. unfold updatedLocs_of.
    fold bd tTo prevOwner newOwner.
    apply String.eqb_neq in Hchg. rewrite Hchg, Hcap. simpl.
    rewrite elem_of_cons, list_elem_of_In, in_flat_map.
    split; (intros [?|Hl]; [by left|right]).
    + destruct Hl as (cid & Hcid & Hl).
      apply list_elem_of_In, list_elem_of_omap in Hl as (locString & ? & ?).
      exists cid, locString. by rewrite list_elem_of_In.
    + destruct Hl as (cid & locString & Hcid & Hls & Hparse).
      exists cid. split; [by apply list_elem_of_In|].
      apply list_elem_of_In, list_elem_of_omap. by exists locString.
  - intros Hchg Hcap Hcc. subst locs. unfold updatedLocs_of.
    fold bd tTo prevOwner newOwner.
    apply String.eqb_neq in Hchg. by rewrite Hchg, Hcap, Hcc.
  - intros Hplain. subst locs. unfold updatedLocs_of.
    fold bd tTo prevOwner newOwner.
    destruct Hplain as [Hsame|[Hcap Hcc]].
    + apply String.eqb_eq in Hsame. by rewrite Hsame.
    + rewrite Hcap, Hcc. by rewrite !andb_false_r.
  - intros pk sid Hsid Hne Hnear.
    apply alertPlayerMap_keys with (newOwner := newOwner)
      (prevOwner := prevOwner) in Hnear as [tiles Hget].
    exists tiles. split; [apply Halert; by exists pk|].
    intros loc l Hloc Hl Hown.
    destruct (alertPlayerMap_holds bd' newOwner prevOwner locs loc l Hloc Hl)
      as (xs & Hget' & Hin).
    rewrite Hown, Hget in Hget'. by injection Hget' as <-.
Qed.

(** ** Decryption requests *)

Lemma decrypt_run (s : State) (sid a : string) (l : Location) :
  idToAddress s !! sid = Some a → inRecoveryMode s = false →
  decrypt sid l s
    = (tt, s,
       [Emit (Some sid)
          (decryptResponse
             (toJSON (if noFog (b s) l (mkPlayer EmptyString a)
                      then getTile (b s) l else Tile_mystery l)))]).
Proof.
  intros Hsid Hrec. unfold decrypt. unfold_M. simpl. rewrite Hsid, Hrec.
  by destruct (noFog _ _ _).
Qed.

End Properties.

(** * Properties on the board of the spec *)

Section SpecBoard.
Import SpecGame.
Context {EX : @Externals SpecGame.game}.

Lemma owns_owned_by (bd : board) (a : string) (l : Location) :
  owns bd a l = true ↔ owned_by bd a l.
Proof.
  unfold owns, owned_by. destruct (t_owner (board_getTile bd l)) as [p|].
  - rewrite String.eqb_eq. split; [by exists p|]. by intros (? & [= <-] & ?).
  - split; [done|]. by intros (? & ? & _).
Qed.

Lemma board_noFog_visible (bd : board) (l : Location) (p : Player) :
  board_noFog bd l p = true ↔ visible bd l (address p).
Proof.
  unfold board_noFog, visible.
  rewrite orb_true_iff, owns_owned_by, existsb_exists.
  split; (intros [?|(l' & Hl' & Hown)]; [by left|right; exists l']).
  - by rewrite list_elem_of_In, <- owns_owned_by.
  - by rewrite <- list_elem_of_In, owns_owned_by.
Qed.

(** C6: a logged-in player who asks to decrypt a location is sent the
    true tile of the board when the location is visible to the player
    (the player owns the tile there or a tile of its neighbourhood) and
    the mystery tile of the location otherwise, which holds the location
    and neither owner, resources nor city of the true tile; the request
    changes nothing. *)
Theorem decrypt_masked_view (s : State) (sid a : string) (l : Location) :
  reachable s → idToAddress s !! sid = Some a →
  exec (decrypt sid l) s = s ∧
  (visible (b s) l a →
   effects (decrypt sid l) s
     = [Emit (Some sid) (decryptResponse (board_getTile (b s) l))]) ∧
  (¬ visible (b s) l a →
   effects (decrypt sid l) s
     = [Emit (Some sid) (decryptResponse (mystery l))]) ∧
  mystery l = mkTile None l 0 0 Bare.
Proof.
  intros Hreach Hsid.
  pose proof (reachable_session_live _ _ _ Hreach Hsid) as Hrec.
  pose proof (decrypt_run s sid a l Hsid Hrec) as Hrun.
  unfold exec, effects. rewrite Hrun. simpl.
  split; [done|]. split; [|split; [|done]]; intros Hvis.
  - apply (board_noFog_visible _ _ (mkPlayer EmptyString a)) in Hvis.
    by rewrite Hvis.
  - destruct (board_noFog (b s) l (mkPlayer EmptyString a)) eqn:Hfog; [|done].
    exfalso. apply Hvis.
    by apply (board_noFog_visible _ _ (mkPlayer EmptyString a)).
Qed.

End SpecBoard.

(** * Further properties of the server *)

Section MoreProperties.
Context `{EX : Externals}.

#[local] Arguments alertPlayers : simpl never.
#[local] Arguments updatedLocs_of : simpl never.
#[local] Arguments alertPlayerMap_of : simpl never.
#[local] Arguments visibleTiles_of : simpl never.
#[local] Arguments dequeueTileIfDAConnected : simpl never.
#[local] Arguments spawnLocation : simpl never.
#[local] Arguments disconnect : simpl never.
#[local] Arguments socket_disconnect : simpl never.

Ltac open_M :=
  unfold exec, effects, emit, console_log, console_error,
    bind, ret, get, modify, effect in *.

(** The fields of a state after a chain of updates, read by need. *)
Ltac fields :=
  lazy beta iota zeta delta
    [set_inRecoveryMode set_b set_cityId set_idToAddress set_addressToId
     set_claimedMoves set_claimedSpawns set_currentBlockHeight
     set_playerLatestBlock set_socketIdDA set_queuedTilesDA
     set_recoveryModeIndex set_encryptions
     inRecoveryMode b cityId idToAddress addressToId claimedMoves
     claimedSpawns currentBlockHeight playerLatestBlock socketIdDA
     queuedTilesDA recoveryModeIndex encryptions
     exec effects bind ret get modify effect emit
     console_log console_error fst snd].

(** A computation is taken apart along its binds and branches; what is
    left are its updates of the state and the sockets it closes. *)
Ltac split_steps_open :=
  unfold emit, console_log, console_error;
  repeat match goal with
  | |- steps _ (socket_disconnect _) => fail 1
  | |- steps _ (disconnect _) => fail 1
  | |- steps _ (ret _) => apply steps_ret; solve [apply _]
  | |- steps _ get => apply steps_get; solve [apply _]
  | |- steps _ (effect _) => apply steps_effect; solve [apply _]
  | |- steps _ (for_each _ _) =>
      apply steps_for_each; [solve [apply _]|intros ?]
  | |- steps _ (bind _ _) => apply steps_bind; [solve [apply _]| |intros ?]
  | |- steps _ (modify _) => apply steps_modify; intros ?
  | |- steps _ _ => progress cbv beta iota zeta
  | |- steps _ _ => case_match
  end.

(** The closing of a socket writes the directory and the place of the
    DA node only. *)
Ltac close_sockets :=
  try (first [apply steps_socket_disconnect|apply steps_disconnect];
       intros ? ? ? ?).

Ltac split_steps := split_steps_open; close_sockets.

(** ** Relations that the queue and the alerts keep *)

Lemma steps_enqueueTile (R : State → State → Prop) `{!PreOrder R}
    (tile : Tile) :
  (∀ s q n, R s (set_encryptions n (set_queuedTilesDA q s))) →
  steps R (enqueueTile tile).
Proof. intros HR. unfold enqueueTile. split_steps. apply HR. Qed.

Lemma steps_dequeue (R : State → State → Prop) `{!PreOrder R} :
  (∀ s q, R s (set_queuedTilesDA q s)) →
  steps R dequeueTileIfDAConnected.
Proof. intros HR. unfold dequeueTileIfDAConnected. split_steps. apply HR. Qed.

Lemma steps_alertPlayers (R : State → State → Prop) `{!PreOrder R}
    (newOwner prevOwner : string) (updatedLocs : list Location) :
  steps R (alertPlayers newOwner prevOwner updatedLocs).
Proof. unfold alertPlayers. split_steps. Qed.

(** A handler is taken apart down to its updates of the state and the
    sockets it closes. *)
Ltac handler_steps_open :=
  unfold login, getSpawnSignature, handshakeDA, getMoveSignature, decrypt,
    sendRecoveredTileResponse, finishRecovery, saveToDatabaseResponse,
    onSpawnAttempt, onMoveFinalize, onBlock, upkeepClaimedMoves;
  split_steps_open;
  try first
    [ apply steps_enqueueTile; [solve [apply _]|intros ? ? ?]
    | apply steps_dequeue; [solve [apply _]|intros ? ?]
    | apply steps_alertPlayers; solve [apply _] ].

Ltac handler_steps := handler_steps_open; close_sockets.

(** A socket is closed in the state at hand. *)
Lemma steps_socket_disconnect_at (R : State → State → Prop) (sid : string) :
  (∀ s, R s (disconnected_state s sid)) → steps R (socket_disconnect sid).
Proof.
  intros HR s. unfold exec. rewrite socket_disconnect_run. apply HR.
Qed.

(** ** Computations taken apart, with what they send *)

Lemma effects_bind {A B} (m : M A) (k : A → M B) (s : State) :
  effects (bind m k) s = effects m s ++ effects (k (m s).1.1) (exec m s).
Proof.
  unfold effects, exec, bind. destruct (m s) as [[a s1] out1]. simpl.
  by destruct (k a s1) as [[y s2] out2].
Qed.

Lemma runs_bind (R : State → list Effect → State → Prop) `{!Sequential R}
    {A B} (m : M A) (k : A → M B) :
  runs R m → (∀ a, runs R (k a)) → runs R (bind m k).
Proof.
  intros Hm Hk s. rewrite exec_bind, effects_bind.
  eapply seq_app; [apply Hm|apply Hk].
Qed.

Lemma runs_ret (R : State → list Effect → State → Prop) `{!Sequential R}
    {A} (a : A) : runs R (ret a).
Proof. intros s. apply seq_nil. Qed.

Lemma runs_get (R : State → list Effect → State → Prop) `{!Sequential R} :
  runs R get.
Proof. intros s. apply seq_nil. Qed.

Lemma runs_effect (R : State → list Effect → State → Prop) (e : Effect) :
  (∀ s, R s [e] s) → runs R (effect e).
Proof. intros He s. apply He. Qed.

Lemma runs_modify (R : State → list Effect → State → Prop)
    (f : State → State) :
  (∀ s, R s [] (f s)) → runs R (modify f).
Proof. intros Hf s. apply Hf. Qed.

Lemma runs_for_each (R : State → list Effect → State → Prop)
    `{!Sequential R} {A} (f : A → M unit) (xs : list A) :
  (∀ x, runs R (f x)) → runs R (for_each f xs).
Proof.
  intros Hf. induction xs as [|x xs IH]; simpl.
  - by apply runs_ret.
  - apply runs_bind; [done|apply Hf|]. by intros _.
Qed.

Lemma runs_socket_disconnect (R : State → list Effect → State → Prop)
    (sid : string) :
  (∀ s, R s [SocketDisconnect sid; ConsoleLog (Disconnected sid)]
          (disconnected_state s sid)) →
  runs R (socket_disconnect sid).
Proof.
  intros HR s. unfold exec, effects. rewrite socket_disconnect_run. apply HR.
Qed.

Lemma runs_disconnect (R : State → list Effect → State → Prop)
    (sid : string) :
  (∀ s, R s [ConsoleLog (Disconnected sid)] (disconnected_state s sid)) →
  runs R (disconnect sid).
Proof.
  intros HR s. unfold exec, effects. rewrite disconnect_run. apply HR.
Qed.

Ltac split_runs :=
  unfold emit, console_log, console_error;
  repeat match goal with
  | |- runs _ (socket_disconnect _) => fail 1
  | |- runs _ (disconnect _) => fail 1
  | |- runs _ (ret _) => apply runs_ret; solve [apply _]
  | |- runs _ get => apply runs_get; solve [apply _]
  | |- runs _ (effect _) => apply runs_effect; intros ?
  | |- runs _ (for_each _ _) =>
      apply runs_for_each; [solve [apply _]|intros ?]
  | |- runs _ (bind _ _) => apply runs_bind; [solve [apply _]| |intros ?]
  | |- runs _ (modify _) => apply runs_modify; intros ?
  | |- runs _ _ => progress cbv beta iota zeta
  | |- runs _ _ => case_match
  end.

(** ** The board has three writers *)

Global Instance same_board_preorder : PreOrder same_board.
Proof.
  split; [by intros s|].
  intros s1 s2 s3 H12 H23. unfold same_board in *. congruence.
Qed.

Lemma same_board_enqueueTile (tile : Tile) : steps same_board (enqueueTile tile).
Proof. unfold enqueueTile. split_steps. by unfold same_board. Qed.

Lemma same_board_dequeue : steps same_board dequeueTileIfDAConnected.
Proof. unfold dequeueTileIfDAConnected. split_steps. by unfold same_board. Qed.

(** X1: the board is written by three handlers only.  Every event other
    than a spawn attempt resolved as successful, a finalized move and a
    tile recovered from the DA node leaves the board as it is: logins,
    proposals, decryptions, disconnections, DA handshakes and
    acknowledgements, failed spawn attempts and new blocks. *)
Theorem board_writers (e : Event) (s : State) :
  writes_board e = false → b (exec (handle e) s) = b s.
Proof.
  intros Hw. change (same_board s (exec (handle e) s)).
  revert s. change (steps same_board (handle e)).
  destruct e as [| | | | | | | | |player []| |]; try discriminate Hw; simpl.
  - unfold login. split_steps; by unfold same_board.
  - unfold getSpawnSignature. split_steps; by unfold same_board.
  - unfold handshakeDA. split_steps; by unfold same_board.
  - unfold getMoveSignature. split_steps;
      first [apply same_board_enqueueTile|apply same_board_dequeue
            |by unfold same_board].
  - unfold decrypt. split_steps; by unfold same_board.
  - unfold finishRecovery. split_steps; by unfold same_board.
  - unfold saveToDatabaseResponse. split_steps;
      first [apply same_board_dequeue|by unfold same_board].
  - split_steps; by unfold same_board.
  - unfold onSpawnAttempt. split_steps; by unfold same_board.
  - unfold onBlock, upkeepClaimedMoves. split_steps; by unfold same_board.
Qed.

(** ** The session directory *)

Global Instance same_directory_preorder : PreOrder same_directory.
Proof.
  split; [by intros s|].
  intros s1 s2 s3 [H12 H12'] [H23 H23']. unfold same_directory in *.
  split; congruence.
Qed.

Global Instance directory_kept_preorder : PreOrder directory_kept.
Proof.
  split; [by intros s Hinv|].
  intros s1 s2 s3 H12 H23 Hinv. by apply H23, H12.
Qed.

(** The closing of a socket keeps the directory consistent. *)
Lemma directory_inv_disconnected (s : State) (sid : string) :
  directory_inv s → directory_inv (disconnected_state s sid).
Proof.
  intros Hinv. unfold disconnected_state.
  destruct (idToAddress s !! sid) as [a|] eqn:Hsid;
    [|case_bool_decide; exact Hinv].
  destruct (truthy a); [|case_bool_decide; exact Hinv].
  destruct (Hinv _ _ Hsid) as [_ Hback].
  assert (Hd : directory_inv
                 (set_idToAddress (delete sid (idToAddress s))
                    (set_addressToId (delete a (addressToId s)) s))).
  { intros sid0 a0. simpl.
    destruct (decide (sid = sid0)) as [->|Hne].
    - by rewrite lookup_delete_eq.
    - rewrite lookup_delete_ne by done. intros Ha0.
      destruct (Hinv _ _ Ha0) as [Hne0 Hback0]. split; [done|].
      rewrite lookup_delete_ne; [done|]. intros ->. congruence. }
  case_bool_decide; exact Hd.
Qed.

Lemma directory_kept_socket_disconnect (sid : string) :
  steps directory_kept (socket_disconnect sid).
Proof.
  intros s Hinv. unfold exec. rewrite socket_disconnect_run.
  by apply directory_inv_disconnected.
Qed.

Lemma directory_kept_disconnect (sid : string) :
  steps directory_kept (disconnect sid).
Proof.
  intros s Hinv. unfold exec. rewrite disconnect_run.
  by apply directory_inv_disconnected.
Qed.

(** What the closing of a socket does to the directory. *)
Lemma disconnect_directory (s : State) (sid : string) :
  match idToAddress s !! sid with
  | Some a =>
      if truthy a then
        idToAddress (exec (disconnect sid) s) = delete sid (idToAddress s) ∧
        addressToId (exec (disconnect sid) s) = delete a (addressToId s)
      else same_directory s (exec (disconnect sid) s)
  | None => same_directory s (exec (disconnect sid) s)
  end.
Proof.
  unfold exec. rewrite disconnect_run. cbn [fst snd].
  unfold disconnected_state, same_directory.
  destruct (idToAddress s !! sid) as [a|]; [destruct (truthy a)|];
    by case_bool_decide.
Qed.

(** What a login does to the directory: it is refused and the socket is
    closed, or it binds the socket and the address to each other. *)
Lemma login_directory (s : State) (sid address sigStr : string) :
  exec (login sid address sigStr) s = disconnected_state s sid ∨
  (address ≠ EmptyString ∧ addressToId s !! address = None ∧
   idToAddress (exec (login sid address sigStr) s)
     = <[sid := address]> (idToAddress s) ∧
   addressToId (exec (login sid address sigStr) s)
     = <[address := sid]> (addressToId s)).
Proof.
  destruct (decide (inRecoveryMode s = true
                    ∨ is_Some (addressToId s !! address)
                    ∨ verifyMessage sid sigStr ≠ Some address
                    ∨ address = EmptyString)) as [Href|Hacc].
  - left. unfold login. open_M. cbv beta iota.
    destruct (inRecoveryMode s) eqn:Hrec;
      [by rewrite socket_disconnect_run|].
    case_bool_decide as Hbound; [by rewrite socket_disconnect_run|].
    destruct (verifyMessage sid sigStr) as [sender|] eqn:Hsig;
      [|by rewrite socket_disconnect_run].
    destruct (truthy sender) eqn:Htr; cbn [negb orb];
      [|by rewrite socket_disconnect_run].
    destruct (String.eqb_spec address sender) as [->|Hne]; cbn [negb];
      [|by rewrite socket_disconnect_run].
    apply truthy_true in Htr. by destruct Href as [?|[?|[?|?]]].
  - right.
    assert (Hrec : inRecoveryMode s = false).
    { destruct (inRecoveryMode s); [|done]. destruct Hacc. by left. }
    assert (Hfree : addressToId s !! address = None).
    { destruct (addressToId s !! address) eqn:Hb; [|done].
      destruct Hacc. right; left. by eexists. }
    assert (Hsig : verifyMessage sid sigStr = Some address).
    { destruct (decide (verifyMessage sid sigStr = Some address)); [done|].
      destruct Hacc. by right; right; left. }
    assert (Hne : address ≠ EmptyString).
    { intros ->. destruct Hacc. by right; right; right. }
    split; [done|]. split; [done|].
    by apply login_accepted_run.
Qed.

(** What a request for a spawn signature does to the directory: it is
    refused and the socket is closed, or it writes the binding of the
    socket once more. *)
Lemma getSpawnSignature_directory (s : State) (ch : Chain)
    (sid symbol address sigStr playerSecret : string) :
  let s' := exec (getSpawnSignature ch sid symbol address sigStr playerSecret)
              s in
  s' = disconnected_state s sid ∨
  ∃ sender, idToAddress s !! sid = Some sender ∧
            idToAddress s' = <[sid := sender]> (idToAddress s) ∧
            addressToId s' = <[sender := sid]> (addressToId s).
Proof.
  destruct s. unfold getSpawnSignature. fields.
  destruct (idToAddress0 !! sid) as [sender|] eqn:Hsid;
    [|left; by rewrite socket_disconnect_run].
  destruct (inRecoveryMode0 || negb (truthy sender));
    [left; by rewrite socket_disconnect_run|].
  case_bool_decide; [left; by rewrite socket_disconnect_run|].
  case_bool_decide; [left; by rewrite socket_disconnect_run|].
  destruct (BigInt playerSecret) as [playerChallenge|];
    [|left; by rewrite socket_disconnect_run].
  destruct (_ || _); [left; by rewrite socket_disconnect_run|]. fields.
  right. exists sender. split; [done|].
  by destruct (t_length b0 =? 0).
Qed.

Lemma directory_kept_handle (e : Event) :
  binds_socket e = false → steps directory_kept (handle e).
Proof.
  intros Hb. destruct e; try discriminate Hb; simpl; handler_steps_open;
    first [apply directory_kept_socket_disconnect
          |apply directory_kept_disconnect
          |by intros ?].
Qed.

Lemma directory_inv_step (e : Event) (s : State) :
  directory_inv s → directory_inv (exec (handle e) s).
Proof.
  intros Hinv.
  destruct (binds_socket e) eqn:Hb;
    [|by apply (directory_kept_handle e Hb s)].
  destruct e; try discriminate Hb; simpl.
  - destruct (login_directory s sid address0 sigStr)
      as [->|(Hne & Hfree & Hid & Haddr)];
      [by apply directory_inv_disconnected|].
    intros sid0 a. rewrite Hid, Haddr.
    destruct (decide (sid = sid0)) as [->|Hsid].
    + rewrite lookup_insert_eq. intros [= <-]. by rewrite lookup_insert_eq.
    + rewrite lookup_insert_ne by done. intros Ha.
      destruct (Hinv _ _ Ha) as [Hane Hback]. split; [done|].
      rewrite lookup_insert_ne; [done|]. intros ->. congruence.
  - destruct (getSpawnSignature_directory s ch sid symbol0 address0 sigStr
                playerSecret) as [->|(sender & Hsid & Hid & Haddr)];
      [by apply directory_inv_disconnected|].
    destruct (Hinv _ _ Hsid) as [Hne Hback].
    intros sid0 a. rewrite Hid, Haddr.
    rewrite (insert_id _ _ _ Hsid), (insert_id _ _ _ Hback). apply Hinv.
Qed.

Lemma reachable_directory_inv (s : State) : reachable s → directory_inv s.
Proof.
  induction 1 as [s Hinit|s e _ IH].
  - destruct Hinit as (Hid & _). intros sid a. by rewrite Hid, lookup_empty.
  - by apply directory_inv_step.
Qed.

(** X2: in every state the server reaches, a socket that is bound is
    bound to a non-empty address which is bound back to that socket;
    hence no two sockets are bound to the same address. *)
Theorem session_directory_consistent (s : State) :
  reachable s →
  (∀ sid a, idToAddress s !! sid = Some a →
            a ≠ EmptyString ∧ addressToId s !! a = Some sid) ∧
  (∀ sid1 sid2 a, idToAddress s !! sid1 = Some a →
                  idToAddress s !! sid2 = Some a → sid1 = sid2).
Proof.
  intros Hreach. pose proof (reachable_directory_inv s Hreach) as Hinv.
  split; [exact Hinv|]. intros sid1 sid2 a H1 H2.
  destruct (Hinv _ _ H1) as [_ Hb1]. destruct (Hinv _ _ H2) as [_ Hb2].
  congruence.
Qed.

(** X3: the closing of a bound socket releases its binding in both
    directions and touches no other binding, the board, the claims or
    the queue; the address can then log in again on another socket. *)
Theorem disconnect_releases_binding (s : State) (sid a : string) :
  reachable s → idToAddress s !! sid = Some a →
  let s' := exec (disconnect sid) s in
  idToAddress s' = delete sid (idToAddress s) ∧
  addressToId s' = delete a (addressToId s) ∧
  b s' = b s ∧ claimedMoves s' = claimedMoves s ∧
  claimedSpawns s' = claimedSpawns s ∧
  queuedTilesDA s' = queuedTilesDA s ∧
  effects (disconnect sid) s = [ConsoleLog (Disconnected sid)] ∧
  ∀ sid2 sigStr,
    verifyMessage sid2 sigStr = Some a →
    idToAddress (exec (login sid2 a sigStr) s') !! sid2 = Some a ∧
    addressToId (exec (login sid2 a sigStr) s') !! a = Some sid2.
Proof.
  intros Hreach Hsid s'.
  assert (Hs' : s' = disconnected_state s sid).
  { subst s'. unfold exec. by rewrite disconnect_run. }
  clearbody s'. subst s'. unfold effects. rewrite disconnect_run.
  cbn [fst snd].
  destruct (reachable_directory_inv s Hreach _ _ Hsid) as [Hne Hback].
  pose proof (reachable_session_live _ _ _ Hreach Hsid) as Hlive.
  assert (Hfields : ∀ s1 : State,
    s1 = disconnected_state s sid →
    idToAddress s1 = delete sid (idToAddress s) ∧
    addressToId s1 = delete a (addressToId s) ∧
    b s1 = b s ∧ claimedMoves s1 = claimedMoves s ∧
    claimedSpawns s1 = claimedSpawns s ∧
    queuedTilesDA s1 = queuedTilesDA s ∧
    inRecoveryMode s1 = false).
  { intros s1 ->. unfold disconnected_state. rewrite Hsid.
    apply truthy_true in Hne. rewrite Hne.
    by case_bool_decide. }
  destruct (Hfields _ eq_refl) as (Hid & Haddr & Hb & Hm & Hsp & Hq & Hrec).
  repeat (split; [done|]).
  intros sid2 sigStr Hsig.
  destruct (login_accepted_run (disconnected_state s sid) sid2 a sigStr)
    as [Hid2 Haddr2]; try done.
  { rewrite Haddr. apply lookup_delete_eq. }
  rewrite Hid2, Haddr2. by rewrite !lookup_insert_eq.
Qed.

(** X4: a login that is accepted on a fresh socket, followed by the
    closing of that socket, leaves the directory as it was before. *)
Theorem login_disconnect_round_trip (s : State) (sid address sigStr : string) :
  inRecoveryMode s = false →
  idToAddress s !! sid = None → addressToId s !! address = None →
  verifyMessage sid sigStr = Some address → address ≠ EmptyString →
  let s1 := exec (login sid address sigStr) s in
  let s2 := exec (disconnect sid) s1 in
  idToAddress s1 !! sid = Some address ∧
  addressToId s1 !! address = Some sid ∧
  idToAddress s2 = idToAddress s ∧ addressToId s2 = addressToId s.
Proof.
  intros Hrec Hsid Hfree Hsig Hne s1 s2.
  destruct (login_accepted_run s sid address sigStr Hrec Hfree Hsig Hne)
    as [Hid1 Haddr1].
  fold s1 in Hid1, Haddr1.
  assert (Hb1 : idToAddress s1 !! sid = Some address).
  { rewrite Hid1. apply lookup_insert_eq. }
  split; [done|]. split; [rewrite Haddr1; apply lookup_insert_eq|].
  pose proof (disconnect_directory s1 sid) as Hd. fold s2 in Hd.
  rewrite Hb1 in Hd. apply truthy_true in Hne. rewrite Hne in Hd.
  destruct Hd as [Hid2 Haddr2]. rewrite Hid2, Haddr2, Hid1, Haddr1.
  split; by rewrite delete_insert_eq, delete_id.
Qed.

(** ** Recovery mode *)

Lemma turned_away_run (s : State) (sid : string) :
  socket_disconnect sid s = turned_away s sid.
Proof. apply socket_disconnect_run. Qed.

(** While the enclave recovers, the requests of a session do what the
    closing of its socket does. *)
Lemma recovering_closes (s : State) :
  inRecoveryMode s = true →
  (∀ sid address sigStr,
     login sid address sigStr s = socket_disconnect sid s) ∧
  (∀ ch sid symbol address sigStr playerSecret,
     getSpawnSignature ch sid symbol address sigStr playerSecret s
       = socket_disconnect sid s) ∧
  (∀ sid uFrom uTo,
     getMoveSignature sid uFrom uTo s = socket_disconnect sid s) ∧
  (∀ sid l, decrypt sid l s = socket_disconnect sid s) ∧
  (∀ player success, onSpawnAttempt player success s = (tt, s, [])) ∧
  (∀ hUFrom hUTo, onMoveFinalize hUFrom hUTo s = (tt, s, [])).
Proof.
  intros Hrec.
  assert (Hclose : ∀ r : unit * State * list Effect,
    (let '(y, s2, out2) := r in (y, s2, [] ++ out2)) = r).
  { by intros [[[] s2] out2]. }
  repeat split; intros.
  - unfold login. open_M. rewrite Hrec. apply Hclose.
  - unfold getSpawnSignature. open_M. rewrite Hrec.
    destruct (idToAddress s !! sid); apply Hclose.
  - unfold getMoveSignature. open_M. rewrite Hrec.
    destruct (idToAddress s !! sid); apply Hclose.
  - unfold decrypt. open_M. rewrite Hrec.
    destruct (idToAddress s !! sid); apply Hclose.
  - unfold onSpawnAttempt. open_M. by rewrite Hrec.
  - unfold onMoveFinalize. open_M. by rewrite Hrec.
Qed.

(** X5: while the enclave recovers, every request of a session (login,
    spawn signature, move signature, decryption) is turned away: the
    socket is closed, which releases it as when it leaves (its binding,
    and the place of the DA node if it held it), and nothing else
    changes or is sent; the two contract events are dropped without a
    trace. *)
Theorem recovery_mode_refuses (s : State) :
  inRecoveryMode s = true →
  (∀ sid address sigStr,
     login sid address sigStr s = turned_away s sid) ∧
  (∀ ch sid symbol address sigStr playerSecret,
     getSpawnSignature ch sid symbol address sigStr playerSecret s
       = turned_away s sid) ∧
  (∀ sid uFrom uTo,
     getMoveSignature sid uFrom uTo s = turned_away s sid) ∧
  (∀ sid l, decrypt sid l s = turned_away s sid) ∧
  (∀ player success, onSpawnAttempt player success s = (tt, s, [])) ∧
  (∀ hUFrom hUTo, onMoveFinalize hUFrom hUTo s = (tt, s, [])) ∧
  (∀ sid, inRecoveryMode (disconnected_state s sid) = true ∧
          b (disconnected_state s sid) = b s ∧
          queuedTilesDA (disconnected_state s sid) = queuedTilesDA s ∧
          claimedMoves (disconnected_state s sid) = claimedMoves s ∧
          claimedSpawns (disconnected_state s sid) = claimedSpawns s).
Proof.
  intros Hrec.
  destruct (recovering_closes s Hrec) as (Hl & Hs & Hm & Hd & Hsp & Hmv).
  repeat split; intros; rewrite <- ?turned_away_run; try done.
  all: destruct (disconnected_state_writes s sid) as (ids & addrs & da & ->);
    done.
Qed.

Global Instance same_mode_preorder : PreOrder same_mode.
Proof.
  split; [by intros s|].
  intros s1 s2 s3 H12 H23. unfold same_mode in *. congruence.
Qed.

Global Instance slot_kept_preorder (da : string) : PreOrder (slot_kept da).
Proof.
  split; [by intros s Hda|].
  intros s1 s2 s3 H12 H23 Hda. by apply H23, H12.
Qed.

Lemma same_mode_handle (e : Event) :
  (∀ sid, e ≠ EvRecoveryFinished sid) → steps same_mode (handle e).
Proof.
  intros Hne. destruct e; simpl; try (handler_steps; by unfold same_mode).
  by destruct (Hne sid).
Qed.

Lemma finishRecovery_run (s : State) (sid : string) :
  finishRecovery sid s
    = if bool_decide (socketIdDA s = Some sid)
      then (tt, set_inRecoveryMode false s, [ConsoleLog RecoveryFinished])
      else turned_away s sid.
Proof.
  unfold finishRecovery, turned_away. open_M. cbv beta iota.
  destruct (socketIdDA s) as [da|];
    [|rewrite bool_decide_eq_false_2 by done;
      by rewrite socket_disconnect_run].
  destruct (String.eqb_spec sid da) as [->|Hne]; cbn [negb].
  - by rewrite bool_decide_eq_true_2.
  - rewrite bool_decide_eq_false_2 by (intros [= ->]; done).
    by rewrite socket_disconnect_run.
Qed.

(** X6: recovery mode is left by one event only: while the enclave
    recovers, an event ends the recovery exactly when it is the report
    of the attached DA node that recovery is finished. *)
Theorem recovery_ends_by_DA_only (e : Event) (s : State) :
  inRecoveryMode s = true →
  inRecoveryMode (exec (handle e) s) = false ↔
  ∃ sid, e = EvRecoveryFinished sid ∧ socketIdDA s = Some sid.
Proof.
  intros Hrec. split.
  - intros Hlive.
    assert (Hcase : (∃ sid, e = EvRecoveryFinished sid)
                    ∨ (∀ sid, e ≠ EvRecoveryFinished sid)).
    { destruct e; first [left; by eexists|right; by intros]. }
    destruct Hcase as [[sid ->]|Hne].
    + exists sid. split; [done|]. simpl in Hlive. unfold exec in Hlive.
      rewrite finishRecovery_run in Hlive.
      case_bool_decide; [done|]. exfalso. unfold turned_away in Hlive.
      cbn [fst snd] in Hlive.
      destruct (disconnected_state_writes s sid) as (ids & addrs & da & Hw).
      rewrite Hw in Hlive. simpl in Hlive. congruence.
    + exfalso. assert (Hsame : same_mode s (exec (handle e) s)).
      { by apply same_mode_handle. }
      unfold same_mode in Hsame. congruence.
  - intros (sid & -> & Hda). simpl. unfold exec.
    rewrite finishRecovery_run. by rewrite bool_decide_eq_true_2.
Qed.

(** X22: once play is enabled it stays enabled: no run of events takes
    the server back to recovery mode. *)
Theorem play_never_suspended (s : State) (es : list Event) :
  inRecoveryMode s = false → inRecoveryMode (run es s) = false.
Proof.
  revert s. induction es as [|e es IH]; intros s Hlive; [done|].
  simpl. apply IH.
  destruct (inRecoveryMode (exec (handle e) s)) eqn:Hrec; [|done].
  apply recovery_mode_step in Hrec. congruence.
Qed.

(** ** The DA node *)

Lemma handshakeDA_run (s : State) (sid : string) :
  handshakeDA sid s
    = match socketIdDA s with
      | None => (tt, set_socketIdDA (Some sid) s,
                 [Emit (Some sid) (handshakeDAResponse (inRecoveryMode s))])
      | Some _ => turned_away s sid
      end.
Proof.
  unfold handshakeDA, turned_away. open_M. cbv beta iota.
  destruct (socketIdDA s); [|done]. by rewrite socket_disconnect_run.
Qed.

(** The closing of another socket leaves the DA node attached. *)
Lemma slot_kept_disconnected (s : State) (da sid : string) :
  sid ≠ da → slot_kept da s (disconnected_state s sid).
Proof.
  intros Hne Hda. unfold disconnected_state. rewrite Hda.
  rewrite bool_decide_eq_false_2 by congruence.
  destruct (idToAddress s !! sid) as [a|]; [|done]. by destruct (truthy a).
Qed.

Lemma slot_kept_handle (da : string) (e : Event) :
  requester e ≠ Some da → steps (slot_kept da) (handle e).
Proof.
  intros Hreq.
  assert (Hcase : (∃ sid, e = EvHandshakeDA sid)
                  ∨ (∀ sid, e ≠ EvHandshakeDA sid)).
  { destruct e; first [left; by eexists|right; by intros]. }
  destruct Hcase as [[sid ->]|Hh].
  - intros s Hda. simpl. unfold exec. rewrite handshakeDA_run, Hda.
    apply slot_kept_disconnected; [|done]. simpl in Hreq. congruence.
  - destruct e; simpl in Hreq; simpl;
      try (handler_steps_open;
           first [ apply steps_socket_disconnect_at; intros ?;
                   apply slot_kept_disconnected; congruence
                 | by intros ? ]).
    + by destruct (Hh sid).
    + intros s. unfold exec. rewrite disconnect_run.
      apply slot_kept_disconnected. congruence.
Qed.

(** X7: the server serves one DA node at a time.  While a DA node is
    attached, the handshake of any socket, and the recovery and backup
    messages of any other socket, are turned away: the socket is closed,
    which releases it as when it leaves.  The node stays attached
    through every event that does not come from its own socket; the
    closing of its own socket frees the place, be it that the socket
    leaves or that the server closes it, as it does when the node
    repeats its handshake. *)
Theorem da_slot_exclusive (s : State) (da : string) :
  socketIdDA s = Some da →
  (∀ sid, handshakeDA sid s = turned_away s sid) ∧
  (∀ sid, sid ≠ da →
     (∀ ch enc, sendRecoveredTileResponse ch sid enc s = turned_away s sid) ∧
     finishRecovery sid s = turned_away s sid ∧
     saveToDatabaseResponse sid s = turned_away s sid) ∧
  (∀ e, requester e ≠ Some da →
        socketIdDA (exec (handle e) s) = Some da) ∧
  socketIdDA (exec (disconnect da) s) = None ∧
  socketIdDA (exec (handshakeDA da) s) = None.
Proof.
  intros Hda.
  assert (Hfree : socketIdDA (disconnected_state s da) = None).
  { unfold disconnected_state. rewrite Hda.
    by rewrite bool_decide_eq_true_2. }
  split; [|split; [|split; [|split]]].
  - intros sid. by rewrite handshakeDA_run, Hda.
  - intros sid Hne.
    assert (Heqb : String.eqb sid da = false) by by apply String.eqb_neq.
    repeat split; intros; rewrite <- turned_away_run.
    + unfold sendRecoveredTileResponse. open_M. rewrite Hda, Heqb. cbn [negb].
      by destruct (socket_disconnect sid s) as [[[] s2] out2].
    + unfold finishRecovery. open_M. rewrite Hda, Heqb. cbn [negb].
      by destruct (socket_disconnect sid s) as [[[] s2] out2].
    + unfold saveToDatabaseResponse. open_M. rewrite Hda, Heqb. cbn [negb].
      by destruct (socket_disconnect sid s) as [[[] s2] out2].
  - intros e He. by apply (slot_kept_handle da e He s).
  - unfold exec. by rewrite disconnect_run.
  - unfold exec. by rewrite handshakeDA_run, Hda.
Qed.

(** X8: a tile recovered from the DA node is written to the board only
    if the message comes from the attached DA node, the envelope
    decrypts, and the hash of the tile is among the hashes the contract
    announced; the tile is then placed as the spawn of its owner if the
    owner is not yet on the board, and as it is otherwise. *)
Theorem recovered_tile_checked (s : State) (ch : Chain) (sid : string)
    (encTile : EncryptedTile) :
  b (exec (sendRecoveredTileResponse ch sid encTile) s) ≠ b s →
  socketIdDA s = Some sid ∧
  ∃ tile,
    decryptTile (ciphertext encTile) (iv encTile) (tag encTile) = Some tile ∧
    hash tile ∈ NewTile_hashes ch ∧
    b (exec (sendRecoveredTileResponse ch sid encTile) s)
      = if isSpawned (b s) (owner tile) then setTile (b s) tile
        else Board_spawn (b s) (loc tile) (owner tile) START_RESOURCES
               (Tile_cityId tile).
Proof.
  assert (Hrefused :
    b (let '(y, s2, out2) := socket_disconnect sid s in (y, s2, [] ++ out2)).1.2
    = b s).
  { rewrite socket_disconnect_run. cbn [fst snd].
    by destruct (disconnected_state_writes s sid) as (ids & addrs & da & ->). }
  unfold sendRecoveredTileResponse. open_M. cbv beta iota.
  destruct (socketIdDA s) as [da|] eqn:Hda; [|by intros []].
  destruct (String.eqb_spec sid da) as [->|Hne]; cbn [negb]; [|by intros []].
  clear Hrefused Hda. destruct s. fields.
  destruct (_ || _); [done|].
  destruct (decryptTile _ _ _) as [tile|]; [|done].
  case_bool_decide as Hhash; [|done].
  intros _. split; [done|]. exists tile. split; [done|]. split; [done|].
  by destruct (isSpawned b0 (owner tile)).
Qed.

(** ** What is sent, and to whom *)

Global Instance sends_sequential (ok : Effect → Prop) : Sequential (sends ok).
Proof.
  split.
  - intros s. split; [by left|]. intros eff Hin. by apply elem_of_nil in Hin.
  - intros s1 out1 s2 out2 s3 [H1 H1'] [H2 H2']. split.
    { destruct H2 as [->| ->]; [done|by right]. }
    intros eff [Hin|Hin]%elem_of_app; [by apply H1'|].
    specialize (H2' eff Hin). unfold in_order in *.
    destruct H1 as [H1|H1]; rewrite H1 in H2'; [done|].
    destruct eff as [|to []| |]; try done.
    destruct H2' as [-> []]. done.
Qed.

Lemma sends_dequeue (ok : Effect → Prop) :
  runs (sends ok) dequeueTileIfDAConnected.
Proof.
  intros s. unfold exec, effects.
  destruct (dequeue_cases s) as [[-> _]|(da & enc & rest & Hda & _ & ->)];
    cbn [fst snd].
  - apply seq_nil.
  - split; [by left|]. intros eff ->%list_elem_of_singleton.
    unfold in_order. by rewrite Hda.
Qed.

Ltac sends_leaf :=
  split; [left; reflexivity|];
  let eff := fresh "eff" in
  let Hin := fresh "Hin" in
  intros eff Hin;
  first [ by apply elem_of_nil in Hin
        | apply list_elem_of_singleton in Hin; subst eff;
          unfold in_order, own_socket;
          repeat match goal with
          | H : negb (String.eqb _ _) = false |- _ =>
              apply negb_false_iff, String.eqb_eq in H; subst
          end;
          done ].

Lemma sends_enqueueTile (ok : Effect → Prop) (tile : Tile) :
  runs (sends ok) (enqueueTile tile).
Proof. unfold enqueueTile. split_runs. sends_leaf. Qed.

(** The closing of a socket sends nothing to anybody. *)
Lemma sends_closing (ok : Effect → Prop) (s : State) (sid : string)
    (out : list Effect) :
  (∀ eff, eff ∈ out → ∀ to m, eff ≠ Emit to m) →
  (∀ eff, eff ∈ out → ok eff) →
  sends ok s out (disconnected_state s sid).
Proof.
  intros Hno Hok. split.
  - unfold disconnected_state.
    destruct (idToAddress s !! sid) as [a|]; [destruct (truthy a)|];
      case_bool_decide; by auto.
  - intros eff Hin. unfold in_order. specialize (Hno eff Hin).
    destruct eff as [|to m| |]; try by apply Hok.
    by destruct (Hno to m).
Qed.

Lemma sends_socket_disconnect (ok : Effect → Prop) (sid : string) :
  ok (SocketDisconnect sid) → ok (ConsoleLog (Disconnected sid)) →
  runs (sends ok) (socket_disconnect sid).
Proof.
  intros Hok1 Hok2. apply runs_socket_disconnect. intros s.
  apply sends_closing.
  - intros eff Hin to m ->. apply elem_of_cons in Hin as [?|Hin]; [done|].
    by apply list_elem_of_singleton in Hin.
  - intros eff Hin. apply elem_of_cons in Hin as [->|Hin]; [done|].
    by apply list_elem_of_singleton in Hin as ->.
Qed.

Lemma sends_disconnect (ok : Effect → Prop) (sid : string) :
  ok (ConsoleLog (Disconnected sid)) → runs (sends ok) (disconnect sid).
Proof.
  intros Hok. apply runs_disconnect. intros s. apply sends_closing.
  - intros eff Hin to m ->. by apply list_elem_of_singleton in Hin.
  - intros eff Hin. by apply list_elem_of_singleton in Hin as ->.
Qed.

Ltac handler_runs :=
  unfold login, getSpawnSignature, handshakeDA, getMoveSignature, decrypt,
    sendRecoveredTileResponse, finishRecovery, saveToDatabaseResponse,
    onSpawnAttempt, onMoveFinalize, onBlock, upkeepClaimedMoves,
    alertPlayers;
  split_runs.

Lemma sends_chain_event (e : Event) :
  requester e = None → runs (sends (λ _, True)) (handle e).
Proof.
  intros Hreq. destruct e; try discriminate Hreq; simpl; handler_runs;
    first [apply sends_enqueueTile|apply sends_dequeue|sends_leaf].
Qed.

Lemma sends_request (e : Event) (sid : string) :
  requester e = Some sid →
  (∀ sid', e ≠ EvHandshakeDA sid') →
  runs (sends (own_socket sid)) (handle e).
Proof.
  intros Hreq Hh.
  destruct e; try discriminate Hreq; simpl in Hreq; simplify_eq; simpl;
    try (handler_runs;
         first [apply sends_enqueueTile|apply sends_dequeue
               |by apply sends_socket_disconnect
               |by apply sends_disconnect
               |sends_leaf]).
  by destruct (Hh sid).
Qed.

Lemma event_cases (e : Event) :
  (∃ sid, e = EvHandshakeDA sid) ∨ (∀ sid, e ≠ EvHandshakeDA sid).
Proof. destruct e; first [left; by eexists|right; by intros]. Qed.

Lemma sends_weaken (ok : Effect → Prop) (s s' : State) (out : list Effect) :
  sends ok s out s' → sends (λ _, True) s out s'.
Proof.
  intros [Hslot Hout]. split; [done|]. intros eff Hin.
  specialize (Hout eff Hin). unfold in_order in *.
  destruct eff as [|to []| |]; done.
Qed.

(** What the handshake of a would-be DA node sends. *)
Lemma handshakeDA_effects (s : State) (sid : string) (eff : Effect) :
  eff ∈ effects (handshakeDA sid) s →
  eff = Emit (Some sid) (handshakeDAResponse (inRecoveryMode s))
  ∨ eff = SocketDisconnect sid ∨ eff = ConsoleLog (Disconnected sid).
Proof.
  unfold effects. rewrite handshakeDA_run.
  destruct (socketIdDA s); cbn [snd turned_away].
  - intros [->|Hin]%elem_of_cons; [by auto|].
    apply list_elem_of_singleton in Hin as ->. by auto.
  - intros ->%list_elem_of_singleton. by auto.
Qed.

(** X9: the envelopes of the backup go to the attached DA node and to
    nobody else: whatever the event, an envelope is sent only when a DA
    node is attached, and then to that node. *)
Theorem envelopes_to_DA_only (e : Event) (s : State) (to : option string)
    (enc : EncryptedTile) :
  Emit to (saveToDatabase enc) ∈ effects (handle e) s →
  to = socketIdDA s ∧ is_Some to.
Proof.
  intros Hin.
  destruct (event_cases e) as [[sid ->]|Hh].
  - simpl in Hin. by destruct (handshakeDA_effects _ _ _ Hin) as [?|[?|?]].
  - assert (Hs : sends (λ _, True) s (effects (handle e) s)
                   (exec (handle e) s)).
    { destruct (requester e) as [sid|] eqn:Hreq.
      - eapply sends_weaken. by apply (sends_request e sid).
      - by apply sends_chain_event. }
    destruct Hs as [_ Hs]. apply (Hs _ Hin).
Qed.

(** X10: a request is answered on the socket it came from.  Whatever a
    socket sends, the server emits to that socket only and closes that
    socket only; the one exception is the backup, whose envelopes go to
    the attached DA node. *)
Theorem requests_answered_on_own_socket (e : Event) (s : State)
    (sid : string) (eff : Effect) :
  requester e = Some sid → eff ∈ effects (handle e) s →
  match eff with
  | Emit to (saveToDatabase _) => to = socketIdDA s
  | Emit to _ => to = Some sid
  | SocketDisconnect sid' => sid' = sid
  | _ => True
  end.
Proof.
  intros Hreq Hin.
  assert (Hok : in_order (own_socket sid) s eff).
  { destruct (event_cases e) as [[sid' ->]|Hh].
    - simpl in Hreq. simplify_eq. simpl in Hin.
      by destruct (handshakeDA_effects _ _ _ Hin) as [->|[->| ->]].
    - destruct (sends_request e sid Hreq Hh s) as [_ Hs]. by apply Hs. }
  unfold in_order, own_socket in Hok.
  destruct eff as [|to []| |]; try done. by destruct Hok.
Qed.

(** ** The backup queue *)

Global Instance queue_served_sequential : Sequential queue_served.
Proof.
  split.
  - intros s. exists []. by rewrite app_nil_r.
  - intros s1 out1 s2 out2 s3 [add1 H1] [add2 H2]. exists (add1 ++ add2).
    by rewrite delivered_app, <- app_assoc, H2, !app_assoc, H1.
Qed.

Lemma queue_served_dequeue : runs queue_served dequeueTileIfDAConnected.
Proof.
  intros s. exists []. by rewrite dequeue_delivered, app_nil_r.
Qed.

Lemma queue_served_enqueueTile (tile : Tile) :
  runs queue_served (enqueueTile tile).
Proof. intros s. by exists [envelope (encryptions s) tile]. Qed.

Ltac queue_leaf :=
  exists []; rewrite app_nil_r; reflexivity.

(** The closing of a socket leaves the queue alone. *)
Lemma queue_served_socket_disconnect (sid : string) :
  runs queue_served (socket_disconnect sid).
Proof.
  apply runs_socket_disconnect. intros s. exists []. rewrite app_nil_r.
  by destruct (disconnected_state_writes s sid) as (ids & addrs & da & ->).
Qed.

Lemma queue_served_disconnect (sid : string) :
  runs queue_served (disconnect sid).
Proof.
  apply runs_disconnect. intros s. exists []. rewrite app_nil_r.
  by destruct (disconnected_state_writes s sid) as (ids & addrs & da & ->).
Qed.

Lemma queue_served_handle (e : Event) : runs queue_served (handle e).
Proof.
  destruct e; simpl; handler_runs;
    first [apply queue_served_enqueueTile|apply queue_served_dequeue
          |apply queue_served_socket_disconnect
          |apply queue_served_disconnect
          |queue_leaf].
Qed.

Lemma run_cons (e : Event) (es : list Event) (s : State) :
  run (e :: es) s = run es (exec (handle e) s).
Proof. reflexivity. Qed.

(** X11: the backup queue loses nothing and keeps the order.  Over every
    run of events from every state, the envelopes handed to the DA node,
    followed by those still queued, are the envelopes queued at the
    start followed by those added since: an envelope leaves the queue
    only by being sent, and the envelopes are sent in the order in which
    they were queued. *)
Theorem backup_queue_lossless (es : list Event) (s : State) :
  ∃ added,
    delivered (trace es s) ++ queuedTilesDA (run es s)
      = queuedTilesDA s ++ added.
Proof.
  change (queue_served s (trace es s) (run es s)).
  revert s. induction es as [|e es IH]; intros s.
  - apply seq_nil.
  - rewrite run_cons. cbn [trace].
    eapply seq_app; [apply queue_served_handle|apply IH].
Qed.

(** ** Claimed moves *)

Global Instance claims_kept_preorder : PreOrder claims_kept.
Proof.
  split; [by intros s|].
  intros s1 s2 s3 [H12 H12'] [H23 H23']. split; [by etrans|congruence].
Qed.

Lemma claims_kept_handle (e : Event) :
  (∀ sid uFrom uTo, e ≠ EvGetMoveSignature sid uFrom uTo) →
  (∀ n, e ≠ EvBlock n) →
  steps claims_kept (handle e).
Proof.
  intros Hm Hb.
  destruct e; simpl;
    try (handler_steps; split; simpl;
         first [apply delete_subseteq|reflexivity]).
  - by destruct (Hm sid uFrom0 uTo0).
  - by destruct (Hb n).
Qed.

Lemma getMoveSignature_cases (s : State) (sid : string) (uF uT : TileJSON) :
  getMoveSignature sid uF uT s = turned_away s sid ∨
  ∃ sender height, proposal_ok s sid uF sender height.
Proof.
  rewrite <- turned_away_run. unfold getMoveSignature. open_M.
  assert (Hclose : ∀ r : unit * State * list Effect,
    (let '(y, s2, out2) := r in (y, s2, [] ++ out2)) = r).
  { by intros [[[] s2] out2]. }
  destruct (idToAddress s !! sid) as [sender|] eqn:Hsid; [|by left].
  destruct (inRecoveryMode s) eqn:Hrec; [by left|]. cbn [orb].
  destruct (truthy sender) eqn:Htr; [|by left]. cbn [negb].
  destruct (playerLatestBlock s !! sender) as [lb|] eqn:Hlb; [|by left].
  destruct (currentBlockHeight s) as [height|] eqn:Hh; [|by left].
  destruct (lb <? height) eqn:Hlt; [|by left].
  destruct (String.eqb_spec (json_address uF) sender) as [Heq|Hneq];
    [|by left].
  right. exists sender, height. repeat split; try done.
  - by apply truthy_true.
  - exists lb. split; [done|]. by apply Z.ltb_lt.
Qed.

Lemma claims_fresh_step (e : Event) (s : State) :
  0 ≤ CLAIMED_MOVE_LIFE_SPAN →
  claims_fresh s → claims_fresh (exec (handle e) s).
Proof.
  intros Hspan Hinv.
  assert (Hcase : (∃ sid uF uT, e = EvGetMoveSignature sid uF uT)
                  ∨ (∃ n, e = EvBlock n)
                  ∨ ((∀ sid uF uT, e ≠ EvGetMoveSignature sid uF uT)
                     ∧ (∀ n, e ≠ EvBlock n))).
  { destruct e; first [left; by do 3 eexists|right; left; by eexists
                      |right; right; by split; intros]. }
  destruct Hcase as [(sid & uF & uT & ->)|[[n ->]|[Hm Hb]]]; simpl.
  - destruct (getMoveSignature_cases s sid uF uT)
      as [Hrun|(sender & height & Hok)].
    { unfold exec. rewrite Hrun. cbn [turned_away fst snd].
      by destruct (disconnected_state_writes s sid)
        as (ids & addrs & da & ->). }
    destruct (getMoveSignature_accepted_fields s sid uF uT sender height Hok)
      as (Hcm & _ & _ & _ & _ & _ & _ & Hh & _).
    intros k m. rewrite Hcm, Hh.
    destruct Hok as (_ & _ & _ & Hheight & _).
    destruct (decide (moveKey (Tile_fromJSON uF) (Tile_fromJSON uT) = k))
      as [<-|Hne].
    + rewrite lookup_insert_eq. intros [= <-]. split; [done|].
      exists height. split; [done|]. simpl. lia.
    + rewrite lookup_insert_ne by done. apply Hinv.
  - unfold exec. rewrite onBlock_run. cbn [fst snd]. intros k m. simpl.
    intros [Hk Hkeep]%map_lookup_filter_Some. simpl in Hkeep.
    destruct (Hinv _ _ Hk) as [Hkey _]. split; [done|].
    exists n. split; [done|]. lia.
  - destruct (claims_kept_handle e Hm Hb s) as [Hsub Hh].
    intros k m Hk. rewrite Hh. apply Hinv.
    by eapply lookup_weaken.
Qed.

(** X12: no stale claim is ever stored.  If the life span of a claimed
    move is not negative then, in every state the server reaches, each
    stored claim lies under the key made of the hashes of its two tiles,
    and the current block is at most its life span past the block in
    which it was proposed; so the finalization of a move whose claim has
    expired finds no claim. *)
Theorem stored_claims_fresh (s : State) (k : string) (m : ClaimedMove) :
  0 ≤ CLAIMED_MOVE_LIFE_SPAN → reachable s → claimedMoves s !! k = Some m →
  k = String.append (hash (uFrom m)) (hash (uTo m)) ∧
  ∃ h, currentBlockHeight s = Some h ∧
       h ≤ blockSubmitted m + CLAIMED_MOVE_LIFE_SPAN.
Proof.
  intros Hspan Hreach. revert k m. change (claims_fresh s).
  induction Hreach as [s Hinit|s e _ IH].
  - destruct Hinit as (_ & _ & Hcm & _). intros k m.
    by rewrite Hcm, lookup_empty.
  - by apply claims_fresh_step.
Qed.


(** ** Spawn claims *)

Lemma onSpawnAttempt_claims (s : State) (player : string) (success : bool) :
  inRecoveryMode s = false →
  inRecoveryMode (exec (onSpawnAttempt player success) s) = false ∧
  claimedSpawns (exec (onSpawnAttempt player success) s)
    = delete player (claimedSpawns s).
Proof.
  intros Hrec.
  destruct success, (claimedSpawns s !! player) as [spawn|] eqn:Hspawn,
    (addressToId s !! player) as [sid|] eqn:Hsid;
    try destruct (truthy sid) eqn:Htr;
    try (destruct s; simpl in *; subst; unfold onSpawnAttempt; fields;
         rewrite ?Hspawn, ?Hsid, ?Htr; done).
  apply truthy_true in Htr.
  pose proof (onSpawnAttempt_success_run s player sid spawn Hrec Hspawn
                Hsid Htr) as Hrun.
  simpl in Hrun.
  match type of Hrun with
  | _ = (_, exec dequeueTileIfDAConnected ?s', _) =>
      assert (Hexec : exec (onSpawnAttempt player true) s
                = exec dequeueTileIfDAConnected s')
        by (unfold exec at 1; by rewrite Hrun);
      destruct (dequeue_frame s') as (Hf1 & _ & _ & _ & _ & _ & Hf7 & _)
  end.
  by rewrite Hexec, Hf1, Hf7.
Qed.



(** A request for a spawn signature is turned away, after at most one
    line on the console, or it gets past the claims. *)
Lemma getSpawnSignature_pending (s : State) (ch : Chain)
    (sid symbol address sigStr playerSecret : string) :
  is_Some (claimedSpawns s !! address) →
  ∃ logs,
    getSpawnSignature ch sid symbol address sigStr playerSecret s
      = (tt, disconnected_state s sid,
         logs ++ [SocketDisconnect sid; ConsoleLog (Disconnected sid)]) ∧
    Forall (λ e, ∃ l, e = ConsoleLog l) logs.
Proof.
  intros Hpending. unfold getSpawnSignature. open_M. cbv beta iota.
  destruct (idToAddress s !! sid) as [sender|].
  2:{ rewrite socket_disconnect_run. by exists []. }
  destruct (inRecoveryMode s || negb (truthy sender)).
  { rewrite socket_disconnect_run. by exists []. }
  case_bool_decide.
  { rewrite socket_disconnect_run. exists [ConsoleLog AlreadyCommittedToSpawn].
    split; [done|]. repeat constructor. by eexists. }
  rewrite bool_decide_eq_true_2 by done.
  rewrite socket_disconnect_run. exists [ConsoleLog AlreadyCommittedToSpawn].
  split; [done|]. repeat constructor. by eexists.
Qed.

(** X15: a pending spawn claim turns further requests away.  While a
    spawn claim is stored for an address, every request for a spawn
    signature for that address, from whatever socket and with whatever
    secret, is turned away before the chain is asked: nothing is
    emitted, the socket is closed (which releases it as when it leaves),
    and the claims, the city ids and the board stay as they are.  The
    event of the chain that resolves the spawn attempt retires the
    claim whatever the outcome. *)
Theorem pending_spawn_claim_refuses (s : State) (address : string) :
  is_Some (claimedSpawns s !! address) →
  (∀ ch sid symbol sigStr playerSecret,
     let request :=
       getSpawnSignature ch sid symbol address sigStr playerSecret in
     exec request s = exec (disconnect sid) s ∧
     (∀ to m, Emit to m ∉ effects request s) ∧
     SocketDisconnect sid ∈ effects request s ∧
     claimedSpawns (exec request s) = claimedSpawns s ∧
     cityId (exec request s) = cityId s ∧ b (exec request s) = b s) ∧
  (inRecoveryMode s = false →
   ∀ success,
     claimedSpawns (exec (onSpawnAttempt address success) s) !! address
       = None).
Proof.
  intros Hpending. split.
  - intros ch sid symbol sigStr playerSecret request.
    destruct (getSpawnSignature_pending s ch sid symbol address sigStr
                playerSecret Hpending) as (logs & Hrun & Hlogs).
    subst request. unfold exec, effects. rewrite Hrun, disconnect_run.
    cbn [fst snd].
    split; [done|]. split; [|split].
    + intros to m [Hin|Hin]%elem_of_app.
      * rewrite Forall_forall in Hlogs. by destruct (Hlogs _ Hin) as [l ?].
      * apply elem_of_cons in Hin as [?|Hin]; [done|].
        by apply list_elem_of_singleton in Hin.
    + apply elem_of_app. right. by left.
    + by destruct (disconnected_state_writes s sid)
        as (ids & addrs & da & ->).
  - intros Hrec success.
    destruct (onSpawnAttempt_claims s address success Hrec) as [_ Hcs].
    rewrite Hcs. apply lookup_delete_eq.
Qed.

(** ** City ids *)

Global Instance cityId_grows_preorder : PreOrder cityId_grows.
Proof.
  split; [intros s; unfold cityId_grows; lia|].
  intros s1 s2 s3 H12 H23. unfold cityId_grows in *. lia.
Qed.

Lemma cityId_grows_handle (e : Event) : steps cityId_grows (handle e).
Proof.
  destruct e; simpl; handler_steps; unfold cityId_grows; simpl; lia.
Qed.

Lemma cityId_grows_run (es : list Event) (s : State) :
  cityId s ≤ cityId (run es s).
Proof.
  revert s. induction es as [|e es IH]; intros s; [simpl; lia|].
  rewrite run_cons. pose proof (cityId_grows_handle e s) as He.
  pose proof (IH (exec (handle e) s)) as Hes.
  unfold cityId_grows in He. lia.
Qed.

(** X16: a city id is handed out once.  An accepted request for a spawn
    signature writes the current city id into the spawn tile it claims,
    and the counter of city ids is larger than that id ever after,
    whatever events follow; so no later spawn tile carries the same
    id. *)
Theorem city_id_handed_out_once (s : State) (ch : Chain)
    (sid symbol address sigStr playerSecret sender : string) (secret : Z)
    (es : list Event) :
  spawn_request_ok s ch sid address playerSecret sender secret →
  let s1 := exec (getSpawnSignature ch sid symbol address sigStr
                    playerSecret) s in
  (∃ prev l,
     claimedSpawns s1 !! address
       = Some (mkClaimedSpawn prev
                 (Tile_spawn (mkPlayer symbol address) l START_RESOURCES
                    (cityId s)))) ∧
  cityId s < cityId (run es s1).
Proof.
  intros Hok s1.
  pose proof (getSpawnSignature_accepted_run s ch sid symbol address sigStr
                playerSecret sender secret Hok) as Hrun.
  simpl in Hrun.
  pose proof (cityId_grows_run es s1) as Hgrow.
  assert (Hs1 : (∃ prev l,
     claimedSpawns s1 !! address
       = Some (mkClaimedSpawn prev
                 (Tile_spawn (mkPlayer symbol address) l START_RESOURCES
                    (cityId s)))) ∧ cityId s1 = cityId s + 1).
  { subst s1. unfold exec. rewrite Hrun. cbn [fst snd]. simpl.
    rewrite lookup_insert_eq. split; [by do 2 eexists|done]. }
  destruct Hs1 as [Hclaim Hid]. split; [done|]. lia.
Qed.

(** ** The view sent at login *)

Lemma foldl_collect {A} (f : list string → A → list string)
    (P : A → string → Prop) :
  (∀ acc x, NoDup acc →
     NoDup (f acc x) ∧ ∀ y, y ∈ f acc x ↔ y ∈ acc ∨ P x y) →
  ∀ xs acc, NoDup acc →
    NoDup (foldl f acc xs) ∧
    ∀ y, y ∈ foldl f acc xs ↔ y ∈ acc ∨ ∃ x, x ∈ xs ∧ P x y.
Proof.
  intros Hf xs. induction xs as [|x xs IH]; intros acc Hacc; simpl.
  - split; [done|]. intros y. split; [by left|].
    intros [?|(x & Hx & _)]; [done|]. by apply elem_of_nil in Hx.
  - destruct (Hf acc x Hacc) as [Hnd Hin].
    destruct (IH (f acc x) Hnd) as [Hnd' Hin']. split; [done|].
    intros y. rewrite Hin', Hin. split.
    + intros [[?|?]|(x' & Hx' & HS)]; [by left|right..].
      * exists x. split; [by left|done].
      * exists x'. split; [by right|done].
    + intros [?|(x' & Hx' & HS)]; [by left; left|].
      apply elem_of_cons in Hx' as [->|Hx']; [by left; right|].
      right. by exists x'.
Qed.

Lemma set_add_spec (x : string) (xs : list string) :
  NoDup xs → NoDup (set_add x xs) ∧ ∀ y, y ∈ set_add x xs ↔ y ∈ xs ∨ x = y.
Proof.
  intros Hnd. unfold set_add. destruct (decide (x ∈ xs)) as [Hin|Hnin].
  - split; [done|]. intros y. split; [by left|]. by intros [?| <-].
  - split.
    + apply NoDup_app. split; [done|]. split; [|apply NoDup_singleton].
      intros y Hy ->%list_elem_of_singleton. done.
    + intros y. rewrite elem_of_app, list_elem_of_singleton.
      split; (intros [?|?]; [by left|by right]).
Qed.

Lemma visibleTiles_of_spec (bd : Board) (address : string) :
  NoDup (visibleTiles_of bd address) ∧
  ∀ y, y ∈ visibleTiles_of bd address ↔
       ∃ cid locString tl l,
         cid ∈ default [] (playerCities bd address) ∧
         locString ∈ default [] (cityTiles bd cid) ∧
         JSON_parse locString = Some tl ∧
         l ∈ getNearbyLocations bd tl ∧ y = JSON_stringify l.
Proof.
  unfold visibleTiles_of.
  set (inner := λ (acc : list string) (l : Location),
                  set_add (JSON_stringify l) acc).
  set (middle := λ (acc : list string) (locString : string),
                   match JSON_parse locString with
                   | Some tl => foldl inner acc (getNearbyLocations bd tl)
                   | None => acc
                   end).
  set (outer := λ (acc : list string) (cid : Z),
                  foldl middle acc (default [] (cityTiles bd cid))).
  assert (Hinner : ∀ acc l, NoDup acc →
    NoDup (inner acc l) ∧
    ∀ y, y ∈ inner acc l ↔ y ∈ acc ∨ y = JSON_stringify l).
  { intros acc l Hacc. unfold inner.
    destruct (set_add_spec (JSON_stringify l) acc Hacc) as [Hnd Hin].
    split; [done|]. intros y. rewrite Hin.
    split; (intros [?|?]; [by left|by right]). }
  assert (Hmiddle : ∀ acc locString, NoDup acc →
    NoDup (middle acc locString) ∧
    ∀ y, y ∈ middle acc locString ↔
         y ∈ acc ∨ ∃ tl l, JSON_parse locString = Some tl ∧
                           l ∈ getNearbyLocations bd tl ∧
                           y = JSON_stringify l).
  { intros acc locString Hacc. unfold middle.
    destruct (JSON_parse locString) as [tl|].
    - destruct (foldl_collect inner (λ l y, y = JSON_stringify l) Hinner
                  (getNearbyLocations bd tl) acc Hacc) as [Hnd Hin].
      split; [done|]. intros y. rewrite Hin. split.
      + intros [?|(l & Hl & ->)]; [by left|]. right. by exists tl, l.
      + intros [?|(tl' & l & [= <-] & Hl & ->)]; [by left|].
        right. by exists l.
    - split; [done|]. intros y. split; [by left|].
      by intros [?|(tl & l & ? & _)]. }
  assert (Houter : ∀ acc cid, NoDup acc →
    NoDup (outer acc cid) ∧
    ∀ y, y ∈ outer acc cid ↔
         y ∈ acc ∨ ∃ locString tl l,
           locString ∈ default [] (cityTiles bd cid) ∧
           JSON_parse locString = Some tl ∧
           l ∈ getNearbyLocations bd tl ∧ y = JSON_stringify l).
  { intros acc cid Hacc. unfold outer.
    destruct (foldl_collect middle
      (λ locString y, ∃ tl l, JSON_parse locString = Some tl ∧
                              l ∈ getNearbyLocations bd tl ∧
                              y = JSON_stringify l)
      Hmiddle (default [] (cityTiles bd cid)) acc Hacc) as [Hnd Hin].
    split; [done|]. intros y. rewrite Hin. split.
    - intros [?|(locString & Hloc & tl & l & ?)]; [by left|].
      right. by exists locString, tl, l.
    - intros [?|(locString & tl & l & Hloc & ?)]; [by left|].
      right. exists locString. split; [done|]. by exists tl, l. }
  destruct (foldl_collect outer
    (λ cid y, ∃ locString tl l,
       locString ∈ default [] (cityTiles bd cid) ∧
       JSON_parse locString = Some tl ∧
       l ∈ getNearbyLocations bd tl ∧ y = JSON_stringify l)
    Houter (default [] (playerCities bd address)) [] (NoDup_nil_2 (A:=string)))
    as [Hnd Hin].
  split; [done|]. intros y. rewrite Hin. split.
  - intros [Hnil|(cid & Hcid & locString & tl & l & ?)].
    { by apply elem_of_nil in Hnil. }
    by exists cid, locString, tl, l.
  - intros (cid & locString & tl & l & Hcid & ?). right.
    exists cid. split; [done|]. by exists locString, tl, l.
Qed.

(** X17: the view a spawned player is sent at login.  An accepted login
    of a player who is on the board is answered by one message to the
    socket, the list of the locations to decrypt: it holds, each once,
    the locations in the neighbourhood of the tiles of the player's
    cities and no other. *)
Theorem login_view_exact (s : State) (sid address sigStr : string) :
  inRecoveryMode s = false → addressToId s !! address = None →
  verifyMessage sid sigStr = Some address → address ≠ EmptyString →
  isSpawned (b s) (mkPlayer EmptyString address) = true →
  ∃ locs,
    effects (login sid address sigStr) s
      = [Emit (Some sid) (loginResponse locs)] ∧
    NoDup locs ∧
    ∀ y, y ∈ locs ↔
         ∃ cid locString tl l,
           cid ∈ default [] (playerCities (b s) address) ∧
           locString ∈ default [] (cityTiles (b s) cid) ∧
           JSON_parse locString = Some tl ∧
           l ∈ getNearbyLocations (b s) tl ∧ y = JSON_stringify l.
Proof.
  intros Hrec Hfree Hsig Hne Hspawned.
  exists (visibleTiles_of (b s) address).
  split; [|apply visibleTiles_of_spec].
  destruct s. simpl in *. subst. unfold login. fields.
  rewrite Hfree. rewrite bool_decide_eq_false_2 by (by intros [? ?]).
  rewrite Hsig. apply truthy_true in Hne. rewrite Hne, String.eqb_refl.
  cbn [negb orb]. fields. by rewrite Hspawned.
Qed.

(** ** A socket that logs in twice *)

(** X18: a socket that logs in twice keeps its first address bound.
    When a socket that logged in under one address logs in under
    another, the socket is bound to the second address, but the first
    address stays bound to the socket; the closing of the socket
    releases the second address only.  From then on every login under
    the first address is turned away as already logged on, and the
    address is still bound afterwards. *)
Theorem second_login_keeps_first_address (s : State)
    (sid a1 a2 sig1 sig2 : string) :
  reachable s → inRecoveryMode s = false →
  addressToId s !! a1 = None → addressToId s !! a2 = None →
  a1 ≠ a2 → a1 ≠ EmptyString → a2 ≠ EmptyString →
  verifyMessage sid sig1 = Some a1 → verifyMessage sid sig2 = Some a2 →
  let s2 := exec (login sid a2 sig2) (exec (login sid a1 sig1) s) in
  let s3 := exec (disconnect sid) s2 in
  idToAddress s2 !! sid = Some a2 ∧ addressToId s2 !! a1 = Some sid ∧
  idToAddress s3 !! sid = None ∧ addressToId s3 !! a2 = None ∧
  addressToId s3 !! a1 = Some sid ∧
  ∀ sid' sig',
    login sid' a1 sig' s3
      = (tt, disconnected_state s3 sid',
         [ConsoleLog AddressAlreadyLoggedOn; SocketDisconnect sid';
          ConsoleLog (Disconnected sid')]) ∧
    addressToId (exec (login sid' a1 sig') s3) !! a1 = Some sid.
Proof.
  intros Hreach Hrec Hfree1 Hfree2 Hne Hne1 Hne2 Hsig1 Hsig2.
  set (s1 := exec (login sid a1 sig1) s). intros s2 s3.
  assert (Hinv3 : directory_inv s3).
  { apply reachable_directory_inv.
    apply (reachable_step _ (EvDisconnecting sid)).
    apply (reachable_step _ (EvLogin sid a2 sig2)).
    by apply (reachable_step _ (EvLogin sid a1 sig1)). }
  assert (Hmode : ∀ (e : Event) (s0 : State),
    (∀ sid0, e ≠ EvRecoveryFinished sid0) →
    inRecoveryMode s0 = false → inRecoveryMode (exec (handle e) s0) = false).
  { intros e s0 He <-. by apply same_mode_handle. }
  destruct (login_accepted_run s sid a1 sig1 Hrec Hfree1 Hsig1 Hne1)
    as [Hid1 Haddr1]. fold s1 in Hid1, Haddr1.
  assert (Hrec1 : inRecoveryMode s1 = false).
  { by apply (Hmode (EvLogin sid a1 sig1)). }
  assert (Hfree2' : addressToId s1 !! a2 = None).
  { rewrite Haddr1. by rewrite lookup_insert_ne. }
  destruct (login_accepted_run s1 sid a2 sig2 Hrec1 Hfree2' Hsig2 Hne2)
    as [Hid2 Haddr2]. fold s2 in Hid2, Haddr2.
  assert (Hrec2 : inRecoveryMode s2 = false).
  { by apply (Hmode (EvLogin sid a2 sig2)). }
  assert (Hb2 : idToAddress s2 !! sid = Some a2).
  { rewrite Hid2. apply lookup_insert_eq. }
  assert (Hb1 : addressToId s2 !! a1 = Some sid).
  { rewrite Haddr2, lookup_insert_ne by done. rewrite Haddr1.
    apply lookup_insert_eq. }
  pose proof (disconnect_directory s2 sid) as Hd. fold s3 in Hd.
  rewrite Hb2 in Hd. apply truthy_true in Hne2. rewrite Hne2 in Hd.
  destruct Hd as [Hid3 Haddr3].
  assert (Hrec3 : inRecoveryMode s3 = false).
  { by apply (Hmode (EvDisconnecting sid)). }
  assert (Hb3 : addressToId s3 !! a1 = Some sid).
  { rewrite Haddr3. by rewrite lookup_delete_ne. }
  assert (Hgone : idToAddress s3 !! sid = None).
  { rewrite Hid3. apply lookup_delete_eq. }
  clearbody s3 s2 s1.
  split; [done|]. split; [done|]. split; [done|].
  split; [rewrite Haddr3; apply lookup_delete_eq|].
  split; [done|]. intros sid' sig'.
  assert (Hrun : login sid' a1 sig' s3
            = (tt, disconnected_state s3 sid',
               [ConsoleLog AddressAlreadyLoggedOn; SocketDisconnect sid';
                ConsoleLog (Disconnected sid')])).
  { unfold login. open_M. rewrite Hrec3.
    rewrite bool_decide_eq_true_2 by by eexists.
    by rewrite socket_disconnect_run. }
  split; [done|]. unfold exec. rewrite Hrun. cbn [fst snd].
  unfold disconnected_state.
  destruct (idToAddress s3 !! sid') as [a|] eqn:Hsid';
    [|by case_bool_decide].
  destruct (truthy a); [|by case_bool_decide].
  assert (Hother : a ≠ a1).
  { intros ->. destruct (Hinv3 _ _ Hsid') as [_ Hback]. congruence. }
  case_bool_decide; simpl; by rewrite lookup_delete_ne.
Qed.

(** ** The exchange with the DA node *)

Lemma saveToDatabaseResponse_run (s : State) (da : string) :
  socketIdDA s = Some da →
  saveToDatabaseResponse da s = dequeueTileIfDAConnected s.
Proof.
  intros Hda. unfold saveToDatabaseResponse, bind, get.
  rewrite Hda, String.eqb_refl. cbn [negb].
  by destruct (dequeueTileIfDAConnected s) as [[[] s1] out].
Qed.

(** X19: the acknowledgements of the DA node drain the queue.  Each
    acknowledgement of the attached DA node releases the envelope at the
    head of the queue to it, and nothing when the queue is empty: after
    [n] acknowledgements the first [n] queued envelopes were sent, in
    order, and the others are still queued. *)
Theorem acknowledgements_drain_queue (s : State) (da : string) (n : nat) :
  socketIdDA s = Some da →
  let acks := replicate n (EvSaveToDatabaseResponse da) in
  trace acks s
    = map (λ enc, Emit (Some da) (saveToDatabase enc))
          (take n (queuedTilesDA s)) ∧
  queuedTilesDA (run acks s) = drop n (queuedTilesDA s).
Proof.
  revert s. induction n as [|n IH]; intros s Hda; [done|].
  cbv zeta. cbn [replicate]. rewrite run_cons. cbn [trace].
  cbn [handle]. unfold exec, effects.
  rewrite (saveToDatabaseResponse_run s da Hda).
  destruct (dequeue_cases s)
    as [[-> [Hnone|Hq]]|(da' & enc & rest & Hda' & Hq & ->)]; cbn [fst snd].
  - congruence.
  - destruct (IH s Hda) as [Htrace Hrun]. rewrite Htrace, Hrun, Hq.
    by rewrite take_nil, drop_nil.
  - assert (Hda1 : socketIdDA (set_queuedTilesDA rest s) = Some da) by done.
    assert (da' = da) as -> by congruence.
    destruct (IH _ Hda1) as [Htrace Hrun]. rewrite Htrace, Hrun, Hq.
    by split.
Qed.

(** X20: the recovery exchange.  The attached DA node sends the
    envelopes of the backup one by one; each complete envelope is
    answered by the request for the next index, whether the tile was
    accepted or not, and the verdict on the tile is written to the
    console under the index it had; an envelope with an empty part ends
    the exchange: nothing is answered and nothing changes. *)
Theorem recovery_exchange (s : State) (ch : Chain) (da : string)
    (encTile : EncryptedTile) :
  socketIdDA s = Some da →
  let respond := sendRecoveredTileResponse ch da encTile in
  if complete encTile then
    recoveryModeIndex (exec respond s) = recoveryModeIndex s + 1 ∧
    ∃ verdict,
      effects respond s
        = [verdict;
           Emit (Some da) (sendRecoveredTile (recoveryModeIndex s + 1))] ∧
      (verdict = ConsoleLog (RecoveredTile (recoveryModeIndex s) true) ∨
       verdict = ConsoleError (RecoveredTile (recoveryModeIndex s) false))
  else respond s = (tt, s, []).
Proof.
  intros Hda respond. subst respond. unfold complete.
  destruct s. simpl in Hda. subst. unfold sendRecoveredTileResponse. fields.
  rewrite String.eqb_refl. cbn [negb].
  destruct (truthy (ciphertext encTile)); [|done].
  destruct (truthy (iv encTile)); [|done].
  destruct (truthy (tag encTile)); [|done]. cbn [negb orb andb].
  destruct (decryptTile _ _ _) as [tile|].
  - case_bool_decide.
    + destruct (isSpawned b0 (owner tile)); fields;
        (split; [done|]); eexists; (split; [reflexivity|]); by left.
    + fields. split; [done|]. eexists. split; [reflexivity|]. by right.
  - fields. split; [done|]. eexists. split; [reflexivity|]. by right.
Qed.

(** ** Nothing is served while the enclave recovers *)

Global Instance stays_empty_preorder : PreOrder stays_empty.
Proof.
  split; [by intros s Hq|].
  intros s1 s2 s3 H12 H23 Hq. by apply H23, H12.
Qed.

Lemma stays_empty_dequeue : steps stays_empty dequeueTileIfDAConnected.
Proof.
  intros s Hq. unfold exec.
  destruct (dequeue_cases s) as [[-> _]|(da & enc & rest & _ & Hq' & _)];
    [done|congruence].
Qed.

Lemma stays_empty_recovering (e : Event) (s : State) :
  inRecoveryMode s = true → stays_empty s (exec (handle e) s).
Proof.
  intros Hrec.
  destruct (recovering_closes s Hrec) as (Hl & Hs & Hm & Hd & Hsp & Hmv).
  assert (Hclosed : ∀ sid, stays_empty s (exec (socket_disconnect sid) s)).
  { intros sid. apply steps_socket_disconnect. intros.
    by unfold stays_empty. }
  destruct e; simpl;
    try (revert s Hrec Hl Hs Hm Hd Hsp Hmv Hclosed;
         match goal with
         | |- ∀ s, _ → _ → _ → _ → _ → _ → _ → _ →
                   stays_empty s (exec ?m s) =>
             intros s _ _ _ _ _ _ _ _; revert s;
             change (steps stays_empty m)
         end;
         unfold handshakeDA, sendRecoveredTileResponse, finishRecovery,
           saveToDatabaseResponse, onBlock, upkeepClaimedMoves;
         split_steps; first [apply stays_empty_dequeue|by unfold stays_empty]).
  - unfold exec. rewrite Hl. apply Hclosed.
  - unfold exec. rewrite Hs. apply Hclosed.
  - unfold exec. rewrite Hm. apply Hclosed.
  - unfold exec. rewrite Hd. apply Hclosed.
  - unfold exec. by rewrite Hsp.
  - unfold exec. by rewrite Hmv.
Qed.

(** X21: while the enclave recovers it serves nobody.  In every state
    the server reaches in recovery mode, no socket is bound to an
    address, no spawn and no move is claimed, and the backup queue is
    empty. *)
Theorem recovery_serves_nobody (s : State) :
  reachable s → inRecoveryMode s = true →
  idToAddress s = ∅ ∧ addressToId s = ∅ ∧
  claimedSpawns s = ∅ ∧ claimedMoves s = ∅ ∧ queuedTilesDA s = [].
Proof.
  intros Hreach Hrec.
  destruct (reachable_recovery_inv s Hreach Hrec) as (Hid & Haddr & Hsp & Hm).
  repeat (split; [done|]).
  induction Hreach as [s Hinit|s e Hreach IH].
  - destruct Hinit as (_ & _ & _ & _ & _ & _ & _ & _ & _ & Hq). by apply Hq.
  - pose proof (recovery_mode_step _ _ Hrec) as Hrec0.
    apply (stays_empty_recovering e s Hrec0).
    apply IH; try done; by apply (reachable_recovery_inv s Hreach Hrec0).
Qed.

(** ** What the enclave signs *)

(** X23: the enclave signs a move exactly when the proposal passes the
    guard: the socket is bound to a non-empty address, the enclave is
    not recovering, the address last proposed before the current block,
    and the tile moved from names the address.  What it signs is the
    digest of the current block height and of the hashes of the two
    tiles, and the height is sent along. *)
Theorem move_signed_exactly_when (s : State) (sid : string)
    (uF uT : TileJSON) (sig : string) (height : Z) :
  Emit (Some sid) (moveSignatureResponse sig height)
    ∈ effects (getMoveSignature sid uF uT) s ↔
  (∃ sender, proposal_ok s sid uF sender height) ∧
  sig = signMessage (solidityKeccak256 height (hash (Tile_fromJSON uF))
                       (hash (Tile_fromJSON uT))).
Proof.
  split.
  - intros Hin.
    destruct (getMoveSignature_cases s sid uF uT)
      as [Hrun|(sender & height' & Hok)].
    { unfold effects in Hin. rewrite Hrun in Hin.
      cbn [turned_away snd] in Hin.
      apply elem_of_cons in Hin as [?|Hin]; [done|].
      by apply list_elem_of_singleton in Hin. }
    pose proof (getMoveSignature_accepted_run s sid uF uT sender height' Hok)
      as Hrun.
    simpl in Hrun. unfold effects at 1 in Hin. rewrite Hrun in Hin.
    cbn [snd] in Hin. apply elem_of_cons in Hin as [Heq|Hin].
    + injection Heq as -> ->. split; [by exists sender|done].
    + exfalso.
      match type of Hin with
      | _ ∈ effects dequeueTileIfDAConnected ?s' =>
          pose proof (dequeue_effects s') as Hall
      end.
      rewrite Forall_forall in Hall.
      by destruct (Hall _ Hin) as (da & enc & ?).
  - intros [[sender Hok] ->].
    pose proof (getMoveSignature_accepted_run s sid uF uT sender height Hok)
      as Hrun.
    simpl in Hrun. unfold effects at 1. rewrite Hrun. by left.
Qed.

Lemma getSpawnSignature_cases (s : State) (ch : Chain)
    (sid symbol address sigStr playerSecret : string) :
  (∀ to m, Emit to m
             ∉ effects (getSpawnSignature ch sid symbol address sigStr
                          playerSecret) s) ∨
  ∃ sender secret,
    spawn_request_ok s ch sid address playerSecret sender secret.
Proof.
  unfold getSpawnSignature. open_M. cbv beta iota.
  pose proof (socket_disconnect_run s sid) as Haway.
  destruct (idToAddress s !! sid) as [sender|] eqn:Hsid.
  2:{ left. rewrite Haway. intros to m Hin. cbn in Hin.
      repeat (apply elem_of_cons in Hin as [Hin|Hin]; [discriminate Hin|]).
      by apply elem_of_nil in Hin. }
  destruct (inRecoveryMode s) eqn:Hrec; cbn [orb].
  { left. rewrite Haway. intros to m Hin. cbn in Hin.
    repeat (apply elem_of_cons in Hin as [Hin|Hin]; [discriminate Hin|]).
    by apply elem_of_nil in Hin. }
  destruct (truthy sender) eqn:Htr; cbn [negb].
  2:{ left. rewrite Haway. intros to m Hin. cbn in Hin.
      repeat (apply elem_of_cons in Hin as [Hin|Hin]; [discriminate Hin|]).
      by apply elem_of_nil in Hin. }
  case_bool_decide as Hcs.
  { left. rewrite Haway. intros to m Hin. cbn in Hin.
    repeat (apply elem_of_cons in Hin as [Hin|Hin]; [discriminate Hin|]).
    by apply elem_of_nil in Hin. }
  case_bool_decide as Hca.
  { left. rewrite Haway. intros to m Hin. cbn in Hin.
    repeat (apply elem_of_cons in Hin as [Hin|Hin]; [discriminate Hin|]).
    by apply elem_of_nil in Hin. }
  destruct (BigInt playerSecret) as [secret|] eqn:Hsecret.
  2:{ left. rewrite Haway. intros to m Hin. cbn in Hin.
      repeat (apply elem_of_cons in Hin as [Hin|Hin]; [discriminate Hin|]).
      by apply elem_of_nil in Hin. }
  destruct (getSpawnCommitment ch address =? 0) eqn:Hcommit; cbn [orb].
  { left. rewrite Haway. intros to m Hin. cbn in Hin.
    repeat (apply elem_of_cons in Hin as [Hin|Hin]; [discriminate Hin|]).
    by apply elem_of_nil in Hin. }
  destruct (getSpawnChallengeHash ch address =? hd 0 (poseidonPerm [0; secret]))
    eqn:Hhash; cbn [negb].
  2:{ left. rewrite Haway. intros to m Hin. cbn in Hin.
      repeat (apply elem_of_cons in Hin as [Hin|Hin]; [discriminate Hin|]).
      by apply elem_of_nil in Hin. }
  destruct (t_length (b s) =? 0) eqn:Hlen.
  { left. intros to m Hin. cbn in Hin. by apply elem_of_nil in Hin. }
  right. exists sender, secret. unfold spawn_request_ok.
  apply truthy_true in Htr. apply Z.eqb_neq in Hcommit, Hlen.
  apply Z.eqb_eq in Hhash.
  repeat split; try done.
  - destruct (claimedSpawns s !! sender) eqn:Hc; [|done].
    exfalso. apply Hcs. by eexists.
  - destruct (claimedSpawns s !! address) eqn:Hc; [|done].
    exfalso. apply Hca. by eexists.
Qed.

(** X24: the enclave signs a spawn exactly when the request passes the
    guards: the socket is bound, the enclave is not recovering, no spawn
    claim is pending for the bound address or for the address asked for,
    the secret is a number, the chain holds a commitment of the address
    whose challenge is the hash of the secret, and the board has rows.
    What it signs is the digest of the block of the commitment and of
    the hashes of the tile found at the spawn location and of the spawn
    tile made for the address with the current city id; both tiles are
    sent along. *)
Theorem spawn_signed_exactly_when (s : State) (ch : Chain)
    (sid symbol address sigStr playerSecret sig : string)
    (prev spawn : TileJSON) :
  Emit (Some sid) (spawnSignatureResponse sig prev spawn)
    ∈ effects (getSpawnSignature ch sid symbol address sigStr playerSecret) s
  ↔
  ∃ sender secret,
    spawn_request_ok s ch sid address playerSecret sender secret ∧
    let height := getSpawnCommitment ch address in
    let l := spawnLocation secret (getBlockHash ch height) (t_length (b s)) in
    let prevTile := getTile (b s) l in
    let spawnTile := Tile_spawn (mkPlayer symbol address) l START_RESOURCES
                       (cityId s) in
    prev = toJSON prevTile ∧ spawn = toJSON spawnTile ∧
    sig = signMessage (solidityKeccak256 height (hash prevTile)
                         (hash spawnTile)).
Proof.
  split.
  - intros Hin.
    destruct (getSpawnSignature_cases s ch sid symbol address sigStr
                playerSecret) as [Hno|(sender & secret & Hok)].
    { by destruct (Hno _ _ Hin). }
    exists sender, secret. split; [done|].
    pose proof (getSpawnSignature_accepted_run s ch sid symbol address sigStr
                  playerSecret sender secret Hok) as Hrun.
    simpl in Hrun. unfold effects in Hin. rewrite Hrun in Hin.
    cbn [snd] in Hin. apply list_elem_of_singleton in Hin.
    by injection Hin as -> -> ->.
  - intros (sender & secret & Hok & Hprev & Hspawn & Hsig).
    pose proof (getSpawnSignature_accepted_run s ch sid symbol address sigStr
                  playerSecret sender secret Hok) as Hrun.
    simpl in Hrun, Hprev, Hspawn, Hsig. unfold effects. rewrite Hrun.
    cbn [snd]. subst. apply list_elem_of_singleton. reflexivity.
Qed.

End MoreProperties.

(** * The properties on concrete runs *)

Section Examples.
Import SpecGame Demo.

(** Closed facts about the example runs are settled by evaluation. *)
Ltac by_eval :=
  lazymatch goal with
  | |- ?l = ?r =>
      apply (bool_decide_eq_true_1 (l = r)); vm_compute; reflexivity
  | |- ?l ≠ ?r =>
      apply (bool_decide_eq_false_1 (l = r)); vm_compute; reflexivity
  | |- is_Some ?mx =>
      apply (bool_decide_eq_true_1 (is_Some mx)); vm_compute; reflexivity
  | |- _ => vm_compute; first [reflexivity | discriminate | exact I]
  end.

Lemma start_initial : initial start.
Proof. unfold initial. repeat split; by_eval. Qed.

Lemma siege_start_initial : initial siege_start.
Proof. unfold initial. repeat split; by_eval. Qed.

Lemma logged_in_reachable : reachable logged_in.
Proof. apply reachable_run, reachable_initial, start_initial. Qed.

Lemma proposed_reachable : reachable proposed.
Proof.
  apply (reachable_step _ (EvGetMoveSignature _ _ _)), logged_in_reachable.
Qed.

Lemma carol_logged_in_reachable : reachable carol_logged_in.
Proof. apply reachable_run, reachable_initial, start_initial. Qed.

Lemma carol_claimed_reachable : reachable carol_claimed.
Proof.
  apply (reachable_step _ (EvGetSpawnSignature _ _ _ _ _ _)).
  apply carol_logged_in_reachable.
Qed.

Lemma siege_proposed_reachable : reachable siege_proposed.
Proof. apply reachable_run, reachable_initial, siege_start_initial. Qed.

Lemma logged_in_proposal_ok : proposal_ok logged_in "s1" move_from "0xA" 5.
Proof.
  unfold proposal_ok.
  split; [by_eval|]. split; [discriminate|]. split; [by_eval|].
  split; [by_eval|]. split; [|by_eval].
  exists 0. split; [by_eval|lia].
Qed.

(** C9 on a run: a second login as alice, who is bound to [s1], comes
    from the socket [s2], which is not bound; it is refused and leaves
    the directory as it is. *)
Lemma login_failure_atomic_witness :
  is_Some (addressToId logged_in !! "0xA") ∧
  idToAddress logged_in !! "s2" = None ∧
  idToAddress (exec (login "s2" "0xA" "0xA") logged_in)
    = idToAddress logged_in ∧
  addressToId (exec (login "s2" "0xA" "0xA") logged_in)
    = addressToId logged_in.
Proof.
  assert (Hbound : is_Some (addressToId logged_in !! "0xA")).
  { by_eval. }
  assert (Hfree : idToAddress logged_in !! "s2" = None) by by_eval.
  split; [exact Hbound|]. split; [exact Hfree|].
  pose proof (login_failure_atomic logged_in "s2" "0xA" "0xA"
                (or_intror (or_introl Hbound))) as (_ & Hsame & _).
  exact (Hsame Hfree).
Defined.

(** C9 as stated fails: alice, bound to [s1], sends a second login from
    [s1] itself.  The login is refused, since her address is bound, and
    the server closes the socket, which releases her binding: neither
    map is what it was before the request. *)
Lemma login_failure_atomic_counterexample :
  is_Some (addressToId logged_in !! "0xA") ∧
  idToAddress logged_in !! "s1" = Some "0xA" ∧
  idToAddress (exec (login "s1" "0xA" "0xA") logged_in) !! "s1" = None ∧
  addressToId (exec (login "s1" "0xA" "0xA") logged_in) !! "0xA" = None ∧
  idToAddress (exec (login "s1" "0xA" "0xA") logged_in)
    ≠ idToAddress logged_in ∧
  addressToId (exec (login "s1" "0xA" "0xA") logged_in)
    ≠ addressToId logged_in.
Proof. repeat split; by_eval. Qed.

(** C8 on a run: the spawn of carol is resolved as failed. *)
Lemma spawn_failure_no_board_mutation_witness :
  reachable carol_claimed ∧
  b (exec (onSpawnAttempt "0xC" false) carol_claimed) = b carol_claimed ∧
  effects (onSpawnAttempt "0xC" false) carol_claimed
    = [Emit (Some "s3") trySpawn].
Proof.
  split; [exact carol_claimed_reachable|].
  destruct (spawn_failure_no_board_mutation carol_claimed "0xC"
              carol_claimed_reachable) as (Hb & _ & Hsend).
  split; [exact Hb|]. apply Hsend. by_eval.
Defined.

(** C1 on a run: a move is finalized that alice never proposed. *)
Lemma move_finalize_without_claim_witness :
  claimedMoves logged_in !! String.append (hash move_from) (hash move_to)
    = None ∧
  exec (onMoveFinalize (hash move_from) (hash move_to)) logged_in = logged_in.
Proof.
  assert (Hnone : claimedMoves logged_in
                    !! String.append (hash move_from) (hash move_to) = None).
  { by_eval. }
  split; [exact Hnone|].
  destruct (move_finalize_without_claim logged_in _ _ Hnone) as (Hsame & _).
  exact Hsame.
Defined.

(** C1 as stated fails: with no claim stored the finalized move leaves
    the board as it is, whereas with the claim stored the same event
    writes the two tiles. *)
Lemma move_finalize_without_claim_counterexample :
  claimedMoves logged_in !! String.append (hash move_from) (hash move_to)
    = None ∧
  is_Some (claimedMoves proposed
             !! String.append (hash move_from) (hash move_to)) ∧
  b (exec (onMoveFinalize (hash move_from) (hash move_to)) logged_in)
    = b logged_in ∧
  b (exec (onMoveFinalize (hash move_from) (hash move_to)) logged_in)
    ≠ b (exec (onMoveFinalize (hash move_from) (hash move_to)) proposed).
Proof.
  split; [by_eval|].
  split; [by_eval|]. split; by_eval.
Qed.

(** C2 fails on this run: alice proposes a move in block 5, leaves and
    logs in again, which resets her latest proposal height to 0, and a
    second proposal of hers is accepted in block 5. *)
Lemma second_proposal_in_same_block :
  currentBlockHeight logged_in = Some 5 ∧
  effects (getMoveSignature "s1" move_from move_to) logged_in
    = [Emit (Some "s1")
         (moveSignatureResponse
            (signMessage (solidityKeccak256 5 (hash move_from) (hash move_to)))
            5)] ∧
  playerLatestBlock proposed !! "0xA" = Some 5 ∧
  currentBlockHeight relogged = Some 5 ∧
  playerLatestBlock relogged !! "0xA" = Some 0 ∧
  effects (getMoveSignature "s2" move_from move_to) relogged
    = [Emit (Some "s2")
         (moveSignatureResponse
            (signMessage (solidityKeccak256 5 (hash move_from) (hash move_to)))
            5)].
Proof. repeat split; by_eval. Qed.

(** C10 on a run: the move of alice is proposed, then finalized. *)
Lemma move_backed_up_twice_witness :
  proposal_ok logged_in "s1" move_from "0xA" 5 ∧
  delivered (effects (getMoveSignature "s1" move_from move_to) logged_in)
    ++ delivered (effects (onMoveFinalize (hash move_from) (hash move_to))
                    proposed)
    ++ queuedTilesDA
         (exec (onMoveFinalize (hash move_from) (hash move_to)) proposed)
    = queuedTilesDA logged_in
      ++ [envelope (encryptions logged_in) move_from;
          envelope (S (encryptions logged_in)) move_to;
          envelope (S (S (encryptions logged_in))) move_from;
          envelope (S (S (S (encryptions logged_in)))) move_to].
Proof.
  split; [exact logged_in_proposal_ok|].
  pose proof (move_backed_up_twice logged_in "s1" move_from move_to "0xA" 5
                logged_in_proposal_ok) as (_ & _ & _ & _ & _ & Hfour).
  exact Hfour.
Defined.

(** C10 as stated fails: the move of alice is proposed in block 5 and
    finalized only after its claim expired with block 11.  The
    finalization finds no claim and queues nothing, so that the move,
    though finalized, leaves the two envelopes of its proposal and no
    more; no DA node is attached, so that none has left the queue. *)
Lemma move_backed_up_twice_counterexample :
  move_accepted logged_in "s1" move_from move_to 5 ∧
  claimedMoves swept !! moveKey move_from move_to = None ∧
  delivered (effects (getMoveSignature "s1" move_from move_to) logged_in)
    = [] ∧
  delivered (effects (onMoveFinalize (hash move_from) (hash move_to)) swept)
    = [] ∧
  queuedTilesDA logged_in = [] ∧
  queuedTilesDA (exec (onMoveFinalize (hash move_from) (hash move_to)) swept)
    = [envelope 0 move_from; envelope 1 move_to].
Proof.
  split; [exact (move_accepted_intro _ _ _ _ _ _ logged_in_proposal_ok)|].
  repeat split; by_eval.
Qed.


Lemma carol_spawn_request_ok :
  spawn_request_ok carol_logged_in chain7 "s3" "0xC" "42" "0xC" 42.
Proof.
  unfold spawn_request_ok.
  split; [by_eval|]. split; [discriminate|]. split; [by_eval|].
  split; [by_eval|]. split; [by_eval|]. split; [by_eval|].
  split; [by_eval|]. split; by_eval.
Qed.

(** C5 on a run: the spawn location of carol. *)
Lemma spawn_location_formula_witness :
  spawn_request_ok carol_logged_in chain7 "s3" "0xC" "42" "0xC" 42 ∧
  spawnLocation 42 (getBlockHash chain7 (getSpawnCommitment chain7 "0xC"))
    (t_length (b carol_logged_in))
  = mkLocation
      (Z.rem (hd 0 (poseidonPerm
                [0; 42; getBlockHash chain7 (getSpawnCommitment chain7 "0xC");
                 0]))
             (t_length (b carol_logged_in)))
      (Z.rem (hd 0 (poseidonPerm
                [0; 42; getBlockHash chain7 (getSpawnCommitment chain7 "0xC");
                 1]))
             (t_length (b carol_logged_in))).
Proof.
  split; [exact carol_spawn_request_ok|].
  pose proof (spawn_location_formula carol_logged_in chain7 "s3" "C" "0xC"
                "0xC" "42" "0xC" 42 carol_spawn_request_ok) as (Hloc & _).
  exact Hloc.
Defined.



(** C4 on a run: the move of alice to the free tile (0,1). *)
Lemma move_finalize_affected_and_alerted_witness :
  reachable proposed ∧
  claimedMoves proposed !! String.append (hash move_from) (hash move_to)
    = Some (mkClaimedMove move_from move_to 5
              (envelope 0%nat move_from) (envelope 1%nat move_to)) ∧
  b (exec (onMoveFinalize (hash move_from) (hash move_to)) proposed)
    = setTile
        (setTile (b proposed)
           (uFrom (mkClaimedMove move_from move_to 5
                     (envelope 0%nat move_from) (envelope 1%nat move_to))))
        (uTo (mkClaimedMove move_from move_to 5
                (envelope 0%nat move_from) (envelope 1%nat move_to))).
Proof.
  assert (Hclaim : claimedMoves proposed
                     !! String.append (hash move_from) (hash move_to)
            = Some (mkClaimedMove move_from move_to 5
                      (envelope 0%nat move_from) (envelope 1%nat move_to)))
    by by_eval.
  split; [exact proposed_reachable|]. split; [exact Hclaim|].
  pose proof (move_finalize_affected_and_alerted proposed _ _ _
                proposed_reachable Hclaim) as (Hb & _).
  exact Hb.
Defined.

(** C4 as stated fails: a move to a tile that is neither capital nor
    city centre marks the location moved from besides the
    destination. *)
Lemma move_finalize_affected_and_alerted_counterexample :
  claimedMoves proposed !! String.append (hash move_from) (hash move_to)
    = Some (mkClaimedMove move_from move_to 5
              (envelope 0%nat move_from) (envelope 1%nat move_to)) ∧
  isCapital (getTile (b proposed) (loc move_to)) = false ∧
  isCityCenter (getTile (b proposed) (loc move_to)) = false ∧
  updatedLocs_of (b proposed)
    (mkClaimedMove move_from move_to 5
       (envelope 0%nat move_from) (envelope 1%nat move_to))
    = [mkLocation 0 0; mkLocation 0 1] ∧
  updatedLocs_of (b proposed)
    (mkClaimedMove move_from move_to 5
       (envelope 0%nat move_from) (envelope 1%nat move_to))
    ≠ [loc move_to].
Proof. repeat split; by_eval. Qed.

(** Where the server departs from the comment on [alertPlayers], by
    which the previous and the new owner decrypt the region around
    every affected location: when alice takes the capital of bob, his
    only tile, bob is bound to the socket [s2] and yet is sent nothing;
    the one alert goes to alice. *)
Lemma previous_owner_not_alerted :
  claimedMoves siege_proposed
    !! String.append (hash siege_from) (hash siege_to)
    = Some (mkClaimedMove siege_from siege_to 5
              (envelope 0%nat siege_from) (envelope 1%nat siege_to)) ∧
  isCapital (getTile (b siege_proposed) (loc siege_to)) = true ∧
  address (owner (getTile (b siege_proposed) (loc siege_to))) = "0xB" ∧
  address (owner siege_to) = "0xA" ∧
  addressToId siege_proposed !! "0xB" = Some "s2" ∧
  effects (onMoveFinalize (hash siege_from) (hash siege_to)) siege_proposed
    = [Emit (Some "s1") (updateDisplay ["2,1"; "2,2"; "1,1"; "1,2"])].
Proof. repeat split; by_eval. Qed.

(** C6 on a run: alice, bound to [s1], asks for a tile. *)
Lemma decrypt_masked_view_witness :
  reachable logged_in ∧ idToAddress logged_in !! "s1" = Some "0xA" ∧
  exec (decrypt "s1" (mkLocation 2 2)) logged_in = logged_in.
Proof.
  assert (Hsid : idToAddress logged_in !! "s1" = Some "0xA") by by_eval.
  split; [exact logged_in_reachable|]. split; [exact Hsid|].
  pose proof (decrypt_masked_view logged_in "s1" "0xA" (mkLocation 2 2)
                logged_in_reachable Hsid) as (Hsame & _).
  exact Hsame.
Defined.

End Examples.

(** * The further properties on concrete runs *)

Section MoreExamples.
Import SpecGame Demo DemoDA.

(** Closed facts about the example runs are settled by evaluation. *)
Ltac by_eval :=
  lazymatch goal with
  | |- ?l = ?r =>
      apply (bool_decide_eq_true_1 (l = r)); vm_compute; reflexivity
  | |- ?l ≠ ?r =>
      apply (bool_decide_eq_false_1 (l = r)); vm_compute; reflexivity
  | |- is_Some ?mx =>
      apply (bool_decide_eq_true_1 (is_Some mx)); vm_compute; reflexivity
  | |- ?x ∈ ?l =>
      apply (bool_decide_eq_true_1 (x ∈ l)); vm_compute; reflexivity
  | |- _ => vm_compute; first [reflexivity | discriminate | exact I]
  end.

Lemma start_recovery_initial : initial start_recovery.
Proof.
  unfold initial. repeat split; by_eval.
Qed.

Lemma recovering_reachable : reachable recovering.
Proof.
  apply (reachable_step _ (EvHandshakeDA "da")), reachable_initial,
    start_recovery_initial.
Qed.

(** X1 on a run: the proposal of alice leaves the board as it is. *)
Lemma board_writers_witness :
  writes_board (EvGetMoveSignature "s1" move_from move_to) = false ∧
  b (exec (handle (EvGetMoveSignature "s1" move_from move_to)) logged_in)
    = b logged_in.
Proof.
  split; [reflexivity|].
  exact (board_writers (EvGetMoveSignature "s1" move_from move_to) logged_in
           eq_refl).
Defined.

(** X2 on a run: alice, bound to [s1], is bound back to it. *)
Lemma session_directory_consistent_witness :
  reachable logged_in ∧
  idToAddress logged_in !! "s1" = Some "0xA" ∧
  "0xA" ≠ EmptyString ∧ addressToId logged_in !! "0xA" = Some "s1".
Proof.
  assert (Hsid : idToAddress logged_in !! "s1" = Some "0xA") by by_eval.
  split; [exact logged_in_reachable|]. split; [exact Hsid|].
  pose proof (session_directory_consistent logged_in logged_in_reachable)
    as [Hinv _].
  exact (Hinv "s1" "0xA" Hsid).
Defined.

(** X3 on a run: alice leaves and comes back on the socket [s2]. *)
Lemma disconnect_releases_binding_witness :
  reachable logged_in ∧
  idToAddress logged_in !! "s1" = Some "0xA" ∧
  addressToId (exec (disconnect "s1") logged_in)
    = delete "0xA" (addressToId logged_in) ∧
  idToAddress (exec (login "s2" "0xA" "0xA") (exec (disconnect "s1") logged_in))
    !! "s2" = Some "0xA".
Proof.
  assert (Hsid : idToAddress logged_in !! "s1" = Some "0xA") by by_eval.
  assert (Hsig : verifyMessage "s2" "0xA" = Some "0xA") by by_eval.
  split; [exact logged_in_reachable|]. split; [exact Hsid|].
  pose proof (disconnect_releases_binding logged_in "s1" "0xA"
                logged_in_reachable Hsid) as Hrel.
  cbv zeta in Hrel.
  destruct Hrel as (_ & Haddr & _ & _ & _ & _ & _ & Hlogin).
  split; [exact Haddr|].
  destruct (Hlogin "s2" "0xA" Hsig) as [Hid _]. exact Hid.
Defined.

(** X4 on a run: carol logs in on the socket [s3] and leaves. *)
Lemma login_disconnect_round_trip_witness :
  inRecoveryMode start = false ∧
  idToAddress start !! "s3" = None ∧ addressToId start !! "0xC" = None ∧
  verifyMessage "s3" "0xC" = Some "0xC" ∧ "0xC" ≠ EmptyString ∧
  idToAddress (exec (disconnect "s3") (exec (login "s3" "0xC" "0xC") start))
    = idToAddress start.
Proof.
  assert (Hrec : inRecoveryMode start = false) by by_eval.
  assert (Hsid : idToAddress start !! "s3" = None) by by_eval.
  assert (Hfree : addressToId start !! "0xC" = None) by by_eval.
  assert (Hsig : verifyMessage "s3" "0xC" = Some "0xC") by by_eval.
  assert (Hne : "0xC" ≠ EmptyString) by discriminate.
  repeat (split; [assumption|]).
  pose proof (login_disconnect_round_trip start "s3" "0xC" "0xC"
                Hrec Hsid Hfree Hsig Hne) as Htrip.
  cbv zeta in Htrip. destruct Htrip as (_ & _ & Hid & _). exact Hid.
Defined.

(** X5 on a run: the login of alice while the enclave recovers. *)
Lemma recovery_mode_refuses_witness :
  inRecoveryMode start_recovery = true ∧
  login "s1" "0xA" "0xA" start_recovery = turned_away start_recovery "s1".
Proof.
  assert (Hrec : inRecoveryMode start_recovery = true) by by_eval.
  split; [exact Hrec|].
  destruct (recovery_mode_refuses start_recovery Hrec) as (Hlogin & _).
  exact (Hlogin "s1" "0xA" "0xA").
Defined.

(** X6 on a run: the DA node reports that recovery is finished. *)
Lemma recovery_ends_by_DA_only_witness :
  inRecoveryMode recovering = true ∧
  inRecoveryMode (exec (handle (EvRecoveryFinished "da")) recovering) = false.
Proof.
  assert (Hrec : inRecoveryMode recovering = true) by by_eval.
  assert (Hda : socketIdDA recovering = Some "da") by by_eval.
  split; [exact Hrec|].
  apply (recovery_ends_by_DA_only (EvRecoveryFinished "da") recovering Hrec).
  exists "da". split; [reflexivity|exact Hda].
Defined.

(** X22 on a run: a block and a login leave play enabled. *)
Lemma play_never_suspended_witness :
  inRecoveryMode start = false ∧
  inRecoveryMode (run [EvBlock 5; EvLogin "s1" "0xA" "0xA"] start) = false.
Proof.
  assert (Hlive : inRecoveryMode start = false) by by_eval.
  split; [exact Hlive|].
  exact (play_never_suspended start [EvBlock 5; EvLogin "s1" "0xA" "0xA"]
           Hlive).
Defined.

(** X7 on a run: a second DA node is turned away and the first stays
    attached; the place is freed when the first one leaves. *)
Lemma da_slot_exclusive_witness :
  socketIdDA recovering = Some "da" ∧
  handshakeDA "da2" recovering = turned_away recovering "da2" ∧
  socketIdDA (exec (handle (EvHandshakeDA "da2")) recovering) = Some "da" ∧
  socketIdDA (exec (disconnect "da") recovering) = None.
Proof.
  assert (Hda : socketIdDA recovering = Some "da") by by_eval.
  assert (Hother : requester (EvHandshakeDA "da2") ≠ Some "da")
    by discriminate.
  split; [exact Hda|].
  destruct (da_slot_exclusive recovering "da" Hda)
    as (Hshake & _ & Hkept & Hfree & _).
  split; [exact (Hshake "da2")|].
  split; [exact (Hkept (EvHandshakeDA "da2") Hother)|exact Hfree].
Defined.

(** X8 on a run: the DA node returns the tile of carol, whose hash the
    contract announced. *)
Lemma recovered_tile_checked_witness :
  b (exec (@sendRecoveredTileResponse game externals_da chain_da "da"
             recovered_envelope) recovering) ≠ b recovering ∧
  socketIdDA recovering = Some "da".
Proof.
  assert (Hb : b (exec (@sendRecoveredTileResponse game externals_da chain_da
                          "da" recovered_envelope) recovering)
               ≠ b recovering) by by_eval.
  split; [exact Hb|].
  destruct (@recovered_tile_checked game externals_da recovering chain_da "da"
              recovered_envelope Hb) as (Hda & _).
  exact Hda.
Defined.

(** X9 on a run: the proposal of alice is backed up to the attached DA
    node. *)
Lemma envelopes_to_DA_only_witness :
  Emit (Some "da") (saveToDatabase (envelope 0 move_from))
    ∈ effects (handle (EvGetMoveSignature "s1" move_from move_to)) with_da ∧
  Some "da" = socketIdDA with_da ∧ is_Some (Some "da").
Proof.
  assert (Hin : Emit (Some "da") (saveToDatabase (envelope 0 move_from))
                ∈ effects (handle (EvGetMoveSignature "s1" move_from move_to))
                    with_da) by by_eval.
  split; [exact Hin|].
  exact (envelopes_to_DA_only (EvGetMoveSignature "s1" move_from move_to)
           with_da (Some "da") (envelope 0 move_from) Hin).
Defined.

(** X10 on a run: carol, who is not on the board, is told on her own
    socket to spawn. *)
Lemma requests_answered_on_own_socket_witness :
  requester (EvLogin "s3" "0xC" "0xC") = Some "s3" ∧
  Emit (Some "s3") trySpawn ∈ effects (handle (EvLogin "s3" "0xC" "0xC")) start ∧
  Some "s3" = Some "s3".
Proof.
  assert (Hin : Emit (Some "s3") trySpawn
                ∈ effects (handle (EvLogin "s3" "0xC" "0xC")) start)
    by by_eval.
  split; [reflexivity|]. split; [exact Hin|].
  exact (requests_answered_on_own_socket (EvLogin "s3" "0xC" "0xC") start
           "s3" (Emit (Some "s3") trySpawn) eq_refl Hin).
Defined.

(** X12 on a run: the claim of the move alice proposed in block 5. *)
Lemma stored_claims_fresh_witness :
  0 ≤ CLAIMED_MOVE_LIFE_SPAN ∧ reachable proposed ∧
  claimedMoves proposed !! moveKey move_from move_to
    = Some (mkClaimedMove move_from move_to 5 (envelope 0 move_from)
              (envelope 1 move_to)) ∧
  ∃ h, currentBlockHeight proposed = Some h ∧
       h ≤ 5 + CLAIMED_MOVE_LIFE_SPAN.
Proof.
  assert (Hspan : 0 ≤ CLAIMED_MOVE_LIFE_SPAN) by by_eval.
  assert (Hclaim : claimedMoves proposed !! moveKey move_from move_to
            = Some (mkClaimedMove move_from move_to 5 (envelope 0 move_from)
                      (envelope 1 move_to))) by by_eval.
  split; [exact Hspan|]. split; [exact proposed_reachable|].
  split; [exact Hclaim|].
  destruct (stored_claims_fresh proposed _ _ Hspan proposed_reachable Hclaim)
    as [_ Hfresh].
  exact Hfresh.
Defined.

(** X15 on a run: carol holds a spawn claim; her second request is
    turned away and leaves the claims as they are. *)
Lemma pending_spawn_claim_refuses_witness :
  is_Some (claimedSpawns carol_claimed !! "0xC") ∧
  claimedSpawns
    (exec (getSpawnSignature chain7 "s3" "C" "0xC" "0xC" "42") carol_claimed)
    = claimedSpawns carol_claimed.
Proof.
  assert (Hpending : is_Some (claimedSpawns carol_claimed !! "0xC"))
    by by_eval.
  split; [exact Hpending|].
  destruct (pending_spawn_claim_refuses carol_claimed "0xC" Hpending)
    as [Hrefused _].
  pose proof (Hrefused chain7 "s3" "C" "0xC" "42") as Hr.
  cbv zeta in Hr. destruct Hr as (_ & _ & _ & Hclaims & _).
  exact Hclaims.
Defined.

(** X16 on a run: the city id of the spawn tile of carol is below the
    counter after her spawn was resolved. *)
Lemma city_id_handed_out_once_witness :
  spawn_request_ok carol_logged_in chain7 "s3" "0xC" "42" "0xC" 42 ∧
  cityId carol_logged_in
    < cityId (run [EvNewSpawnAttempt "0xC" true]
                (exec (getSpawnSignature chain7 "s3" "C" "0xC" "0xC" "42")
                   carol_logged_in)).
Proof.
  split; [exact carol_spawn_request_ok|].
  pose proof (city_id_handed_out_once carol_logged_in chain7 "s3" "C" "0xC"
                "0xC" "42" "0xC" 42 [EvNewSpawnAttempt "0xC" true]
                carol_spawn_request_ok) as Honce.
  cbv zeta in Honce. destruct Honce as [_ Hlt]. exact Hlt.
Defined.

(** X17 on a run: the view alice is sent when she logs in. *)
Lemma login_view_exact_witness :
  inRecoveryMode start = false ∧ addressToId start !! "0xA" = None ∧
  verifyMessage "s1" "0xA" = Some "0xA" ∧ "0xA" ≠ EmptyString ∧
  isSpawned (b start) (mkPlayer EmptyString "0xA") = true ∧
  ∃ locs,
    effects (login "s1" "0xA" "0xA") start
      = [Emit (Some "s1") (loginResponse locs)] ∧ NoDup locs.
Proof.
  assert (Hrec : inRecoveryMode start = false) by by_eval.
  assert (Hfree : addressToId start !! "0xA" = None) by by_eval.
  assert (Hsig : verifyMessage "s1" "0xA" = Some "0xA") by by_eval.
  assert (Hne : "0xA" ≠ EmptyString) by discriminate.
  assert (Hsp : isSpawned (b start) (mkPlayer EmptyString "0xA") = true)
    by by_eval.
  repeat (split; [assumption|]).
  destruct (login_view_exact start "s1" "0xA" "0xA" Hrec Hfree Hsig Hne Hsp)
    as (locs & Heff & Hnd & _).
  exists locs. split; [exact Heff|exact Hnd].
Defined.

(** X18 on a run: the socket [s9] logs in as alice, then as bob, and
    leaves. *)
Lemma second_login_keeps_first_address_witness :
  reachable start ∧ inRecoveryMode start = false ∧
  addressToId start !! "0xA" = None ∧ addressToId start !! "0xB" = None ∧
  "0xA" ≠ "0xB" ∧ "0xA" ≠ EmptyString ∧ "0xB" ≠ EmptyString ∧
  verifyMessage "s9" "0xA" = Some "0xA" ∧
  verifyMessage "s9" "0xB" = Some "0xB" ∧
  addressToId
    (exec (disconnect "s9")
       (exec (login "s9" "0xB" "0xB") (exec (login "s9" "0xA" "0xA") start)))
    !! "0xA" = Some "s9".
Proof.
  assert (Hreach : reachable start)
    by exact (reachable_initial _ start_initial).
  assert (Hrec : inRecoveryMode start = false) by by_eval.
  assert (Hfree1 : addressToId start !! "0xA" = None) by by_eval.
  assert (Hfree2 : addressToId start !! "0xB" = None) by by_eval.
  assert (Hne : "0xA" ≠ "0xB") by discriminate.
  assert (Hne1 : "0xA" ≠ EmptyString) by discriminate.
  assert (Hne2 : "0xB" ≠ EmptyString) by discriminate.
  assert (Hsig1 : verifyMessage "s9" "0xA" = Some "0xA") by by_eval.
  assert (Hsig2 : verifyMessage "s9" "0xB" = Some "0xB") by by_eval.
  repeat (split; [assumption|]).
  pose proof (second_login_keeps_first_address start "s9" "0xA" "0xB"
                "0xA" "0xB" Hreach Hrec Hfree1 Hfree2 Hne Hne1 Hne2 Hsig1
                Hsig2) as Hkeep.
  cbv zeta in Hkeep. destruct Hkeep as (_ & _ & _ & _ & Hbound & _).
  exact Hbound.
Defined.

(** X19 on a run: three acknowledgements on a queue of two envelopes. *)
Lemma acknowledgements_drain_queue_witness :
  socketIdDA backlog = Some "da" ∧
  queuedTilesDA (run (replicate 3 (EvSaveToDatabaseResponse "da")) backlog)
    = drop 3 (queuedTilesDA backlog).
Proof.
  assert (Hda : socketIdDA backlog = Some "da") by by_eval.
  split; [exact Hda|].
  pose proof (acknowledgements_drain_queue backlog "da" 3 Hda) as Hdrain.
  cbv zeta in Hdrain. destruct Hdrain as [_ Hq]. exact Hq.
Defined.

(** X20 on a run: an envelope with an empty tag ends the exchange. *)
Lemma recovery_exchange_witness :
  socketIdDA recovering = Some "da" ∧
  sendRecoveredTileResponse chain_da "da" broken_envelope recovering
    = (tt, recovering, []).
Proof.
  assert (Hda : socketIdDA recovering = Some "da") by by_eval.
  split; [exact Hda|].
  exact (recovery_exchange recovering chain_da "da" broken_envelope Hda).
Defined.

(** X21 on a run: the enclave recovers, with the DA node attached. *)
Lemma recovery_serves_nobody_witness :
  reachable recovering ∧ inRecoveryMode recovering = true ∧
  idToAddress recovering = ∅ ∧ queuedTilesDA recovering = [].
Proof.
  assert (Hrec : inRecoveryMode recovering = true) by by_eval.
  split; [exact recovering_reachable|]. split; [exact Hrec|].
  destruct (recovery_serves_nobody recovering recovering_reachable Hrec)
    as (Hid & _ & _ & _ & Hq).
  split; [exact Hid|exact Hq].
Defined.

End MoreExamples.
